(** * lars.cache: the LRU caching decorator ([src/lars/cache.py])

    A shallow embedding of [_make_key], of the three [wrapper] closures
    built by [lru_cache] (disabled, unbounded, bounded), of [cache_info]
    and of [cache_clear], followed by the properties of the cache.

    The bounded wrapper keeps a circular doubly linked list of four-slot
    links whose root is a sentinel.  The links are shared mutable
    objects, so they live in an explicit heap (an arena indexed by
    address) and every slot assignment of the source is one heap write. *)

From Stdlib Require Import ZArith QArith Qreduction String Ascii Bool Lia.
From Stdlib Require Import OrderedTypeEx.
From stdpp Require Import base list sets sorting.

Local Open Scope Z_scope.

(** ** Python values *)

(** The run-time types the cache can tell apart with [type(v)]. *)
Inductive pytype :=
| T_NoneType | T_bool | T_int | T_float | T_str | T_frozenset
| T_tuple | T_list | T_object | T_type.

Definition pytype_eqb (s t : pytype) : bool :=
  match s, t with
  | T_NoneType, T_NoneType | T_bool, T_bool | T_int, T_int
  | T_float, T_float | T_str, T_str | T_frozenset, T_frozenset
  | T_tuple, T_tuple | T_list, T_list | T_object, T_object
  | T_type, T_type => true
  | _, _ => false
  end.

Definition pytype_tag (t : pytype) : Z :=
  match t with
  | T_NoneType => 0 | T_bool => 1 | T_int => 2 | T_float => 3 | T_str => 4
  | T_frozenset => 5 | T_tuple => 6 | T_list => 7 | T_object => 8
  | T_type => 9
  end.

Local Unset Elimination Schemes.

(** The arguments and results that flow through the cache.  A finite
    float is represented by its exact rational value and a NaN by
    [VNaN], whose number tells one float object from another; [VObject]
    is a plain [object()] instance, equal only to itself; [VList] is the
    unhashable representative. *)
Inductive value :=
| VNone
| VBool (b : bool)
| VInt (z : Z)
| VFloat (q : Q)
| VStr (s : string)
| VTuple (l : list value)
| VList (l : list value)
| VObject (id : nat)
| VType (t : pytype)
| VNaN (id : nat).

Local Set Elimination Schemes.

(** [type(v)] *)
Definition type_of (v : value) : pytype :=
  match v with
  | VNone => T_NoneType
  | VBool _ => T_bool
  | VInt _ => T_int
  | VFloat _ => T_float
  | VStr _ => T_str
  | VTuple _ => T_tuple
  | VList _ => T_list
  | VObject _ => T_object
  | VType _ => T_type
  | VNaN _ => T_float
  end.

(** Numbers compare by mathematical value across [bool], [int], [float]. *)
Definition num_of (v : value) : option Q :=
  match v with
  | VBool b => Some (inject_Z (if b then 1 else 0))
  | VInt z => Some (inject_Z z)
  | VFloat q => Some q
  | _ => None
  end.

(** Element-wise comparison of two sequences. *)
Definition all2 {A : Type} (f : A -> A -> bool) : list A -> list A -> bool :=
  fix go (l m : list A) : bool :=
    match l, m with
    | [], [] => true
    | x :: l', y :: m' => f x y && go l' m'
    | _, _ => false
    end.

(** [a is b], for the values that do not equal themselves: two NaN are
    one object when they carry the same number.  Every other value
    equals itself, so that for it identity adds nothing to [==]. *)
Definition py_is (a b : value) : bool :=
  match a, b with
  | VNaN i, VNaN j => Nat.eqb i j
  | _, _ => false
  end.

(** [a == b].  A NaN equals nothing, itself included; a sequence
    compares its elements as the interpreter does, by identity first and
    by [==] next. *)
Fixpoint py_eq (a b : value) {struct a} : bool :=
  match a, b with
  | VNone, VNone => true
  | VStr s, VStr t => String.eqb s t
  | VTuple l, VTuple m => all2 (fun x y => py_is x y || py_eq x y) l m
  | VList l, VList m => all2 (fun x y => py_is x y || py_eq x y) l m
  | VObject i, VObject j => Nat.eqb i j
  | VType s, VType t => pytype_eqb s t
  | VBool x, VBool y => Qeq_bool (inject_Z (if x then 1 else 0)) (inject_Z (if y then 1 else 0))
  | VBool x, VInt y => Qeq_bool (inject_Z (if x then 1 else 0)) (inject_Z y)
  | VBool x, VFloat y => Qeq_bool (inject_Z (if x then 1 else 0)) y
  | VInt x, VBool y => Qeq_bool (inject_Z x) (inject_Z (if y then 1 else 0))
  | VInt x, VInt y => Qeq_bool (inject_Z x) (inject_Z y)
  | VInt x, VFloat y => Qeq_bool (inject_Z x) y
  | VFloat x, VBool y => Qeq_bool x (inject_Z (if y then 1 else 0))
  | VFloat x, VInt y => Qeq_bool x (inject_Z y)
  | VFloat x, VFloat y => Qeq_bool x y
  | _, _ => false
  end.

(** [a is b or a == b]: the comparison that sequences and dictionaries
    apply to their elements and keys. *)
Definition py_same (a b : value) : bool := py_is a b || py_eq a b.

(** ** Exceptions and outcomes *)

Inductive exn :=
| TypeError            (* unhashable type, or a value used as a link *)
| KeyError             (* [del d[k]] with [k] absent *)
| UserError (n : nat). (* whatever the wrapped function raises *)

Inductive outcome (A : Type) :=
| Ok (a : A)
| Raise (e : exn).
Arguments Ok {A} a.
Arguments Raise {A} e.

Definition is_Ok {A} (r : outcome A) : bool :=
  match r with Ok _ => true | Raise _ => false end.

(** ** Hashing *)

Definition str_hash (s : string) : Z :=
  fold_left (fun acc c => acc * 1000003 + Z.of_nat (nat_of_ascii c))
            (list_ascii_of_string s) 7.

Definition num_hash (q : Q) : Z :=
  let r := Qred q in
  if Pos.eqb (Qden r) 1 then Qnum r else Qnum r * 1000003 + Zpos (Qden r).

Definition tuple_hash (hs : list Z) : Z :=
  fold_left (fun acc h => acc * 1000003 + h) hs 3430008 + 97531.

(** Hash every element, failing at the first unhashable one. *)
Definition hash_all {A : Type} (h : A -> outcome Z) : list A -> outcome (list Z) :=
  fix go (l : list A) : outcome (list Z) :=
    match l with
    | [] => Ok []
    | x :: l' =>
        match h x with
        | Raise e => Raise e
        | Ok hx => match go l' with
                   | Raise e => Raise e
                   | Ok hs => Ok (hx :: hs)
                   end
        end
    end.

(** [hash(v)].  The interpreter's hash is modelled by a function with the
    two properties the cache relies on: values that are identical or
    equal hash equally, and a list (or a tuple holding one) raises
    [TypeError].  A NaN hashes to 0, the value [sys.hash_info.nan] of the
    interpreters the module was written for; hashing it by identity, as
    later ones do, would change nothing, since two NaN objects never
    match. *)
Fixpoint py_hash (v : value) : outcome Z :=
  match v with
  | VNone => Ok 1
  | VBool b => Ok (num_hash (inject_Z (if b then 1 else 0)))
  | VInt z => Ok (num_hash (inject_Z z))
  | VFloat q => Ok (num_hash q)
  | VStr s => Ok (str_hash s)
  | VTuple l =>
      match hash_all py_hash l with
      | Ok hs => Ok (tuple_hash hs)
      | Raise e => Raise e
      end
  | VList _ => Raise TypeError
  | VObject id => Ok (Z.of_nat id)
  | VType t => Ok (pytype_tag t)
  | VNaN _ => Ok 0
  end.

(** ** Cache keys *)

(** A key is either a plain value (the one-argument fast path of
    [_make_key], or the bare argument tuple of the bounded wrapper) or a
    [_HashedSeq]: a list that carries the hash of the tuple it was built
    from. *)
Inductive key :=
| KVal (v : value)
| KHashedSeq (l : list value) (hashvalue : Z).

(** [_HashedSeq.__init__]: [self[:] = tup; self.hashvalue = hash(tup)] *)
Definition _HashedSeq (tup : list value) : outcome key :=
  match py_hash (VTuple tup) with
  | Ok h => Ok (KHashedSeq tup h)
  | Raise e => Raise e
  end.

(** [hash(key)]; [_HashedSeq.__hash__] returns the stored value. *)
Definition key_hash (k : key) : outcome Z :=
  match k with
  | KVal v => py_hash v
  | KHashedSeq _ h => Ok h
  end.

(** The elements of a key that is a list: a [_HashedSeq] is one. *)
Definition key_seq (k : key) : option (list value) :=
  match k with
  | KHashedSeq l _ => Some l
  | KVal (VList l) => Some l
  | KVal _ => None
  end.

(** The comparison a dictionary makes between a stored key and a probe
    of the same hash: [k1 is k2 or k1 == k2]; a [_HashedSeq] compares as
    the list it is, element by element. *)
Definition key_eq (k1 k2 : key) : bool :=
  match k1, k2 with
  | KVal a, KVal b => py_same a b
  | _, _ =>
      match key_seq k1, key_seq k2 with
      | Some l, Some m => all2 py_same l m
      | _, _ => false
      end
  end.

(** The test a dictionary applies to a stored key and a probe: same hash,
    then identity or [==]. *)
Definition key_match (k1 k2 : key) : bool :=
  match key_hash k1, key_hash k2 with
  | Ok h1, Ok h2 => Z.eqb h1 h2 && key_eq k1 k2
  | _, _ => false
  end.

(** ** [_make_key] *)

(** Keyword arguments as the caller supplied them: name/value pairs with
    pairwise different names. *)
Definition kwargs := list (string * value).

Fixpoint insert_item (x : string * value) (l : kwargs) : kwargs :=
  match l with
  | [] => [x]
  | y :: l' =>
      if String.leb (fst x) (fst y) then x :: l else y :: insert_item x l'
  end.

(** [sorted(kwds.items())]: the names are distinct, so the order of two
    items is the order of their names. *)
Definition sorted (items : kwargs) : kwargs := foldr insert_item [] items.

(** The separator [kwd_mark=(object(),)] is created once with the module;
    object number 0 is reserved for it. *)
Definition kwd_mark : list value := [VObject 0].

Definition fasttypes (t : pytype) : bool :=
  match t with
  | T_int | T_str | T_frozenset | T_NoneType => true
  | _ => false
  end.

Definition is_nonempty {A} (l : list A) : bool :=
  match l with [] => false | _ :: _ => true end.

Definition _make_key (args : list value) (kwds : kwargs) (typed : bool)
  : outcome key :=
  let sorted_items := sorted kwds in
  let key := args in
  let key :=
    if is_nonempty kwds
    then (key ++ kwd_mark) ++ flat_map (fun item => [VStr (fst item); snd item]) sorted_items
    else key in
  if typed then
    let key := key ++ map (fun v => VType (type_of v)) args in
    let key :=
      if is_nonempty kwds
      then key ++ map (fun item => VType (type_of (snd item))) sorted_items
      else key in
    _HashedSeq key
  else
    match key with
    | [k0] => if fasttypes (type_of k0) then Ok (KVal k0) else _HashedSeq key
    | _ => _HashedSeq key
    end.

(** ** Dictionaries *)

(** A [dict] keeps its entries in insertion order; a probe finds the
    entry whose stored key matches it. *)
Definition dict (V : Type) := list (key * V).

Fixpoint dict_find {V} (k : key) (d : dict V) : option V :=
  match d with
  | [] => None
  | (k', v) :: d' => if key_match k' k then Some v else dict_find k d'
  end.

(** [d.get(k)]: hashing the probe comes first and may raise. *)
Definition dict_get {V} (k : key) (d : dict V) : outcome (option V) :=
  match key_hash k with
  | Raise e => Raise e
  | Ok _ => Ok (dict_find k d)
  end.

(** [d[k] = v]: an existing entry keeps its key and takes the value. *)
Fixpoint dict_store {V} (k : key) (v : V) (d : dict V) : dict V :=
  match d with
  | [] => [(k, v)]
  | (k', v') :: d' =>
      if key_match k' k then (k', v) :: d' else (k', v') :: dict_store k v d'
  end.

Definition dict_set {V} (k : key) (v : V) (d : dict V) : outcome (dict V) :=
  match key_hash k with
  | Raise e => Raise e
  | Ok _ => Ok (dict_store k v d)
  end.

Fixpoint dict_remove {V} (k : key) (d : dict V) : option (dict V) :=
  match d with
  | [] => None
  | (k', v') :: d' =>
      if key_match k' k then Some d'
      else match dict_remove k d' with
           | Some d'' => Some ((k', v') :: d'')
           | None => None
           end
  end.

(** [del d[k]] *)
Definition dict_del {V} (k : key) (d : dict V) : outcome (dict V) :=
  match key_hash k with
  | Raise e => Raise e
  | Ok _ => match dict_remove k d with
            | Some d' => Ok d'
            | None => Raise KeyError
            end
  end.

(** ** The state captured by the closures of [decorating_function] *)

(** Links are designated by their position in the heap. *)
Abbreviation addr := nat.

(** A link is the four-slot list [[PREV, NEXT, KEY, RESULT]].  An empty
    [KEY] or [RESULT] slot holds [None]. *)
Record link := Link { PREV : addr; NEXT : addr; KEY : key; RESULT : value }.

Global Instance link_inhabited : Inhabited link :=
  populate (Link 0%nat 0%nat (KVal VNone) VNone).

(** What the dictionary [cache] holds: a result (unbounded wrapper) or a
    reference to a link (bounded wrapper). *)
Inductive obj :=
| OVal (v : value)
| OLink (a : addr).

Record state := State {
  cache : dict obj;
  HITS : nat;              (* stats[HITS] *)
  MISSES : nat;            (* stats[MISSES] *)
  heap : list link;        (* every link allocated so far, by address *)
  nonlocal_root : addr     (* nonlocal_root[0] *)
}.

(** What a call does besides changing the state. *)
Inductive event :=
| Acquire
| Release
| Call (args : list value) (kwds : kwargs).

(** ** A state, exception and trace monad *)

Definition M (A : Type) := state -> outcome A * state * list event.

Definition ret {A} (a : A) : M A := fun s => (Ok a, s, []).
Definition raise {A} (e : exn) : M A := fun s => (Raise e, s, []).
Definition bind {A B} (c : M A) (k : A -> M B) : M B := fun s =>
  match c s with
  | (Ok a, s1, t1) => match k a s1 with (r, s2, t2) => (r, s2, t1 ++ t2) end
  | (Raise e, s1, t1) => (Raise e, s1, t1)
  end.

Notation "'let!' x ':=' c 'in' k" := (bind c (fun x => k))
  (at level 10, x name, c at level 100, k at level 200).
Notation "'do!' c 'in' k" := (bind c (fun _ => k))
  (at level 10, c at level 100, k at level 200).

Definition lift {A} (r : outcome A) : M A := fun s => (r, s, []).
Definition gets {A} (f : state -> A) : M A := fun s => (Ok (f s), s, []).
Definition modify (f : state -> state) : M unit := fun s => (Ok tt, f s, []).
Definition emit (e : event) : M unit := fun s => (Ok tt, s, [e]).

(** [with lock: body] releases the lock however the body ends. *)
Definition with_lock {A} (body : M A) : M A := fun s =>
  match body s with (r, s1, t) => (r, s1, Acquire :: t ++ [Release]) end.

Definition set_cache (d : dict obj) (s : state) : state :=
  State d (HITS s) (MISSES s) (heap s) (nonlocal_root s).
Definition set_heap (h : list link) (s : state) : state :=
  State (cache s) (HITS s) (MISSES s) h (nonlocal_root s).
Definition set_root (r : addr) (s : state) : state :=
  State (cache s) (HITS s) (MISSES s) (heap s) r.
Definition incr_HITS (s : state) : state :=
  State (cache s) (S (HITS s)) (MISSES s) (heap s) (nonlocal_root s).
Definition incr_MISSES (s : state) : state :=
  State (cache s) (HITS s) (S (MISSES s)) (heap s) (nonlocal_root s).

(** Reading and assigning the slots of the link at address [a]. *)
Definition rd {A} (f : link -> A) (a : addr) : M A :=
  gets (fun s => f (heap s !!! a)).

Definition upd_PREV (v : addr) (l : link) := Link v (NEXT l) (KEY l) (RESULT l).
Definition upd_NEXT (v : addr) (l : link) := Link (PREV l) v (KEY l) (RESULT l).
Definition upd_KEY (v : key) (l : link) := Link (PREV l) (NEXT l) v (RESULT l).
Definition upd_RESULT (v : value) (l : link) := Link (PREV l) (NEXT l) (KEY l) v.

Definition heap_wr (f : link -> link) (a : addr) (h : list link) : list link :=
  <[a := f (h !!! a)]> h.

Definition wr (f : link -> link) (a : addr) : M unit :=
  modify (fun s => set_heap (heap_wr f a (heap s)) s).

(** [[last, root, key, result]]: a new list object, at a fresh address. *)
Definition alloc (l : link) : M addr := fun s =>
  (Ok (length (heap s)), set_heap (heap s ++ [l]) s, []).

(** The operations on the captured dictionary. *)
Definition cache_get (k : key) : M (option obj) := fun s =>
  (dict_get k (cache s), s, []).

(** [key in cache] *)
Definition cache_contains (k : key) : M bool := fun s =>
  match dict_get k (cache s) with
  | Ok (Some _) => (Ok true, s, [])
  | Ok None => (Ok false, s, [])
  | Raise e => (Raise e, s, [])
  end.

(** [cache[key] = o] *)
Definition cache_setitem (k : key) (o : obj) : M unit := fun s =>
  match dict_set k o (cache s) with
  | Ok d => (Ok tt, set_cache d s, [])
  | Raise e => (Raise e, s, [])
  end.

(** [del cache[key]] *)
Definition cache_delitem (k : key) : M unit := fun s =>
  match dict_del k (cache s) with
  | Ok d => (Ok tt, set_cache d s, [])
  | Raise e => (Raise e, s, [])
  end.

Module CacheInfo.
Record t := Make { hits : nat; misses : nat; maxsize : option Z; currsize : nat }.
End CacheInfo.

(** ** The closures *)

Section decorating_function.

Variable maxsize : option Z.          (* [None] is Python's [None] *)
Variable typed : bool.
Variable user_function : list value -> kwargs -> outcome value.

(** The call of [user_function] on the arguments of the wrapper. *)
Definition call_user (args : list value) (kwds : kwargs) : M value :=
  do! emit (Call args kwds) in
  lift (user_function args kwds).

(** The wrapper built when [maxsize == 0]. *)
Definition wrapper_disabled (args : list value) (kwds : kwargs) : M obj :=
  let! result := call_user args kwds in
  do! modify incr_MISSES in
  ret (OVal result).

(** The wrapper built when [maxsize is None]; [root] is the not-found
    marker of the lookup, here the [None] of [option]. *)
Definition wrapper_unbounded (args : list value) (kwds : kwargs) : M obj :=
  let! key := lift (_make_key args kwds typed) in
  let! result := cache_get key in
  match result with
  | Some result =>
      do! modify incr_HITS in
      ret result
  | None =>
      let! result := call_user args kwds in
      do! cache_setitem key (OVal result) in
      do! modify incr_MISSES in
      ret (OVal result)
  end.

(** The bounded wrapper, block by block.  Its key is [args] itself
    unless keywords or [typed] call for [make_key]. *)
Definition wrapper_key (args : list value) (kwds : kwargs) : outcome key :=
  if is_nonempty kwds || typed
  then _make_key args kwds typed
  else Ok (KVal (VTuple args)).

(** "record recent use of the key by moving it to the front of the
    list": the body of [if link is not None]. *)
Definition move_to_front (link : addr) : M value :=
  let! root := gets nonlocal_root in
  let! link_prev := rd PREV link in
  let! link_next := rd NEXT link in
  let! result := rd RESULT link in
  do! wr (upd_NEXT link_next) link_prev in
  do! wr (upd_PREV link_prev) link_next in
  let! last := rd PREV root in
  do! wr (upd_NEXT link) last in
  do! wr (upd_PREV link) root in
  do! wr (upd_PREV last) link in
  do! wr (upd_NEXT root) link in
  do! modify incr_HITS in
  ret result.

(** "use the old root to store the new key and result": the branch
    [_len(cache) >= maxsize]. *)
Definition evict_and_reuse (root : addr) (key : key) (result : value) : M unit :=
  let oldroot := root in
  do! wr (upd_KEY key) oldroot in
  do! wr (upd_RESULT result) oldroot in
  let! root := rd NEXT oldroot in
  do! modify (set_root root) in
  let! oldkey := rd KEY root in
  do! wr (upd_KEY (KVal VNone)) root in
  do! wr (upd_RESULT VNone) root in
  do! cache_delitem oldkey in
  cache_setitem key (OLink oldroot).

(** "put result in a new link at the front of the list": the last
    branch. *)
Definition append_link (root : addr) (key : key) (result : value) : M unit :=
  let! last := rd PREV root in
  let! link := alloc (Link last root key result) in
  do! wr (upd_NEXT link) last in
  do! wr (upd_PREV link) root in
  cache_setitem key (OLink link).

(** The second [with lock] block, entered after the computation. *)
Definition commit (bound : Z) (key : key) (result : value) : M unit :=
  let! root := gets nonlocal_root in
  let! present := cache_contains key in
  do! (if present then ret tt
       else
         let! n := gets (fun s => length (cache s)) in
         if Z.of_nat n >=? bound
         then evict_and_reuse root key result
         else append_link root key result) in
  modify incr_MISSES.

(** The wrapper built otherwise; [bound] is the captured [maxsize]. *)
Definition wrapper_bounded (bound : Z) (args : list value) (kwds : kwargs)
  : M obj :=
  let! key := lift (wrapper_key args kwds) in
  let! returned := with_lock (
    let! link := cache_get key in
    match link with
    | Some (OLink link) =>
        let! result := move_to_front link in
        ret (Some result)
    | Some (OVal _) => raise TypeError   (* a result cannot be unpacked as a link *)
    | None => ret None
    end) in
  match returned with
  | Some result => ret (OVal result)
  | None =>
      let! result := call_user args kwds in
      do! with_lock (commit bound key result) in
      ret (OVal result)
  end.

(** The choice made once by [decorating_function]. *)
Definition wrapper : list value -> kwargs -> M obj :=
  match maxsize with
  | Some 0 => wrapper_disabled
  | None => wrapper_unbounded
  | Some bound => wrapper_bounded bound
  end.

Definition cache_info : M CacheInfo.t :=
  with_lock (
    gets (fun s => CacheInfo.Make (HITS s) (MISSES s) maxsize (length (cache s)))).

Definition cache_clear : M unit :=
  with_lock (
    do! modify (set_cache []) in
    let! root := gets nonlocal_root in
    do! wr (fun _ => Link root root (KVal VNone) VNone) root in
    modify (fun s => State (cache s) 0 0 (heap s) (nonlocal_root s))).

(** A session: calls made one after the other, with their outcomes. *)
Fixpoint run (calls : list (list value * kwargs)) (s : state)
  : list (outcome obj) * state :=
  match calls with
  | [] => ([], s)
  | (args, kwds) :: rest =>
      match wrapper args kwds s with
      | (r, s1, _) =>
          match run rest s1 with (rs, s2) => (r :: rs, s2) end
      end
  end.

End decorating_function.

(** The state [decorating_function] starts from: an empty dictionary,
    zeroed statistics and a root link pointing to itself. *)
Definition initial_state : state :=
  State [] 0 0 [Link 0%nat 0%nat (KVal VNone) VNone] 0%nat.

(** [lru_cache(maxsize, typed)(user_function)] performs no check of its
    arguments and always yields a cache in its initial state. *)
Definition lru_cache (maxsize : option Z) (typed : bool) : outcome state :=
  Ok initial_state.

(** State after running a monadic operation, and its result. *)
Definition exec {A} (c : M A) (s : state) : state := snd (fst (c s)).
Definition result_of {A} (c : M A) (s : state) : outcome A := fst (fst (c s)).
Definition trace_of {A} (c : M A) (s : state) : list event := snd (c s).

(** ** Structural induction on values *)

Section value_induction.
Variable P : value -> Prop.
Hypothesis HNone : P VNone.
Hypothesis HBool : forall b, P (VBool b).
Hypothesis HInt : forall z, P (VInt z).
Hypothesis HFloat : forall q, P (VFloat q).
Hypothesis HStr : forall s, P (VStr s).
Hypothesis HTuple : forall l, Forall P l -> P (VTuple l).
Hypothesis HList : forall l, Forall P l -> P (VList l).
Hypothesis HObject : forall id, P (VObject id).
Hypothesis HType : forall t, P (VType t).
Hypothesis HNaN : forall id, P (VNaN id).

Fixpoint value_ind (v : value) : P v :=
  let fix all (l : list value) : Forall P l :=
    match l with
    | [] => List.Forall_nil P
    | x :: l' => List.Forall_cons P x l' (value_ind x) (all l')
    end in
  match v with
  | VNone => HNone
  | VBool b => HBool b
  | VInt z => HInt z
  | VFloat q => HFloat q
  | VStr s => HStr s
  | VTuple l => HTuple l (all l)
  | VList l => HList l (all l)
  | VObject id => HObject id
  | VType t => HType t
  | VNaN id => HNaN id
  end.
End value_induction.

(** The state a miss leaves behind: the statistics are updated only when
    the block before them did not raise. *)
Definition after_miss {A} (r : outcome A) (s : state) : state :=
  match r with Ok _ => incr_MISSES s | Raise _ => s end.

(** The number of calls of a session that returned. *)
Fixpoint completed (rs : list (outcome obj)) : nat :=
  match rs with
  | [] => 0
  | r :: rs' => (if is_Ok r then 1 else 0) + completed rs'
  end.

(** Whether every argument of a call, positional or keyword, can be
    hashed. *)
Definition all_hashable (l : list value) : bool :=
  forallb (fun v => is_Ok (py_hash v)) l.

Definition hashable_args (args : list value) (kwds : kwargs) : bool :=
  all_hashable (args ++ map snd kwds).

(** The items of a keyword dictionary laid out flat, as [key += item]
    leaves them. *)
Definition flat_items (items : kwargs) : list value :=
  flat_map (fun item => [VStr (fst item); snd item]) items.

(** ** Vocabulary for comparing two calls *)

(** The sequence [_make_key] composes before it picks the fast path or
    wraps: the arguments, then the mark and the sorted items. *)
Definition key_base (args : list value) (kwds : kwargs) : list value :=
  if is_nonempty kwds
  then (args ++ kwd_mark) ++ flat_items (sorted kwds)
  else args.

(** The types [typed] appends: those of the positional arguments, then
    those of the keyword values in sorted order. *)
Definition call_types (args : list value) (kwds : kwargs) : list pytype :=
  map type_of args ++ map (fun item => type_of (snd item)) (sorted kwds).

(** The test of the fast path: one positional argument of a fast type and
    no keyword. *)
Definition fast_path (args : list value) (kwds : kwargs) : bool :=
  match args, kwds with
  | [a], [] => fasttypes (type_of a)
  | _, _ => false
  end.

Definition item_eq (i j : string * value) : bool :=
  String.eqb (fst i) (fst j) && py_eq (snd i) (snd j).

(** Two calls whose arguments compare equal with [==]: position by
    position, and keyword by keyword. *)
Definition same_call (args1 : list value) (kwds1 : kwargs)
    (args2 : list value) (kwds2 : kwargs) : bool :=
  all2 py_eq args1 args2 && all2 item_eq (sorted kwds1) (sorted kwds2).

(** What a session shows from outside: the outcomes and the counters. *)
Definition summary (r : list (outcome obj) * state)
  : list (outcome obj) * nat * nat :=
  (fst r, HITS (snd r), MISSES (snd r)).

(** ** Reachable states and their references *)

(** The states a cache can be in: those obtained from the initial one by
    calls and clears ([cache_info] changes nothing). *)
Inductive reachable (maxsize : option Z) (typed : bool)
    (f : list value -> kwargs -> outcome value) : state -> Prop :=
| reach_init : reachable maxsize typed f initial_state
| reach_call s args kwds :
    reachable maxsize typed f s ->
    reachable maxsize typed f (exec (wrapper maxsize typed f args kwds) s)
| reach_clear s :
    reachable maxsize typed f s ->
    reachable maxsize typed f (exec cache_clear s).

(** Every reference held by the state designates an allocated link. *)
Definition link_ok (n : nat) (l : link) : Prop :=
  (PREV l < n)%nat /\ (NEXT l < n)%nat.

Definition obj_ok (n : nat) (o : obj) : Prop :=
  match o with OLink a => (a < n)%nat | OVal _ => True end.

Definition heap_ok (n : nat) (h : list link) : Prop :=
  length h = n /\ Forall (link_ok n) h.

Definition refs_ok (s : state) : Prop :=
  (nonlocal_root s < length (heap s))%nat /\
  heap_ok (length (heap s)) (heap s) /\
  Forall (fun e => obj_ok (length (heap s)) (snd e)) (cache s).

(** ** The recency list *)

(** The keys met when following [NEXT] from the link at [a], [n] links
    long. *)
Fixpoint walk (h : list link) (a : addr) (n : nat) : list key :=
  match n with
  | O => []
  | S n' => KEY (h !!! a) :: walk h (NEXT (h !!! a)) n'
  end.

(** The cached keys as the linked list orders them: the link after the
    root comes first (least recently used), the link before the root
    last (most recently used). *)
Definition recency (s : state) : list key :=
  walk (heap s) (NEXT (heap s !!! nonlocal_root s)) (length (cache s)).

(** [a] and [b] are neighbours: [a[NEXT] is b] and [b[PREV] is a]. *)
Definition linked (h : list link) (a b : addr) : Prop :=
  NEXT (h !!! a) = b /\ PREV (h !!! b) = a.

(** The links [a :: l] form a chain of neighbours. *)
Fixpoint path (h : list link) (a : addr) (l : list addr) : Prop :=
  match l with
  | [] => True
  | x :: l' => linked h a x /\ path h x l'
  end.

(** The last link of the chain [a :: l], and the links of it that have a
    successor in it. *)
Definition lastof (a : addr) (l : list addr) : addr := List.last l a.

Fixpoint sources (a : addr) (l : list addr) : list addr :=
  match l with
  | [] => []
  | x :: l' => a :: sources x l'
  end.

(** The circular list: a chain from the root through [order], closed by
    the link from its last element back to the root. *)
Definition ring (h : list link) (root : addr) (order : list addr) : Prop :=
  path h root order /\ linked h (lastof root order) root.

(** The entry the dictionary holds for the link at [a]. *)
Definition entry_of (h : list link) (a : addr) : key * obj :=
  (KEY (h !!! a), OLink a).

(** Stored keys are hashable and no two of them match. *)
Definition keys_wf (ks : list key) : Prop :=
  NoDup ks /\
  (forall k, k ∈ ks -> is_Ok (key_hash k) = true) /\
  (forall k k', k ∈ ks -> k' ∈ ks -> key_match k k' = true -> k = k').

(** The representation invariant of the bounded wrapper: [order] lists
    the addresses of the links after the root. *)
Record lru_inv (bound : Z) (s : state) (order : list addr) : Prop := {
  inv_valid : Forall (fun a => (a < length (heap s))%nat) (nonlocal_root s :: order);
  inv_nodup : NoDup (nonlocal_root s :: order);
  inv_ring : ring (heap s) (nonlocal_root s) order;
  inv_cache : cache s ≡ₚ map (entry_of (heap s)) order;
  inv_keys : keys_wf (map fst (cache s));
  inv_size : Z.of_nat (length (cache s)) <= bound
}.

(** ** Least recently used, as a specification *)

(** Whether some stored key matches the probe. *)
Definition touches (k : key) (ks : list key) : bool :=
  existsb (fun k' => key_match k' k) ks.

(** The stored key that matches the probe moves to the recent end. *)
Fixpoint touch (k : key) (ks : list key) : list key :=
  match ks with
  | [] => []
  | k' :: ks' => if key_match k' k then ks' ++ [k'] else k' :: touch k ks'
  end.

(** One access with key [k] on the recency list [ks] of a cache of
    capacity [bound]: a stored key that matches moves to the recent end;
    otherwise [k] joins at the recent end, after the least recent key has
    left if the cache is full. *)
Definition lru_step (bound : Z) (k : key) (ks : list key) : list key :=
  if touches k ks then touch k ks
  else if Z.of_nat (length ks) >=? bound then tl ks ++ [k]
  else ks ++ [k].

(** The recency list after one call of the bounded wrapper: nothing moves
    when no key can be built or hashed, or when the computation raises. *)
Definition recency_after (bound : Z) (typed : bool)
    (f : list value -> kwargs -> outcome value)
    (args : list value) (kwds : kwargs) (ks : list key) : list key :=
  match wrapper_key typed args kwds with
  | Ok k =>
      if is_Ok (key_hash k) then
        if touches k ks then lru_step bound k ks
        else match f args kwds with
             | Ok _ => lru_step bound k ks
             | Raise _ => ks
             end
      else ks
  | Raise _ => ks
  end.

(** The number of accesses since the last one that matched [k], in a
    history that lists the most recent access first. *)
Fixpoint age (k : key) (hist : list key) : option nat :=
  match hist with
  | [] => None
  | k' :: hist' =>
      if key_match k k' then Some O
      else match age k hist' with
           | Some n => Some (S n)
           | None => None
           end
  end.

(** [k] was accessed less recently than [k']. *)
Definition older (hist : list key) (k k' : key) : Prop :=
  exists a a', age k hist = Some a /\ age k' hist = Some a' /\ (a' < a)%nat.

(** The keys with which the calls of a session probe the dictionary, most
    recent first: a call whose key cannot be built or hashed probes
    nothing. *)
Fixpoint history (typed : bool) (calls : list (list value * kwargs))
    (hist : list key) : list key :=
  match calls with
  | [] => hist
  | (args, kwds) :: rest =>
      match wrapper_key typed args kwds with
      | Ok k => if is_Ok (key_hash k)
                then history typed rest (k :: hist)
                else history typed rest hist
      | Raise _ => history typed rest hist
      end
  end.

(** ** The heap each block of the bounded wrapper leaves *)

(** After [move_to_front a]. *)
Definition relink (a root : addr) (h : list link) : list link :=
  let link_prev := PREV (h !!! a) in
  let link_next := NEXT (h !!! a) in
  let h2 := heap_wr (upd_PREV link_prev) link_next
              (heap_wr (upd_NEXT link_next) link_prev h) in
  let last := PREV (h2 !!! root) in
  heap_wr (upd_NEXT root) a
    (heap_wr (upd_PREV last) a
       (heap_wr (upd_PREV a) root
          (heap_wr (upd_NEXT a) last h2))).

(** After [append_link root key result]. *)
Definition append_heap (root : addr) (k : key) (v : value) (h : list link)
  : list link :=
  let last := PREV (h !!! root) in
  heap_wr (upd_PREV (length h)) root
    (heap_wr (upd_NEXT (length h)) last (h ++ [Link last root k v])).

(** After [evict_and_reuse root key result], and the key it takes out of
    the dictionary. *)
Definition evict_heap (root : addr) (k : key) (v : value) (h : list link)
  : list link :=
  let h2 := heap_wr (upd_RESULT v) root (heap_wr (upd_KEY k) root h) in
  let root' := NEXT (h2 !!! root) in
  heap_wr (upd_RESULT VNone) root' (heap_wr (upd_KEY (KVal VNone)) root' h2).

Definition evict_oldkey (root : addr) (k : key) (v : value) (h : list link) : key :=
  let h2 := heap_wr (upd_RESULT v) root (heap_wr (upd_KEY k) root h) in
  KEY (h2 !!! NEXT (h2 !!! root)).

(** A recency list agrees with a history when its keys come in the order
    of their last access, oldest first. *)
Definition aged (hist : list key) (ks : list key) : Prop :=
  StronglySorted (older hist) ks /\
  Forall (fun k => is_Some (age k hist)) ks.

(** Calls listed with their keys, each call having a key and a
    computation that returns. *)
Definition keyed_calls (typed : bool) (f : list value -> kwargs -> outcome value)
    (calls : list (list value * kwargs)) (ks : list key) : Prop :=
  Forall2 (fun c k => wrapper_key typed (fst c) (snd c) = Ok k /\
                      is_Ok (f (fst c) (snd c)) = true) calls ks.

(** The last [n] elements of a list. *)
Definition lastn {A} (n : nat) (l : list A) : list A := drop (length l - n) l.

(** A test for [keys_wf]: every key hashes and matches none that
    follows it. *)
Fixpoint keys_wfb (ks : list key) : bool :=
  match ks with
  | [] => true
  | k :: rest =>
      is_Ok (key_hash k)
      && forallb (fun k' => negb (key_match k k')) rest
      && keys_wfb rest
  end.

(** ** The cache as a dictionary of results *)

(** The result an entry of the dictionary stands for: the entry itself
    in the unbounded wrapper, the [RESULT] field of the link in the
    bounded one. *)
Definition result_at (h : list link) (o : obj) : value :=
  match o with
  | OVal v => v
  | OLink a => RESULT (h !!! a)
  end.

Definition contents_of (h : list link) (d : dict obj) : dict value :=
  map (fun e => (fst e, result_at h (snd e))) d.

(** The cache read as a dictionary from keys to results. *)
Definition contents (s : state) : dict value := contents_of (heap s) (cache s).

(** The key a caching wrapper looks up: [make_key(args, kwds, typed)] in
    the unbounded wrapper, the key of [wrapper_key] in the bounded one. *)
Definition cache_key (maxsize : option Z) (typed : bool)
    (args : list value) (kwds : kwargs) : outcome key :=
  match maxsize with
  | None => _make_key args kwds typed
  | Some _ => wrapper_key typed args kwds
  end.

(** The modes that store results: no bound, or a bound of at least one. *)
Definition caching (maxsize : option Z) : Prop :=
  forall n, maxsize = Some n -> 1 <= n.

(** What holds of the state in a caching mode: without a bound the
    dictionary holds results, with one it holds the links of the list. *)
Definition cache_inv (maxsize : option Z) (s : state) : Prop :=
  match maxsize with
  | None => forall k o, (k, o) ∈ cache s -> exists v, o = OVal v
  | Some bound => exists order, lru_inv bound s order
  end.

(** The calls of the computation a trace records. *)
Definition invocations (t : list event) : list (list value * kwargs) :=
  flat_map (fun e => match e with Call args kwds => [(args, kwds)] | _ => [] end) t.

(** The test [_len(cache) >= maxsize] of the bounded wrapper; a cache
    without bound is never full. *)
Definition full (maxsize : option Z) (s : state) : bool :=
  match maxsize with
  | None => false
  | Some bound => Z.of_nat (length (cache s)) >=? bound
  end.

(** The sequence [_make_key] hands to [_HashedSeq] when it does not take
    the fast path. *)
Definition key_layout (args : list value) (kwds : kwargs) (typed : bool)
  : list value :=
  key_base args kwds ++ (if typed then map VType (call_types args kwds) else []).

(** Whether a trace respects the lock: it is acquired only when free,
    released only when held, free at the end, and the computation is
    never called while it is held. *)
Fixpoint locks_ok (held : bool) (t : list event) : bool :=
  match t with
  | [] => negb held
  | Acquire :: t' => negb held && locks_ok true t'
  | Release :: t' => held && locks_ok false t'
  | Call _ _ :: t' => negb held && locks_ok false t'
  end.

(** What the calls of a cache depend on: the results it holds, the order
    in which it would give them up, and the counters. *)
Definition view (s : state) : dict value * list key * nat * nat :=
  (contents s, recency s, HITS s, MISSES s).

(** Two calls whose arguments are pairwise identical or equal: what
    [same_call] is for [==]. *)
Definition item_same (i j : string * value) : bool :=
  String.eqb (fst i) (fst j) && py_same (snd i) (snd j).

Definition alike_call (args1 : list value) (kwds1 : kwargs)
    (args2 : list value) (kwds2 : kwargs) : bool :=
  all2 py_same args1 args2 && all2 item_same (sorted kwds1) (sorted kwds2).

(** * Properties *)

#[local] Set Warnings "-clear-no-such-hyp".

(** ** Equality and hashing of values *)


Lemma Qeq_bool_refl (q : Q) : Qeq_bool q q = true.
Proof. apply Qeq_bool_iff. reflexivity. Qed.

Lemma Qeq_bool_sym (p q : Q) : Qeq_bool p q = Qeq_bool q p.
Proof. unfold Qeq_bool. apply Z.eqb_sym. Qed.

Lemma Qeq_bool_trans (p q r : Q) :
  Qeq_bool p q = true -> Qeq_bool q r = true -> Qeq_bool p r = true.
Proof.
  rewrite !Qeq_bool_iff. intros H1 H2. rewrite H1. exact H2.
Qed.

Lemma pytype_eqb_eq (s t : pytype) : pytype_eqb s t = true <-> s = t.
Proof. destruct s, t; simpl; split; congruence. Qed.

Lemma all2_refl {A} (f : A -> A -> bool) (l : list A) :
  Forall (fun x => f x x = true) l -> all2 f l l = true.
Proof. induction 1; simpl; [reflexivity|]. rewrite H, IHForall. reflexivity. Qed.

Lemma all2_sym {A} (f : A -> A -> bool) (l : list A) :
  Forall (fun x => forall y, f x y = f y x) l ->
  forall m, all2 f l m = all2 f m l.
Proof.
  induction 1 as [|x l Hx _ IH]; intros [|y m]; simpl; try reflexivity.
  rewrite Hx, IH. reflexivity.
Qed.

Lemma all2_trans {A} (f : A -> A -> bool) (l : list A) :
  Forall (fun x => forall y z, f x y = true -> f y z = true -> f x z = true) l ->
  forall m n, all2 f l m = true -> all2 f m n = true -> all2 f l n = true.
Proof.
  induction 1 as [|x l Hx _ IH]; intros [|y m] [|z n]; simpl; try congruence.
  rewrite !andb_true_iff. intros [H1 H2] [H3 H4]. split; eauto.
Qed.

Lemma all2_length {A} (f : A -> A -> bool) (l m : list A) :
  all2 f l m = true -> length l = length m.
Proof.
  revert m. induction l as [|x l IH]; intros [|y m]; simpl; try congruence.
  rewrite andb_true_iff. intros [_ H]. f_equal. auto.
Qed.

Lemma all2_app {A} (f : A -> A -> bool) (l1 m1 l2 m2 : list A) :
  length l1 = length m1 ->
  all2 f (l1 ++ l2) (m1 ++ m2) = all2 f l1 m1 && all2 f l2 m2.
Proof.
  revert m1. induction l1 as [|x l1 IH]; intros [|y m1]; simpl; try discriminate.
  - reflexivity.
  - intros H. rewrite IH by congruence. apply andb_assoc.
Qed.

(** Identity, as far as it is modelled, is that of NaN objects. *)
Lemma py_is_true (a b : value) :
  py_is a b = true -> exists i, a = VNaN i /\ b = VNaN i.
Proof.
  destruct a, b; simpl; try discriminate.
  rewrite Nat.eqb_eq. intros ->. eauto.
Qed.

Lemma py_is_sym (a b : value) : py_is a b = py_is b a.
Proof. destruct a, b; simpl; auto using Nat.eqb_sym. Qed.

Lemma py_eq_NaN_l (i : nat) (b : value) : py_eq (VNaN i) b = false.
Proof. reflexivity. Qed.

Lemma py_eq_NaN_r (a : value) (i : nat) : py_eq a (VNaN i) = false.
Proof. destruct a; reflexivity. Qed.

Lemma py_eq_tuple (l m : list value) : py_eq (VTuple l) (VTuple m) = all2 py_same l m.
Proof. reflexivity. Qed.

Lemma py_eq_list (l m : list value) : py_eq (VList l) (VList m) = all2 py_same l m.
Proof. reflexivity. Qed.

Lemma py_eq_same (a b : value) : py_eq a b = true -> py_same a b = true.
Proof. unfold py_same. intros ->. apply orb_true_r. Qed.

(** For a value that equals itself, "identical or equal" is "equal". *)
Lemma py_same_eq (a b : value) :
  py_eq a a = true -> py_same a b = true -> py_eq a b = true.
Proof.
  unfold py_same. intros Ha H. apply orb_true_iff in H as [H|H]; [|exact H].
  apply py_is_true in H as (i & -> & _). discriminate.
Qed.

(** Every value is identical or equal to itself. *)
Lemma py_same_refl (a : value) : py_same a a = true.
Proof.
  induction a using value_ind; unfold py_same; simpl;
    auto using Qeq_bool_refl, String.eqb_refl, Nat.eqb_refl, all2_refl.
  - destruct t; reflexivity.
  - rewrite Nat.eqb_refl. reflexivity.
Qed.

Lemma py_eq_sym (a b : value) : py_eq a b = py_eq b a.
Proof.
  revert b.
  assert (Hall : forall l,
    Forall (fun x => forall b, py_eq x b = py_eq b x) l ->
    forall m, all2 py_same l m = all2 py_same m l).
  { intros l H. apply all2_sym. eapply Forall_impl; [exact H|].
    intros x Hx y. unfold py_same. rewrite Hx, py_is_sym. reflexivity. }
  induction a using value_ind; intros [];
    rewrite ?py_eq_tuple, ?py_eq_list; try (apply Hall; assumption);
    simpl; auto using Qeq_bool_sym, String.eqb_sym, Nat.eqb_sym.
  destruct t, t0; reflexivity.
Qed.

Lemma py_same_sym (a b : value) : py_same a b = py_same b a.
Proof. unfold py_same. rewrite py_is_sym, py_eq_sym. reflexivity. Qed.

Lemma py_same_trans_of (a : value) :
  (forall b c, py_eq a b = true -> py_eq b c = true -> py_eq a c = true) ->
  forall b c, py_same a b = true -> py_same b c = true -> py_same a c = true.
Proof.
  intros Ha b c. unfold py_same. rewrite !orb_true_iff. intros [H1|H1] [H2|H2].
  - apply py_is_true in H1 as (i & -> & ->). auto.
  - apply py_is_true in H1 as (i & -> & ->). discriminate.
  - apply py_is_true in H2 as (i & -> & ->). rewrite py_eq_NaN_r in H1. discriminate.
  - right. eapply Ha; eassumption.
Qed.

Lemma py_eq_trans (a b c : value) :
  py_eq a b = true -> py_eq b c = true -> py_eq a c = true.
Proof.
  revert b c.
  assert (Hall : forall l,
    Forall (fun x => forall b c, py_eq x b = true -> py_eq b c = true ->
                                 py_eq x c = true) l ->
    forall m n, all2 py_same l m = true -> all2 py_same m n = true ->
                all2 py_same l n = true).
  { intros l H. apply all2_trans. eapply Forall_impl; [exact H|].
    intros x Hx. apply py_same_trans_of, Hx. }
  induction a using value_ind; intros [] [];
    rewrite ?py_eq_tuple, ?py_eq_list; try (apply Hall; assumption);
    simpl; try congruence; eauto using Qeq_bool_trans.
  - rewrite !String.eqb_eq. congruence.
  - rewrite !Nat.eqb_eq. congruence.
  - rewrite !pytype_eqb_eq. congruence.
Qed.

Lemma py_same_trans (a b c : value) :
  py_same a b = true -> py_same b c = true -> py_same a c = true.
Proof. apply py_same_trans_of. intros; eapply py_eq_trans; eauto. Qed.

Lemma num_hash_compat (p q : Q) : Qeq_bool p q = true -> num_hash p = num_hash q.
Proof.
  intros H. apply Qeq_bool_iff, Qred_complete in H.
  unfold num_hash. rewrite H. reflexivity.
Qed.

Lemma hash_all_compat (l : list value) :
  Forall (fun a => forall b, py_same a b = true -> py_hash a = py_hash b) l ->
  forall m, all2 py_same l m = true -> hash_all py_hash l = hash_all py_hash m.
Proof.
  induction 1 as [|x l Hx _ IH]; intros [|y m]; simpl; try congruence.
  rewrite andb_true_iff. intros [H1 H2].
  rewrite (Hx y H1), (IH m H2). reflexivity.
Qed.

Lemma py_same_hash_of (a : value) :
  (forall b, py_eq a b = true -> py_hash a = py_hash b) ->
  forall b, py_same a b = true -> py_hash a = py_hash b.
Proof.
  intros Ha b. unfold py_same. rewrite orb_true_iff. intros [H|H]; [|auto].
  apply py_is_true in H as (i & -> & ->). reflexivity.
Qed.

(** Equal values hash equally (and are hashable together). *)
Lemma py_eq_hash (a b : value) : py_eq a b = true -> py_hash a = py_hash b.
Proof.
  revert b.
  assert (Hall : forall l,
    Forall (fun x => forall b, py_eq x b = true -> py_hash x = py_hash b) l ->
    forall m, all2 py_same l m = true -> hash_all py_hash l = hash_all py_hash m).
  { intros l H. apply hash_all_compat. eapply Forall_impl; [exact H|].
    intros x Hx. apply py_same_hash_of, Hx. }
  induction a using value_ind; intros [];
    rewrite ?py_eq_tuple, ?py_eq_list; simpl; try congruence;
    try (intros E; f_equal; apply num_hash_compat; exact E).
  - rewrite String.eqb_eq. congruence.
  - intros E. rewrite (Hall l H l0 E). reflexivity.
  - rewrite Nat.eqb_eq. congruence.
  - rewrite pytype_eqb_eq. congruence.
Qed.

(** So do values one of which is found by looking for the other. *)
Lemma py_same_hash (a b : value) : py_same a b = true -> py_hash a = py_hash b.
Proof. apply py_same_hash_of. intros b'. apply py_eq_hash. Qed.

(** ** Matching of keys *)

Lemma all2_py_same_refl (l : list value) : all2 py_same l l = true.
Proof. apply all2_refl, Forall_forall. intros; apply py_same_refl. Qed.

Lemma all2_py_eq_same (l m : list value) :
  all2 py_eq l m = true -> all2 py_same l m = true.
Proof.
  revert m. induction l as [|x l IH]; intros [|y m]; simpl; try congruence.
  rewrite !andb_true_iff. intros [H1 H2]. auto using py_eq_same.
Qed.

Lemma key_eq_refl (k : key) : key_eq k k = true.
Proof.
  destruct k as [v|l h]; simpl.
  - apply py_same_refl.
  - apply all2_py_same_refl.
Qed.

Lemma all2_py_eq_sym (l m : list value) : all2 py_same l m = all2 py_same m l.
Proof. apply all2_sym, Forall_forall. intros; apply py_same_sym. Qed.

Lemma all2_py_eq_trans (l m n : list value) :
  all2 py_same l m = true -> all2 py_same m n = true -> all2 py_same l n = true.
Proof. apply all2_trans, Forall_forall. intros; eapply py_same_trans; eauto. Qed.

Lemma key_eq_sym (k1 k2 : key) : key_eq k1 k2 = key_eq k2 k1.
Proof.
  destruct k1 as [v1|l1 h1], k2 as [v2|l2 h2]; simpl.
  - apply py_same_sym.
  - destruct v1; auto using all2_py_eq_sym.
  - destruct v2; auto using all2_py_eq_sym.
  - apply all2_py_eq_sym.
Qed.

Lemma key_match_sym (k1 k2 : key) : key_match k1 k2 = key_match k2 k1.
Proof.
  unfold key_match. destruct (key_hash k1), (key_hash k2); try reflexivity.
  rewrite Z.eqb_sym, key_eq_sym. reflexivity.
Qed.

Lemma key_match_refl (k : key) : is_Ok (key_hash k) = true -> key_match k k = true.
Proof.
  unfold key_match. destruct (key_hash k); simpl; [|discriminate].
  intros _. rewrite Z.eqb_refl, key_eq_refl. reflexivity.
Qed.

Lemma key_match_hashable (k1 k2 : key) :
  key_match k1 k2 = true ->
  is_Ok (key_hash k1) = true /\ is_Ok (key_hash k2) = true.
Proof.
  unfold key_match. destruct (key_hash k1), (key_hash k2); simpl; auto; discriminate.
Qed.

Lemma key_match_trans (k1 k2 k3 : key) :
  key_match k1 k2 = true -> key_match k2 k3 = true -> key_match k1 k3 = true.
Proof.
  unfold key_match.
  destruct (key_hash k1) as [h1|] eqn:E1; [|discriminate].
  destruct (key_hash k2) as [h2|] eqn:E2; [|discriminate].
  destruct (key_hash k3) as [h3|] eqn:E3; [|discriminate].
  rewrite !andb_true_iff, !Z.eqb_eq. intros [-> H12] [-> H23]. split; [reflexivity|].
  destruct k1 as [v1|l1 g1], k2 as [v2|l2 g2], k3 as [v3|l3 g3]; simpl in *;
    [eapply py_same_trans; eauto | ..];
    repeat match goal with
           | v : value |- _ => destruct v; simpl in *; try discriminate
           end;
    eauto using all2_py_eq_trans.
Qed.

(** ** The wrappers, case by case *)

Ltac unfold_M :=
  unfold call_user, with_lock, cache_get, cache_contains, cache_setitem,
    cache_delitem, rd, wr, alloc, bind, ret, raise, lift, gets, modify, emit.

Lemma wrapper_disabled_eq f args kwds s :
  wrapper_disabled f args kwds s =
  match f args kwds with
  | Ok v => (Ok (OVal v), incr_MISSES s, [Call args kwds])
  | Raise e => (Raise e, s, [Call args kwds])
  end.
Proof. unfold wrapper_disabled. unfold_M. destruct (f args kwds); reflexivity. Qed.

Lemma _HashedSeq_hashable tup k : _HashedSeq tup = Ok k -> is_Ok (key_hash k) = true.
Proof.
  unfold _HashedSeq. destruct (py_hash (VTuple tup)); intros [= <-]; reflexivity.
Qed.

Lemma _make_key_hashable args kwds typed k :
  _make_key args kwds typed = Ok k -> is_Ok (key_hash k) = true.
Proof.
  unfold _make_key. destruct typed; [apply _HashedSeq_hashable|].
  match goal with |- match ?l with _ => _ end = _ -> _ => destruct l as [|k0 [|]] end;
    try apply _HashedSeq_hashable.
  destruct (fasttypes (type_of k0)) eqn:E; [|apply _HashedSeq_hashable].
  intros [= <-]. destruct k0; try discriminate; reflexivity.
Qed.

Lemma dict_get_hashable {V} k (d : dict V) :
  is_Ok (key_hash k) = true -> dict_get k d = Ok (dict_find k d).
Proof. unfold dict_get. destruct (key_hash k); [reflexivity|discriminate]. Qed.

Lemma dict_set_hashable {V} k v (d : dict V) :
  is_Ok (key_hash k) = true -> dict_set k v d = Ok (dict_store k v d).
Proof. unfold dict_set. destruct (key_hash k); [reflexivity|discriminate]. Qed.

Lemma wrapper_unbounded_eq typed f args kwds s :
  wrapper_unbounded typed f args kwds s =
  match _make_key args kwds typed with
  | Raise e => (Raise e, s, [])
  | Ok k =>
      match dict_find k (cache s) with
      | Some o => (Ok o, incr_HITS s, [])
      | None =>
          match f args kwds with
          | Raise e => (Raise e, s, [Call args kwds])
          | Ok v => (Ok (OVal v),
                     incr_MISSES (set_cache (dict_store k (OVal v) (cache s)) s),
                     [Call args kwds])
          end
      end
  end.
Proof.
  unfold wrapper_unbounded. unfold_M.
  destruct (_make_key args kwds typed) as [k|e] eqn:Ek; [|reflexivity].
  apply _make_key_hashable in Ek.
  rewrite (dict_get_hashable _ _ Ek).
  destruct (dict_find k (cache s)); [reflexivity|].
  destruct (f args kwds); [|reflexivity].
  simpl. rewrite (dict_set_hashable _ _ _ Ek). reflexivity.
Qed.

Lemma move_to_front_eq a s :
  move_to_front a s = (Ok (RESULT (heap s !!! a)), exec (move_to_front a) s, []).
Proof. reflexivity. Qed.


Lemma evict_and_reuse_trace root k v s : trace_of (evict_and_reuse root k v) s = [].
Proof.
  unfold trace_of, evict_and_reuse. unfold_M. simpl.
  destruct (dict_del _ _); simpl; [|reflexivity].
  destruct (dict_set _ _ _); reflexivity.
Qed.

Lemma append_link_trace root k v s : trace_of (append_link root k v) s = [].
Proof.
  unfold trace_of, append_link. unfold_M. simpl.
  destruct (dict_set _ _ _); reflexivity.
Qed.

Lemma M_eta {A} (c : M A) s : c s = (result_of c s, exec c s, trace_of c s).
Proof. unfold result_of, exec, trace_of. destruct (c s) as [[? ?] ?]; reflexivity. Qed.

Lemma commit_eq bound k v s :
  is_Ok (key_hash k) = true ->
  commit bound k v s =
  match dict_find k (cache s) with
  | Some _ => (Ok tt, incr_MISSES s, [])
  | None =>
      let body := if Z.of_nat (length (cache s)) >=? bound
                  then evict_and_reuse (nonlocal_root s) k v
                  else append_link (nonlocal_root s) k v in
      (result_of body s, after_miss (result_of body s) (exec body s), [])
  end.
Proof.
  intros Hk. unfold commit.
  unfold bind at 1. unfold gets at 1.
  unfold bind at 1. unfold cache_contains at 1.
  rewrite (dict_get_hashable _ _ Hk).
  destruct (dict_find k (cache s)); [reflexivity|].
  unfold bind at 1. unfold bind at 1. unfold gets at 1.
  set (body := if _ >=? _ then _ else _).
  assert (Ht : trace_of body s = []).
  { subst body. destruct (_ >=? _); auto using evict_and_reuse_trace, append_link_trace. }
  cbv zeta. rewrite (M_eta body s), Ht.
  destruct (result_of body s) as [[]|]; reflexivity.
Qed.

Lemma wrapper_bounded_eq typed f bound args kwds s :
  wrapper_bounded typed f bound args kwds s =
  match wrapper_key typed args kwds with
  | Raise e => (Raise e, s, [])
  | Ok k =>
      match dict_get k (cache s) with
      | Raise e => (Raise e, s, [Acquire; Release])
      | Ok (Some (OVal _)) => (Raise TypeError, s, [Acquire; Release])
      | Ok (Some (OLink a)) =>
          (Ok (OVal (RESULT (heap s !!! a))), exec (move_to_front a) s,
           [Acquire; Release])
      | Ok None =>
          match f args kwds with
          | Raise e => (Raise e, s, [Acquire; Release; Call args kwds])
          | Ok v =>
              (match result_of (commit bound k v) s with
               | Ok _ => Ok (OVal v)
               | Raise e => Raise e
               end,
               exec (commit bound k v) s,
               [Acquire; Release; Call args kwds; Acquire; Release])
          end
      end
  end.
Proof.
  unfold wrapper_bounded.
  destruct (wrapper_key typed args kwds) as [k|e] eqn:Ek; [|unfold_M; reflexivity].
  unfold bind at 1. unfold lift at 1.
  unfold bind at 1. unfold with_lock at 1. unfold bind at 1. unfold cache_get at 1.
  destruct (dict_get k (cache s)) as [[[v|a]|]|e] eqn:Eg.
  - reflexivity.
  - reflexivity.
  - unfold ret at 1. unfold bind at 1. unfold call_user, bind at 1, emit, lift.
    destruct (f args kwds) as [v|e]; [|reflexivity].
    unfold bind at 1, with_lock.
    assert (Hk : is_Ok (key_hash k) = true).
    { unfold dict_get in Eg. destruct (key_hash k); [reflexivity|discriminate]. }
    rewrite (M_eta (commit bound k v) s).
    assert (Ht : trace_of (commit bound k v) s = []).
    { unfold trace_of. rewrite (commit_eq _ _ _ _ Hk). destruct (dict_find k (cache s)); reflexivity. }
    rewrite Ht. destruct (result_of (commit bound k v) s); reflexivity.
  - reflexivity.
Qed.

(** ** Outcome of one call on the statistics *)

Lemma dict_get_Ok_hashable {V} k (d : dict V) r :
  dict_get k d = Ok r -> is_Ok (key_hash k) = true /\ r = dict_find k d.
Proof. unfold dict_get. destruct (key_hash k); [intros [= <-]; auto|discriminate]. Qed.

Lemma move_to_front_stats a s :
  HITS (exec (move_to_front a) s) = S (HITS s) /\
  MISSES (exec (move_to_front a) s) = MISSES s /\
  cache (exec (move_to_front a) s) = cache s /\
  nonlocal_root (exec (move_to_front a) s) = nonlocal_root s.
Proof. repeat split. Qed.

Lemma evict_and_reuse_stats root k v s :
  HITS (exec (evict_and_reuse root k v) s) = HITS s /\
  MISSES (exec (evict_and_reuse root k v) s) = MISSES s.
Proof.
  unfold exec, evict_and_reuse. unfold_M. simpl.
  destruct (dict_del _ _); simpl; [|auto].
  destruct (dict_set _ _ _); simpl; auto.
Qed.

Lemma append_link_stats root k v s :
  HITS (exec (append_link root k v) s) = HITS s /\
  MISSES (exec (append_link root k v) s) = MISSES s.
Proof.
  unfold exec, append_link. unfold_M. simpl.
  destruct (dict_set _ _ _); simpl; auto.
Qed.

Lemma commit_stats bound k v s :
  is_Ok (key_hash k) = true ->
  HITS (exec (commit bound k v) s) = HITS s /\
  MISSES (exec (commit bound k v) s) =
    (if is_Ok (result_of (commit bound k v) s) then S (MISSES s) else MISSES s).
Proof.
  intros Hk. unfold exec, result_of. rewrite (commit_eq _ _ _ _ Hk).
  destruct (dict_find k (cache s)); [simpl; auto|].
  cbv zeta. simpl fst. simpl snd.
  set (body := if _ >=? _ then _ else _).
  assert (HITS (exec body s) = HITS s /\ MISSES (exec body s) = MISSES s) as [H1 H2].
  { subst body. destruct (_ >=? _); auto using evict_and_reuse_stats, append_link_stats. }
  destruct (result_of body s); simpl; auto.
Qed.

(** A call that returns counts once, as a hit or as a miss; a call that
    raises counts nothing. *)
Lemma wrapper_stats maxsize typed f args kwds s :
  let r := result_of (wrapper maxsize typed f args kwds) s in
  let s' := exec (wrapper maxsize typed f args kwds) s in
  (HITS s' + MISSES s' = HITS s + MISSES s + (if is_Ok r then 1 else 0))%nat /\
  (is_Ok r = false -> HITS s' = HITS s /\ MISSES s' = MISSES s).
Proof.
  unfold result_of, exec, wrapper.
  destruct maxsize as [[|p|p]|].
  - rewrite wrapper_disabled_eq. destruct (f args kwds); simpl; split; (lia || auto); discriminate.
  - rewrite wrapper_bounded_eq.
    destruct (wrapper_key typed args kwds) as [k|]; [|simpl; split; (lia || auto)].
    destruct (dict_get k (cache s)) as [[[|a]|]|] eqn:Eg; simpl; try (split; (lia || auto); discriminate).
    apply dict_get_Ok_hashable in Eg as [Hk _].
    destruct (f args kwds); [|simpl; split; (lia || auto)].
    simpl. destruct (commit_stats (Z.pos p) k a s Hk) as [-> ->].
    destruct (result_of (commit (Z.pos p) k a) s); simpl; split; (lia || auto); discriminate.
  - rewrite wrapper_bounded_eq.
    destruct (wrapper_key typed args kwds) as [k|]; [|simpl; split; (lia || auto)].
    destruct (dict_get k (cache s)) as [[[|a]|]|] eqn:Eg; simpl; try (split; (lia || auto); discriminate).
    apply dict_get_Ok_hashable in Eg as [Hk _].
    destruct (f args kwds); [|simpl; split; (lia || auto)].
    simpl. destruct (commit_stats (Z.neg p) k a s Hk) as [-> ->].
    destruct (result_of (commit (Z.neg p) k a) s); simpl; split; (lia || auto); discriminate.
  - rewrite wrapper_unbounded_eq.
    destruct (_make_key args kwds typed) as [k|]; [|simpl; split; (lia || auto)].
    destruct (dict_find k (cache s)); [simpl; split; (lia || auto); discriminate|].
    destruct (f args kwds); simpl; split; (lia || auto); discriminate.
Qed.

(** ** Sessions *)

Lemma run_cons maxsize typed f args kwds rest s :
  run maxsize typed f ((args, kwds) :: rest) s =
  (result_of (wrapper maxsize typed f args kwds) s ::
     fst (run maxsize typed f rest (exec (wrapper maxsize typed f args kwds) s)),
   snd (run maxsize typed f rest (exec (wrapper maxsize typed f args kwds) s))).
Proof.
  simpl. rewrite (M_eta (wrapper maxsize typed f args kwds) s).
  destruct (run maxsize typed f rest _); reflexivity.
Qed.

Lemma run_length maxsize typed f calls s :
  length (fst (run maxsize typed f calls s)) = length calls.
Proof.
  revert s. induction calls as [|[args kwds] rest IH]; intros s; [reflexivity|].
  rewrite run_cons. simpl. f_equal. apply IH.
Qed.

Lemma run_stats maxsize typed f calls s :
  let rs := fst (run maxsize typed f calls s) in
  let s' := snd (run maxsize typed f calls s) in
  (HITS s' + MISSES s' = HITS s + MISSES s + completed rs)%nat.
Proof.
  revert s. induction calls as [|[args kwds] rest IH]; intros s.
  - simpl. lia.
  - rewrite run_cons. cbv zeta. cbn [fst snd].
    specialize (IH (exec (wrapper maxsize typed f args kwds) s)). cbv zeta in IH.
    rewrite IH.
    destruct (wrapper_stats maxsize typed f args kwds s) as [H _].
    simpl completed. lia.
Qed.

Lemma completed_all (rs : list (outcome obj)) :
  Forall (fun r => is_Ok r = true) rs -> completed rs = length rs.
Proof.
  induction 1 as [|r rs Hr _ IH]; [reflexivity|].
  simpl. rewrite Hr, IH. reflexivity.
Qed.

Lemma run_disabled_hits typed f calls s :
  HITS (snd (run (Some 0) typed f calls s)) = HITS s /\
  cache (snd (run (Some 0) typed f calls s)) = cache s.
Proof.
  revert s. induction calls as [|[args kwds] rest IH]; intros s; [auto|].
  rewrite run_cons. cbn [snd].
  destruct (IH (exec (wrapper (Some 0) typed f args kwds) s)) as [-> ->].
  unfold exec, wrapper. rewrite wrapper_disabled_eq.
  destruct (f args kwds); auto.
Qed.

Lemma cache_clear_exec s :
  exec cache_clear s =
  State [] 0 0
    (heap_wr (fun _ => Link (nonlocal_root s) (nonlocal_root s) (KVal VNone) VNone)
             (nonlocal_root s) (heap s))
    (nonlocal_root s).
Proof. reflexivity. Qed.

Lemma cache_info_eq maxsize s :
  cache_info maxsize s =
  (Ok (CacheInfo.Make (HITS s) (MISSES s) maxsize (length (cache s))), s,
   [Acquire; Release]).
Proof. reflexivity. Qed.

(** ** The disabled wrapper *)

Lemma run_disabled_misses typed f calls s :
  MISSES (snd (run (Some 0) typed f calls s)) =
  Nat.add (MISSES s) (completed (fst (run (Some 0) typed f calls s))).
Proof.
  pose proof (run_stats (Some 0) typed f calls s) as H. cbv zeta in H.
  destruct (run_disabled_hits typed f calls s) as [Hh _]. lia.
Qed.

(** C6 as stated fails on a call whose computation raises: the statistics
    update is skipped and [misses] stays where it was. *)
Lemma C6_counterexample :
  let f : list value -> kwargs -> outcome value := fun _ _ => Raise (UserError 0) in
  wrapper (Some 0) false f [VInt 1] [] initial_state =
    (Raise (UserError 0), initial_state, [Call [VInt 1] []]) /\
  MISSES (exec (wrapper (Some 0) false f [VInt 1] []) initial_state) = 0%nat.
Proof. split; reflexivity. Qed.

(** C6, amended: with [maxsize == 0] every call invokes the wrapped
    computation and does nothing else, nothing is stored, [hits] stays 0,
    and [misses] counts the calls whose computation returned. *)
Theorem C6_disabled_mode
    (typed : bool) (f : list value -> kwargs -> outcome value) :
  (forall args kwds s,
      trace_of (wrapper (Some 0) typed f args kwds) s = [Call args kwds] /\
      match f args kwds with
      | Ok v =>
          result_of (wrapper (Some 0) typed f args kwds) s = Ok (OVal v) /\
          exec (wrapper (Some 0) typed f args kwds) s = incr_MISSES s
      | Raise e =>
          result_of (wrapper (Some 0) typed f args kwds) s = Raise e /\
          exec (wrapper (Some 0) typed f args kwds) s = s
      end) /\
  (forall calls,
      let rs := fst (run (Some 0) typed f calls initial_state) in
      let s' := snd (run (Some 0) typed f calls initial_state) in
      rs = map (fun c => match f (fst c) (snd c) with
                         | Ok v => Ok (OVal v)
                         | Raise e => Raise e
                         end) calls /\
      result_of (cache_info (Some 0)) s' =
        Ok (CacheInfo.Make 0 (completed rs) (Some 0) 0)).
Proof.
  split.
  - intros args kwds s. unfold trace_of, result_of, exec, wrapper.
    rewrite wrapper_disabled_eq. destruct (f args kwds); auto.
  - intros calls rs s'. split.
    + subst rs. generalize initial_state.
      induction calls as [|[args kwds] rest IH]; intros s; [reflexivity|].
      rewrite run_cons. cbn [fst map snd]. f_equal; [|apply IH].
      unfold result_of, wrapper. rewrite wrapper_disabled_eq.
      destruct (f args kwds); reflexivity.
    + unfold result_of. rewrite cache_info_eq. cbn [fst]. f_equal.
      subst s' rs.
      destruct (run_disabled_hits typed f calls initial_state) as [-> ->].
      rewrite run_disabled_misses. reflexivity.
Qed.

(** ** A computation that raises *)

(** C9: in every mode, when the wrapped computation is invoked and
    raises, the call raises the same exception and leaves the whole state
    (dictionary, links, root, both counters) as it was. *)
Theorem C9_raise_leaves_state_unchanged
    (maxsize : option Z) (typed : bool)
    (f : list value -> kwargs -> outcome value)
    (args : list value) (kwds : kwargs) (s : state) (e : exn) :
  f args kwds = Raise e ->
  In (Call args kwds) (trace_of (wrapper maxsize typed f args kwds) s) ->
  result_of (wrapper maxsize typed f args kwds) s = Raise e /\
  exec (wrapper maxsize typed f args kwds) s = s.
Proof.
  intros Hf. unfold trace_of, result_of, exec, wrapper.
  destruct maxsize as [[|p|p]|].
  - rewrite wrapper_disabled_eq, Hf. auto.
  - rewrite wrapper_bounded_eq, Hf.
    destruct (wrapper_key typed args kwds); [|simpl; tauto].
    destruct (dict_get _ _) as [[[]|]|]; simpl; intuition discriminate.
  - rewrite wrapper_bounded_eq, Hf.
    destruct (wrapper_key typed args kwds); [|simpl; tauto].
    destruct (dict_get _ _) as [[[]|]|]; simpl; intuition discriminate.
  - rewrite wrapper_unbounded_eq, Hf.
    destruct (_make_key args kwds typed); [|simpl; tauto].
    destruct (dict_find _ _); simpl; tauto.
Qed.

Lemma C9_witness :
  let f : list value -> kwargs -> outcome value :=
    fun args _ => match args with
                  | [VInt 0] => Raise (UserError 7)
                  | _ => Ok VNone
                  end in
  let s := snd (run (Some 2) false f [([VInt 1], []); ([VInt 2], [])] initial_state) in
  result_of (wrapper (Some 2) false f [VInt 0] []) s = Raise (UserError 7) /\
  exec (wrapper (Some 2) false f [VInt 0] []) s = s.
Proof.
  intros f s.
  apply (C9_raise_leaves_state_unchanged (Some 2) false f [VInt 0] [] s (UserError 7)).
  - reflexivity.
  - vm_compute. auto.
Defined.

(** ** Unhashable arguments *)

Lemma py_hash_raise (v : value) (e : exn) : py_hash v = Raise e -> e = TypeError.
Proof.
  revert e. induction v using value_ind; intros e; simpl; try congruence.
  destruct (hash_all py_hash l) as [|e0] eqn:E; [discriminate|]. intros [= <-].
  revert e0 E. induction H as [|x l Hx _ IH]; simpl; [discriminate|].
  intros e0. destruct (py_hash x) eqn:Ex.
  - destruct (hash_all py_hash l); [discriminate|]. intros [= <-]. eauto.
  - intros [= <-]. eauto.
Qed.

Lemma hash_all_Ok (l : list value) :
  is_Ok (hash_all py_hash l) = all_hashable l.
Proof.
  induction l as [|x l IH]; [reflexivity|]. simpl.
  destruct (py_hash x); [|reflexivity]. simpl. rewrite <- IH.
  destruct (hash_all py_hash l); reflexivity.
Qed.

Lemma _HashedSeq_cases (tup : list value) :
  if all_hashable tup
  then exists h, _HashedSeq tup = Ok (KHashedSeq tup h)
  else _HashedSeq tup = Raise TypeError.
Proof.
  unfold _HashedSeq. rewrite <- hash_all_Ok.
  destruct (py_hash (VTuple tup)) eqn:E; simpl in E;
    destruct (hash_all py_hash tup) eqn:E'; simpl; try discriminate; eauto.
  injection E as <-. f_equal. eapply (py_hash_raise (VTuple tup)). simpl. rewrite E'. reflexivity.
Qed.

Lemma all_hashable_app (l m : list value) :
  all_hashable (l ++ m) = all_hashable l && all_hashable m.
Proof. apply forallb_app. Qed.

Lemma all_hashable_insert_item (x : string * value) (l : kwargs) :
  all_hashable (flat_items (insert_item x l)) =
  is_Ok (py_hash (snd x)) && all_hashable (flat_items l).
Proof.
  induction l as [|y l IH]; simpl; [reflexivity|].
  destruct (String.leb (fst x) (fst y)); simpl; [reflexivity|].
  fold (flat_items (insert_item x l)). fold (flat_items l).
  unfold all_hashable in *. rewrite IH.
  destruct (is_Ok (py_hash (snd x))), (is_Ok (py_hash (snd y))); reflexivity.
Qed.

Lemma all_hashable_sorted (kwds : kwargs) :
  all_hashable (flat_items (sorted kwds)) = all_hashable (map snd kwds).
Proof.
  induction kwds as [|x l IH]; [reflexivity|].
  unfold sorted in *. simpl. rewrite all_hashable_insert_item, IH. reflexivity.
Qed.

Lemma all_hashable_types {A} (g : A -> pytype) (l : list A) :
  all_hashable (map (fun x => VType (g x)) l) = true.
Proof. induction l; simpl; auto. Qed.

(** [_make_key] raises exactly when some argument is unhashable, and then
    it raises [TypeError]. *)
Lemma _make_key_unhashable args kwds typed :
  hashable_args args kwds = false -> _make_key args kwds typed = Raise TypeError.
Proof.
  unfold hashable_args, _make_key. rewrite all_hashable_app. intros H.
  fold (flat_items (sorted kwds)).
  assert (Hkey : all_hashable
            (if is_nonempty kwds then (args ++ kwd_mark) ++ flat_items (sorted kwds) else args)
          = false).
  { destruct kwds as [|x kwds].
    - simpl in *. rewrite andb_true_r in H. exact H.
    - cbn [is_nonempty]. rewrite !all_hashable_app, all_hashable_sorted.
      change (all_hashable kwd_mark) with true. rewrite andb_true_r. exact H. }
  set (key := if is_nonempty kwds then _ else _) in *.
  assert (HS : forall extra, _HashedSeq (key ++ extra) = Raise TypeError).
  { intros extra. pose proof (_HashedSeq_cases (key ++ extra)) as C.
    rewrite all_hashable_app, Hkey in C. exact C. }
  destruct typed.
  - destruct (is_nonempty kwds); [rewrite <- app_assoc|]; apply HS.
  - specialize (HS []). rewrite app_nil_r in HS.
    destruct key as [|k0 [|]]; try exact HS.
    destruct (fasttypes (type_of k0)) eqn:Ef; [|exact HS].
    destruct k0; simpl in Ef, Hkey; discriminate.
Qed.

Lemma wrapper_pos_or_neg maxsize typed f bound :
  maxsize = Some bound -> bound <> 0 ->
  wrapper maxsize typed f = wrapper_bounded typed f bound.
Proof. intros -> H. destruct bound; [contradiction| |]; reflexivity. Qed.

(** C4 as stated fails in two places.  With [maxsize == 0] no key is ever
    built: an unhashable argument reaches the computation and the call is
    counted as a miss.  In the bounded wrapper without keywords and
    without [typed] the key is [args] itself, first hashed by the lookup
    inside the [with lock] block. *)
Lemma C4_counterexample :
  hashable_args [VList []] [] = false /\
  wrapper (Some 0) false (fun _ _ => Ok (VInt 7)) [VList []] [] initial_state =
    (Ok (OVal (VInt 7)), incr_MISSES initial_state, [Call [VList []] []]) /\
  wrapper (Some 2) false (fun _ _ => Ok (VInt 7)) [VList []] [] initial_state =
    (Raise TypeError, initial_state, [Acquire; Release]).
Proof. repeat split. Qed.

(** C4, amended: an unhashable argument makes the unbounded wrapper, and
    the bounded wrapper when keywords or [typed] are in play, raise
    [TypeError] while building the key, with no lock taken, no
    computation and no change of state; the bounded wrapper otherwise
    raises it at the lookup, inside the lock, still with no computation
    and no change of state; the disabled wrapper builds no key and calls
    the computation. *)
Theorem C4_unhashable_argument
    (typed : bool) (f : list value -> kwargs -> outcome value)
    (args : list value) (kwds : kwargs) (s : state) :
  hashable_args args kwds = false ->
  wrapper None typed f args kwds s = (Raise TypeError, s, []) /\
  (forall bound, bound <> 0 ->
     wrapper (Some bound) typed f args kwds s =
       (Raise TypeError, s,
        if is_nonempty kwds || typed then [] else [Acquire; Release])) /\
  wrapper (Some 0) typed f args kwds s =
    match f args kwds with
    | Ok v => (Ok (OVal v), incr_MISSES s, [Call args kwds])
    | Raise e => (Raise e, s, [Call args kwds])
    end.
Proof.
  intros H. split; [|split].
  - unfold wrapper. rewrite wrapper_unbounded_eq, (_make_key_unhashable _ _ _ H).
    reflexivity.
  - intros bound Hb. rewrite (wrapper_pos_or_neg _ typed f bound eq_refl Hb).
    rewrite wrapper_bounded_eq. unfold wrapper_key.
    destruct (is_nonempty kwds || typed) eqn:E.
    + rewrite (_make_key_unhashable _ _ _ H). reflexivity.
    + apply orb_false_iff in E as [Ek _]. destruct kwds; [|discriminate].
      unfold hashable_args in H. simpl in H. rewrite app_nil_r in H.
      rewrite <- hash_all_Ok in H.
      assert (Hh : py_hash (VTuple args) = Raise TypeError).
      { destruct (py_hash (VTuple args)) eqn:E'.
        - simpl in E'. destruct (hash_all py_hash args); discriminate.
        - f_equal. eapply py_hash_raise; eauto. }
      unfold dict_get, key_hash. rewrite Hh. reflexivity.
  - unfold wrapper. apply wrapper_disabled_eq.
Qed.

Lemma C4_witness :
  wrapper None true (fun _ _ => Ok VNone) [VInt 1; VTuple [VList []]] [] initial_state =
    (Raise TypeError, initial_state, []).
Proof.
  apply (C4_unhashable_argument true (fun _ _ => Ok VNone)
           [VInt 1; VTuple [VList []]] [] initial_state).
  reflexivity.
Defined.

(** ** Negative [maxsize] *)

(** C3 as stated fails: [lru_cache(-1)] is accepted, and the failure
    comes with the first call, after the computation has run. *)
Lemma C3_counterexample :
  lru_cache (Some (-1)) false = Ok initial_state /\
  wrapper (Some (-1)) false (fun _ _ => Ok (VInt 7)) [VInt 3] [] initial_state =
    (Raise KeyError, initial_state,
     [Acquire; Release; Call [VInt 3] []; Acquire; Release]).
Proof. split; reflexivity. Qed.

(** C3, amended: a negative [maxsize] is not checked when the cache is
    created; creation succeeds and selects the bounded wrapper. *)
Theorem C3_negative_maxsize_accepted (n : Z) (typed : bool) :
  n < 0 ->
  lru_cache (Some n) typed = Ok initial_state /\
  forall f, wrapper (Some n) typed f = wrapper_bounded typed f n.
Proof.
  intros Hn. split; [reflexivity|].
  intros f. apply wrapper_pos_or_neg; [reflexivity|lia].
Qed.

Lemma C3_witness :
  lru_cache (Some (-5)) true = Ok initial_state /\
  forall f, wrapper (Some (-5)) true f = wrapper_bounded true f (-5).
Proof. apply (C3_negative_maxsize_accepted (-5) true). lia. Defined.

(** ** Sorting the keyword items *)

Lemma leb_iff (a b : string) :
  String.leb a b = true <-> a = b \/ String_as_OT.lt a b.
Proof.
  unfold String.leb.
  pose proof (String_as_OT.cmp_eq a b) as He.
  pose proof (String_as_OT.cmp_lt a b) as Hl.
  unfold String_as_OT.cmp in *.
  destruct (String.compare a b) eqn:E; split; intros H; auto; try discriminate.
  - left. apply He. reflexivity.
  - right. apply Hl. reflexivity.
  - destruct H as [H|H]; [apply He in H|apply Hl in H]; discriminate.
Qed.

Lemma leb_trans (a b c : string) :
  String.leb a b = true -> String.leb b c = true -> String.leb a c = true.
Proof.
  rewrite !leb_iff. intros [->|H1] [->|H2]; auto.
  right. eapply String_as_OT.lt_trans; eauto.
Qed.

Lemma insert_item_comm (x y : string * value) (l : kwargs) :
  fst x <> fst y ->
  insert_item x (insert_item y l) = insert_item y (insert_item x l).
Proof.
  intros Hne. induction l as [|z l IH]; simpl.
  - destruct (String.leb (fst x) (fst y)) eqn:Exy, (String.leb (fst y) (fst x)) eqn:Eyx;
      try reflexivity.
    + destruct Hne. apply String.leb_antisym; assumption.
    + destruct (String.leb_total (fst x) (fst y)); congruence.
  - destruct (String.leb (fst y) (fst z)) eqn:Eyz, (String.leb (fst x) (fst z)) eqn:Exz;
      simpl; rewrite ?Eyz, ?Exz;
      destruct (String.leb (fst x) (fst y)) eqn:Exy, (String.leb (fst y) (fst x)) eqn:Eyx;
      simpl; rewrite ?Eyz, ?Exz; try reflexivity;
      try (destruct Hne; apply String.leb_antisym; assumption);
      try (destruct (String.leb_total (fst x) (fst y)); congruence);
      try (rewrite (leb_trans _ _ _ Exy Eyz) in Exz; discriminate);
      try (rewrite (leb_trans _ _ _ Eyx Exz) in Eyz; discriminate).
    all: rewrite IH; reflexivity.
Qed.

(** Items with distinct names sort to the same list whatever order they
    were supplied in. *)
Lemma sorted_Permutation (l1 l2 : kwargs) :
  l1 ≡ₚ l2 -> NoDup (map fst l1) -> sorted l1 = sorted l2.
Proof.
  unfold sorted. induction 1 as [|x l l' _ IH|x y l|l l' l'' H1 IH1 H2 IH2]; intros Hnd.
  - reflexivity.
  - simpl. rewrite IH; [reflexivity|]. simpl in Hnd. apply NoDup_cons in Hnd. tauto.
  - simpl. apply insert_item_comm.
    simpl in Hnd. apply NoDup_cons in Hnd as [Hn _].
    intros E. apply Hn. rewrite E. left.
  - rewrite IH1 by assumption. apply IH2.
    assert (Hm : map fst l ≡ₚ map fst l') by (apply Permutation_map; exact H1).
    rewrite <- Hm. exact Hnd.
Qed.

Lemma is_nonempty_Permutation {A} (l1 l2 : list A) :
  l1 ≡ₚ l2 -> is_nonempty l1 = is_nonempty l2.
Proof.
  intros H. apply Permutation_length in H.
  destruct l1, l2; simpl in *; congruence.
Qed.

(** C8: two calls with the same positional arguments and the same keyword
    mapping, supplied in any order, get the same key. *)
Theorem C8_keyword_order_irrelevant
    (args : list value) (kwds1 kwds2 : kwargs) (typed : bool) :
  NoDup (map fst kwds1) ->
  kwds1 ≡ₚ kwds2 ->
  _make_key args kwds1 typed = _make_key args kwds2 typed /\
  forall k1 k2,
    _make_key args kwds1 typed = Ok k1 ->
    _make_key args kwds2 typed = Ok k2 ->
    key_match k1 k2 = true.
Proof.
  intros Hnd Hp.
  assert (E : _make_key args kwds1 typed = _make_key args kwds2 typed).
  { unfold _make_key.
    rewrite (sorted_Permutation _ _ Hp Hnd), (is_nonempty_Permutation _ _ Hp).
    reflexivity. }
  split; [exact E|].
  intros k1 k2 H1 H2. rewrite E, H2 in H1. injection H1 as <-.
  apply key_match_refl. eapply _make_key_hashable; eauto.
Qed.

Lemma C8_witness :
  _make_key [VInt 1] [("b"%string, VInt 2); ("a"%string, VStr "x")] true =
  _make_key [VInt 1] [("a"%string, VStr "x"); ("b"%string, VInt 2)] true.
Proof.
  apply (C8_keyword_order_irrelevant [VInt 1]
           [("b"%string, VInt 2); ("a"%string, VStr "x")]
           [("a"%string, VStr "x"); ("b"%string, VInt 2)] true).
  - simpl. apply NoDup_cons_2; [|apply NoDup_singleton].
    intros H. apply list_elem_of_singleton in H. discriminate.
  - apply perm_swap.
Defined.

(** ** The first calls on a new cache *)

Lemma bounded_first_call typed f bound args kwds k v :
  1 <= bound ->
  wrapper_key typed args kwds = Ok k ->
  is_Ok (key_hash k) = true ->
  f args kwds = Ok v ->
  wrapper_bounded typed f bound args kwds initial_state =
    (Ok (OVal v),
     State [(k, OLink 1%nat)] 0 1
           [Link 1%nat 1%nat (KVal VNone) VNone; Link 0%nat 0%nat k v] 0%nat,
     [Acquire; Release; Call args kwds; Acquire; Release]).
Proof.
  intros Hb Hk Hh Hf.
  rewrite wrapper_bounded_eq, Hk, (dict_get_hashable _ _ Hh), Hf. simpl dict_find. cbv iota beta.
  unfold result_of, exec. rewrite (commit_eq _ _ _ _ Hh). simpl dict_find. cbv iota beta zeta.
  change (Z.of_nat (length (cache initial_state))) with 0.
  destruct (0 >=? bound) eqn:E; [lia|].
  unfold result_of, exec, append_link. unfold_M. simpl.
  rewrite (dict_set_hashable _ _ _ Hh). reflexivity.
Qed.

Lemma bounded_second_call typed f bound args kwds k k1 v1 :
  wrapper_key typed args kwds = Ok k ->
  is_Ok (key_hash k) = true ->
  let s1 := State [(k1, OLink 1%nat)] 0 1
              [Link 1%nat 1%nat (KVal VNone) VNone; Link 0%nat 0%nat k1 v1] 0%nat in
  if key_match k1 k
  then wrapper_bounded typed f bound args kwds s1 =
         (Ok (OVal v1), incr_HITS s1, [Acquire; Release])
  else HITS (exec (wrapper_bounded typed f bound args kwds) s1) = 0%nat /\
       In (Call args kwds) (trace_of (wrapper_bounded typed f bound args kwds) s1).
Proof.
  intros Hk Hh s1.
  destruct (key_match k1 k) eqn:Em.
  - rewrite wrapper_bounded_eq, Hk, (dict_get_hashable _ _ Hh). simpl. rewrite Em. reflexivity.
  - unfold exec, trace_of. rewrite wrapper_bounded_eq, Hk, (dict_get_hashable _ _ Hh).
    simpl dict_find. rewrite Em.
    destruct (f args kwds); simpl; [|auto].
    destruct (commit_stats bound k a s1 Hh) as [-> _]. auto.
Qed.

(** ** The key of the bounded wrapper *)

Lemma tuple_hashable (l : list value) :
  is_Ok (py_hash (VTuple l)) = all_hashable l.
Proof.
  rewrite <- hash_all_Ok. simpl. destruct (hash_all py_hash l); reflexivity.
Qed.

(** C10: without keywords and without [typed] the bounded wrapper uses
    the argument tuple itself as the key, and two such calls meet on the
    same entry exactly when their tuples are equal (and then hash alike). *)
Theorem C10_bounded_untyped_key_is_args
    (f : list value -> kwargs -> outcome value) (bound : Z)
    (args1 args2 : list value) (v1 : value) :
  1 <= bound ->
  all_hashable args1 = true ->
  all_hashable args2 = true ->
  f args1 [] = Ok v1 ->
  wrapper_key false args1 [] = Ok (KVal (VTuple args1)) /\
  (key_match (KVal (VTuple args1)) (KVal (VTuple args2)) = true <->
   py_eq (VTuple args1) (VTuple args2) = true /\
   py_hash (VTuple args1) = py_hash (VTuple args2)) /\
  let s1 := exec (wrapper (Some bound) false f args1 []) initial_state in
  (HITS (exec (wrapper (Some bound) false f args2 []) s1) = 1%nat <->
   py_eq (VTuple args1) (VTuple args2) = true).
Proof.
  intros Hb H1 H2 Hf.
  rewrite <- tuple_hashable in H1, H2.
  assert (Hm : key_match (KVal (VTuple args1)) (KVal (VTuple args2)) =
               py_eq (VTuple args1) (VTuple args2)).
  { unfold key_match, key_hash.
    destruct (py_eq (VTuple args1) (VTuple args2)) eqn:E.
    - rewrite <- (py_eq_hash _ _ E).
      destruct (py_hash (VTuple args1)); [|discriminate].
      rewrite Z.eqb_refl. simpl key_eq. exact E.
    - destruct (py_hash (VTuple args1)), (py_hash (VTuple args2)); try reflexivity.
      change (key_eq (KVal (VTuple args1)) (KVal (VTuple args2)))
        with (py_eq (VTuple args1) (VTuple args2)).
      rewrite E. apply andb_false_r. }
  split; [reflexivity|]. split.
  - rewrite Hm. split; [|tauto]. intros E. split; [exact E|]. apply py_eq_hash, E.
  - intros s1. subst s1.
    rewrite !(wrapper_pos_or_neg (Some bound) false f bound eq_refl) by lia.
    unfold exec at 2.
    rewrite (bounded_first_call false f bound args1 [] (KVal (VTuple args1)) v1
               Hb eq_refl H1 Hf).
    cbn [fst snd].
    pose proof (bounded_second_call false f bound args2 [] (KVal (VTuple args2))
                  (KVal (VTuple args1)) v1 eq_refl H2) as S2.
    cbv zeta in S2. rewrite Hm in S2.
    destruct (py_eq (VTuple args1) (VTuple args2)).
    + unfold exec. rewrite S2. simpl. tauto.
    + destruct S2 as [-> _]. split; discriminate.
Qed.

Lemma C10_witness :
  let f : list value -> kwargs -> outcome value := fun _ _ => Ok VNone in
  wrapper_key false [VInt 3] [] = Ok (KVal (VTuple [VInt 3])) /\
  (key_match (KVal (VTuple [VInt 3])) (KVal (VTuple [VFloat 3])) = true <->
   py_eq (VTuple [VInt 3]) (VTuple [VFloat 3]) = true /\
   py_hash (VTuple [VInt 3]) = py_hash (VTuple [VFloat 3])) /\
  let s1 := exec (wrapper (Some 4) false f [VInt 3] []) initial_state in
  (HITS (exec (wrapper (Some 4) false f [VFloat 3] []) s1) = 1%nat <->
   py_eq (VTuple [VInt 3]) (VTuple [VFloat 3]) = true).
Proof.
  intros f.
  apply (C10_bounded_untyped_key_is_args f 4 [VInt 3] [VFloat 3] VNone);
    [lia | reflexivity | reflexivity | reflexivity].
Defined.

(** ** Type-sensitive keys *)

Lemma _make_key_spec args kwds typed :
  _make_key args kwds typed =
  if typed then _HashedSeq (key_base args kwds ++ map VType (call_types args kwds))
  else if fast_path args kwds then Ok (KVal (hd VNone args))
  else _HashedSeq (key_base args kwds).
Proof.
  unfold _make_key, key_base, call_types, fast_path. fold (flat_items (sorted kwds)).
  destruct typed.
  - destruct kwds as [|x kwds].
    + simpl. rewrite app_nil_r, map_map. reflexivity.
    + cbn [is_nonempty]. rewrite map_app, !map_map, <- !app_assoc. reflexivity.
  - destruct kwds as [|x kwds].
    + simpl. destruct args as [|a [|b args]]; reflexivity.
    + cbn [is_nonempty].
      destruct args as [|a [|b args]]; try reflexivity.
      simpl. destruct (flat_items _) eqn:E; [|reflexivity].
      exfalso. revert E. unfold sorted. simpl.
      generalize (foldr insert_item [] kwds). intros l.
      destruct l as [|y l]; simpl; [discriminate|].
      destruct (String.leb (fst x) (fst y)); discriminate.
Qed.

Lemma all_hashable_compat (l m : list value) :
  all2 py_same l m = true -> all_hashable l = all_hashable m.
Proof.
  revert m. induction l as [|x l IH]; intros [|y m]; simpl; try congruence.
  rewrite andb_true_iff. intros [H1 H2].
  rewrite (py_same_hash _ _ H1), (IH m H2). reflexivity.
Qed.

Lemma flat_items_compat (l m : kwargs) :
  all2 item_eq l m = true -> all2 py_same (flat_items l) (flat_items m) = true.
Proof.
  revert m. induction l as [|x l IH]; intros [|y m]; simpl; try congruence.
  intros H. apply andb_true_iff in H as [H0 H3].
  unfold item_eq in H0. apply andb_true_iff in H0 as [H1 H2].
  change (py_same (VStr (fst x)) (VStr (fst y)) &&
          (py_same (snd x) (snd y) &&
           all2 py_same (flat_items l) (flat_items m)) = true).
  rewrite (py_eq_same _ _ H2), (IH m H3). unfold py_same. simpl.
  rewrite H1. reflexivity.
Qed.

Lemma insert_item_length x l : length (insert_item x l) = S (length l).
Proof.
  induction l as [|y l IH]; simpl; [reflexivity|].
  destruct (String.leb _ _); simpl; congruence.
Qed.

Lemma sorted_length kwds : length (sorted kwds) = length kwds.
Proof.
  unfold sorted. induction kwds as [|x l IH]; simpl; [reflexivity|].
  rewrite insert_item_length. congruence.
Qed.

Lemma is_nonempty_sorted kwds : is_nonempty kwds = is_nonempty (sorted kwds).
Proof.
  pose proof (sorted_length kwds). destruct kwds, (sorted _); simpl in *; congruence.
Qed.

Lemma same_call_base args1 kwds1 args2 kwds2 :
  same_call args1 kwds1 args2 kwds2 = true ->
  all2 py_same (key_base args1 kwds1) (key_base args2 kwds2) = true /\
  is_nonempty kwds1 = is_nonempty kwds2 /\
  length args1 = length args2.
Proof.
  unfold same_call. rewrite andb_true_iff. intros [Ha Hk].
  apply all2_py_eq_same in Ha.
  assert (Hn : is_nonempty kwds1 = is_nonempty kwds2).
  { rewrite (is_nonempty_sorted kwds1), (is_nonempty_sorted kwds2).
    apply all2_length in Hk.
    destruct (sorted kwds1), (sorted kwds2); simpl in *; congruence. }
  split; [|split; [exact Hn|eapply all2_length; eauto]].
  unfold key_base. rewrite <- Hn. destruct (is_nonempty kwds1); [|exact Ha].
  pose proof (all2_length _ _ _ Ha) as Hl.
  rewrite !all2_app by (rewrite ?length_app; simpl; lia).
  rewrite Ha, (flat_items_compat _ _ Hk). reflexivity.
Qed.

Lemma same_call_hashable args1 kwds1 args2 kwds2 :
  same_call args1 kwds1 args2 kwds2 = true ->
  hashable_args args1 kwds1 = hashable_args args2 kwds2.
Proof.
  unfold same_call, hashable_args. rewrite andb_true_iff. intros [Ha Hk].
  rewrite !all_hashable_app, <- !all_hashable_sorted.
  rewrite (all_hashable_compat _ _ (all2_py_eq_same _ _ Ha)),
    (all_hashable_compat _ _ (flat_items_compat _ _ Hk)).
  reflexivity.
Qed.

Lemma key_base_hashable args kwds :
  all_hashable (key_base args kwds) = hashable_args args kwds.
Proof.
  unfold key_base, hashable_args. rewrite all_hashable_app.
  destruct kwds as [|x kwds].
  - simpl. rewrite andb_true_r. reflexivity.
  - cbn [is_nonempty]. rewrite !all_hashable_app, all_hashable_sorted.
    change (all_hashable kwd_mark) with true. rewrite andb_true_r. reflexivity.
Qed.

Lemma all2_types (t1 t2 : list pytype) :
  all2 py_same (map VType t1) (map VType t2) = true -> t1 = t2.
Proof.
  revert t2. induction t1 as [|x t1 IH]; intros [|y t2]; simpl; try congruence.
  unfold py_same at 1. simpl.
  rewrite andb_true_iff, pytype_eqb_eq. intros [-> H]. f_equal. auto.
Qed.

Lemma _HashedSeq_match (l m : list value) (k1 k2 : key) :
  _HashedSeq l = Ok k1 -> _HashedSeq m = Ok k2 ->
  key_match k1 k2 = all2 py_same l m.
Proof.
  unfold _HashedSeq.
  destruct (py_hash (VTuple l)) as [h1|] eqn:E1; [|discriminate].
  destruct (py_hash (VTuple m)) as [h2|] eqn:E2; [|discriminate].
  intros [= <-] [= <-]. unfold key_match. simpl.
  destruct (all2 py_same l m) eqn:E; [|apply andb_false_r].
  assert (H : py_hash (VTuple l) = py_hash (VTuple m)) by (apply py_eq_hash; exact E).
  rewrite E1, E2 in H. injection H as ->. rewrite Z.eqb_refl. reflexivity.
Qed.

(** With [typed] two calls whose argument types differ never share a key. *)
Lemma typed_keys_distinct args1 kwds1 args2 kwds2 k1 k2 :
  same_call args1 kwds1 args2 kwds2 = true ->
  call_types args1 kwds1 <> call_types args2 kwds2 ->
  _make_key args1 kwds1 true = Ok k1 ->
  _make_key args2 kwds2 true = Ok k2 ->
  key_match k1 k2 = false.
Proof.
  intros Hs Ht. rewrite !_make_key_spec. intros H1 H2.
  rewrite (_HashedSeq_match _ _ _ _ H1 H2).
  destruct (same_call_base _ _ _ _ Hs) as (Hb & _ & _).
  rewrite all2_app by (eapply all2_length; eauto).
  rewrite Hb. cbn [andb].
  destruct (all2 py_same (map VType _) (map VType _)) eqn:E; [|reflexivity].
  destruct Ht. apply all2_types, E.
Qed.

(** Without [typed] they share it, unless exactly one of them takes the
    fast path. *)
Lemma untyped_keys_match args1 kwds1 args2 kwds2 k1 k2 :
  same_call args1 kwds1 args2 kwds2 = true ->
  _make_key args1 kwds1 false = Ok k1 ->
  _make_key args2 kwds2 false = Ok k2 ->
  key_match k1 k2 = Bool.eqb (fast_path args1 kwds1) (fast_path args2 kwds2).
Proof.
  intros Hs. rewrite !_make_key_spec.
  destruct (same_call_base _ _ _ _ Hs) as (Hb & Hn & Hl).
  destruct (fast_path args1 kwds1) eqn:F1, (fast_path args2 kwds2) eqn:F2; simpl.
  - unfold fast_path in F1, F2.
    destruct args1 as [|a [|]], kwds1; try discriminate.
    destruct args2 as [|b [|]], kwds2; try discriminate.
    intros [= <-] [= <-]. simpl in Hb. rewrite andb_true_r in Hb.
    unfold key_match, key_hash. simpl hd. rewrite <- (py_same_hash _ _ Hb).
    destruct a; try discriminate; simpl; rewrite ?Z.eqb_refl; simpl; try exact Hb.
  - intros [= <-]. unfold _HashedSeq.
    destruct (py_hash _) as [h2|]; [|discriminate]. intros [= <-].
    unfold fast_path in F1. destruct args1 as [|a [|]], kwds1; try discriminate.
    unfold key_match. simpl hd.
    destruct (key_hash (KVal a)) as [h1|]; [|reflexivity]. simpl key_hash.
    destruct a; try discriminate; apply andb_false_r.
  - unfold _HashedSeq. destruct (py_hash _) as [h1|]; [|discriminate].
    intros [= <-] [= <-].
    unfold fast_path in F2. destruct args2 as [|b [|]], kwds2; try discriminate.
    unfold key_match. simpl hd. simpl key_hash at 1.
    destruct (key_hash (KVal b)) as [h2|]; [|reflexivity].
    destruct b; try discriminate; apply andb_false_r.
  - intros H1 H2. rewrite (_HashedSeq_match _ _ _ _ H1 H2). exact Hb.
Qed.

Lemma tuple_key_match (l m : list value) :
  is_Ok (py_hash (VTuple l)) = true ->
  key_match (KVal (VTuple l)) (KVal (VTuple m)) = py_eq (VTuple l) (VTuple m).
Proof.
  intros H1. unfold key_match, key_hash.
  destruct (py_eq (VTuple l) (VTuple m)) eqn:E.
  - rewrite <- (py_eq_hash _ _ E).
    destruct (py_hash (VTuple l)); [|discriminate].
    rewrite Z.eqb_refl. simpl key_eq. exact E.
  - destruct (py_hash (VTuple l)), (py_hash (VTuple m)); try reflexivity.
    change (key_eq (KVal (VTuple l)) (KVal (VTuple m))) with (py_eq (VTuple l) (VTuple m)).
    rewrite E. apply andb_false_r.
Qed.

Lemma wrapper_key_hashable typed args kwds k :
  hashable_args args kwds = true ->
  wrapper_key typed args kwds = Ok k -> is_Ok (key_hash k) = true.
Proof.
  intros Hh. unfold wrapper_key.
  destruct (is_nonempty kwds || typed) eqn:E; [apply _make_key_hashable|].
  intros [= <-]. apply orb_false_iff in E as [E _]. destruct kwds; [|discriminate].
  unfold hashable_args in Hh. simpl in Hh. rewrite app_nil_r in Hh.
  unfold key_hash. rewrite tuple_hashable. exact Hh.
Qed.

Lemma _make_key_Ok args kwds typed :
  hashable_args args kwds = true -> exists k, _make_key args kwds typed = Ok k.
Proof.
  intros Hh. rewrite _make_key_spec.
  assert (H1 : forall extra, exists k,
             _HashedSeq (key_base args kwds ++ map VType extra) = Ok k).
  { intros extra. pose proof (_HashedSeq_cases (key_base args kwds ++ map VType extra)) as C.
    rewrite all_hashable_app, key_base_hashable, Hh, all_hashable_types in C.
    destruct C as [h C]. eauto. }
  destruct typed; [apply H1|].
  destruct (fast_path args kwds); [eauto|].
  specialize (H1 []). simpl in H1. rewrite app_nil_r in H1. exact H1.
Qed.

Lemma wrapper_key_Ok typed args kwds :
  hashable_args args kwds = true -> exists k, wrapper_key typed args kwds = Ok k.
Proof.
  intros Hh. unfold wrapper_key.
  destruct (is_nonempty kwds || typed); [apply _make_key_Ok, Hh|eauto].
Qed.

(** The bounded wrapper's keys: distinct under [typed], shared without. *)
Lemma wrapper_keys_match typed args1 kwds1 args2 kwds2 k1 k2 :
  same_call args1 kwds1 args2 kwds2 = true ->
  call_types args1 kwds1 <> call_types args2 kwds2 ->
  hashable_args args1 kwds1 = true ->
  wrapper_key typed args1 kwds1 = Ok k1 ->
  wrapper_key typed args2 kwds2 = Ok k2 ->
  key_match k1 k2 = negb typed.
Proof.
  intros Hs Ht Hh. unfold wrapper_key.
  destruct (same_call_base _ _ _ _ Hs) as (Hb & Hn & Hl). rewrite <- Hn.
  destruct typed.
  - rewrite orb_true_r. apply typed_keys_distinct; assumption.
  - rewrite orb_false_r. destruct (is_nonempty kwds1) eqn:En.
    + intros H1 H2. rewrite (untyped_keys_match _ _ _ _ _ _ Hs H1 H2).
      unfold fast_path.
      destruct kwds1; [discriminate|]. destruct kwds2; [discriminate|].
      destruct args1 as [|? [|]], args2 as [|? [|]]; reflexivity.
    + intros [= <-] [= <-]. destruct kwds1; [|discriminate].
      unfold hashable_args in Hh. simpl in Hh. rewrite app_nil_r in Hh.
      rewrite tuple_key_match by (rewrite tuple_hashable; exact Hh).
      unfold key_base in Hb. rewrite <- Hn in Hb. exact Hb.
Qed.

Lemma unbounded_first_call typed f args kwds k v :
  _make_key args kwds typed = Ok k ->
  f args kwds = Ok v ->
  wrapper_unbounded typed f args kwds initial_state =
    (Ok (OVal v),
     State [(k, OVal v)] 0 1 [Link 0%nat 0%nat (KVal VNone) VNone] 0%nat,
     [Call args kwds]).
Proof.
  intros Hk Hf. rewrite wrapper_unbounded_eq, Hk, Hf. reflexivity.
Qed.

Lemma two_calls_unbounded typed f args1 kwds1 args2 kwds2 k1 k2 v1 v2 :
  _make_key args1 kwds1 typed = Ok k1 ->
  _make_key args2 kwds2 typed = Ok k2 ->
  f args1 kwds1 = Ok v1 ->
  f args2 kwds2 = Ok v2 ->
  summary (run None typed f [(args1, kwds1); (args2, kwds2)] initial_state) =
  if key_match k1 k2
  then ([Ok (OVal v1); Ok (OVal v1)], 1%nat, 1%nat)
  else ([Ok (OVal v1); Ok (OVal v2)], 0%nat, 2%nat).
Proof.
  intros H1 H2 F1 F2. rewrite !run_cons. unfold summary, result_of, exec, wrapper.
  rewrite (unbounded_first_call typed f _ _ _ _ H1 F1). cbn [fst snd run].
  rewrite wrapper_unbounded_eq, H2, F2. simpl.
  destruct (key_match k1 k2); reflexivity.
Qed.

Lemma two_calls_bounded typed f bound args1 kwds1 args2 kwds2 k1 k2 v1 v2 :
  1 <= bound ->
  wrapper_key typed args1 kwds1 = Ok k1 ->
  wrapper_key typed args2 kwds2 = Ok k2 ->
  is_Ok (key_hash k1) = true ->
  is_Ok (key_hash k2) = true ->
  f args1 kwds1 = Ok v1 ->
  f args2 kwds2 = Ok v2 ->
  summary (run (Some bound) typed f [(args1, kwds1); (args2, kwds2)] initial_state) =
  if key_match k1 k2
  then ([Ok (OVal v1); Ok (OVal v1)], 1%nat, 1%nat)
  else ([Ok (OVal v1); Ok (OVal v2)], 0%nat, 2%nat).
Proof.
  intros Hb H1 H2 Hh1 Hh2 F1 F2. rewrite !run_cons.
  rewrite !(wrapper_pos_or_neg (Some bound) typed f bound eq_refl) by lia.
  unfold summary, result_of, exec.
  rewrite (bounded_first_call typed f bound _ _ _ _ Hb H1 Hh1 F1). cbn [fst snd run].
  destruct (key_match k1 k2) eqn:Em.
  - pose proof (bounded_second_call typed f bound args2 kwds2 k2 k1 v1 H2 Hh2) as S2.
    cbv zeta in S2. rewrite Em in S2. rewrite S2. reflexivity.
  - rewrite wrapper_bounded_eq, H2, (dict_get_hashable _ _ Hh2), F2.
    simpl dict_find. rewrite Em. cbv iota beta.
    unfold result_of, exec. rewrite (commit_eq _ _ _ _ Hh2).
    simpl dict_find. rewrite Em. cbv iota beta zeta.
    simpl cache. simpl length. simpl nonlocal_root.
    destruct (Z.of_nat 1 >=? bound) eqn:Eb.
    + pose proof (key_match_refl _ Hh1) as Hm1.
      unfold result_of, exec, evict_and_reuse. unfold_M.
      unfold heap_wr, dict_del, dict_set. simpl.
      destruct (key_hash k1); [|discriminate]. destruct (key_hash k2); [|discriminate].
      rewrite Hm1. reflexivity.
    + unfold result_of, exec, append_link. unfold_M.
      unfold heap_wr, dict_set. simpl.
      destruct (key_hash k2); [|discriminate]. reflexivity.
Qed.

(** C1 as stated fails for the unbounded wrapper without [typed]: [f(3)]
    is keyed by the fast path as the bare [3], [f(3.0)] as a [_HashedSeq],
    and the two never match, although [3 == 3.0]. *)
Lemma C1_counterexample :
  let f : list value -> kwargs -> outcome value := fun args _ => Ok (VTuple args) in
  same_call [VInt 3] [] [VFloat 3] [] = true /\
  call_types [VInt 3] [] <> call_types [VFloat 3] [] /\
  summary (run None false f [([VInt 3], []); ([VFloat 3], [])] initial_state) =
    ([Ok (OVal (VTuple [VInt 3])); Ok (OVal (VTuple [VFloat 3]))], 0%nat, 2%nat).
Proof. repeat split. discriminate. Qed.

(** C1, amended: two calls whose arguments compare equal but differ in
    type are two misses under [typed], in the unbounded and in the
    bounded wrapper and whatever the position of the argument; without
    [typed] the second call is a hit in the bounded wrapper, and in the
    unbounded wrapper provided both calls, or neither, take the fast path
    of [_make_key]. *)
Theorem C1_typed_separates_untyped_shares
    (f : list value -> kwargs -> outcome value)
    (args1 : list value) (kwds1 : kwargs)
    (args2 : list value) (kwds2 : kwargs) (v1 v2 : value) :
  same_call args1 kwds1 args2 kwds2 = true ->
  call_types args1 kwds1 <> call_types args2 kwds2 ->
  hashable_args args1 kwds1 = true ->
  f args1 kwds1 = Ok v1 ->
  f args2 kwds2 = Ok v2 ->
  let session m t :=
    summary (run m t f [(args1, kwds1); (args2, kwds2)] initial_state) in
  let two_misses := ([Ok (OVal v1); Ok (OVal v2)], 0%nat, 2%nat) in
  let miss_then_hit := ([Ok (OVal v1); Ok (OVal v1)], 1%nat, 1%nat) in
  session None true = two_misses /\
  (forall bound, 1 <= bound -> session (Some bound) true = two_misses) /\
  (forall bound, 1 <= bound -> session (Some bound) false = miss_then_hit) /\
  (Bool.eqb (fast_path args1 kwds1) (fast_path args2 kwds2) = true ->
   session None false = miss_then_hit).
Proof.
  intros Hs Ht Hh1 F1 F2 session two_misses miss_then_hit.
  assert (Hh2 : hashable_args args2 kwds2 = true).
  { rewrite <- (same_call_hashable _ _ _ _ Hs). exact Hh1. }
  assert (Hb : forall bound typed, 1 <= bound ->
             session (Some bound) typed = if negb typed then miss_then_hit else two_misses).
  { intros bound typed Hb.
    destruct (wrapper_key_Ok typed _ _ Hh1) as [k1 K1].
    destruct (wrapper_key_Ok typed _ _ Hh2) as [k2 K2].
    unfold session.
    rewrite (two_calls_bounded typed f bound _ _ _ _ k1 k2 v1 v2 Hb K1 K2
               (wrapper_key_hashable _ _ _ _ Hh1 K1)
               (wrapper_key_hashable _ _ _ _ Hh2 K2) F1 F2).
    rewrite (wrapper_keys_match typed _ _ _ _ _ _ Hs Ht Hh1 K1 K2). reflexivity. }
  split; [|split; [|split]].
  - destruct (_make_key_Ok _ _ true Hh1) as [k1 K1].
    destruct (_make_key_Ok _ _ true Hh2) as [k2 K2].
    unfold session. rewrite (two_calls_unbounded true f _ _ _ _ k1 k2 v1 v2 K1 K2 F1 F2).
    rewrite (typed_keys_distinct _ _ _ _ _ _ Hs Ht K1 K2). reflexivity.
  - intros bound H. apply (Hb bound true H).
  - intros bound H. apply (Hb bound false H).
  - intros Hf.
    destruct (_make_key_Ok _ _ false Hh1) as [k1 K1].
    destruct (_make_key_Ok _ _ false Hh2) as [k2 K2].
    unfold session. rewrite (two_calls_unbounded false f _ _ _ _ k1 k2 v1 v2 K1 K2 F1 F2).
    rewrite (untyped_keys_match _ _ _ _ _ _ Hs K1 K2), Hf. reflexivity.
Qed.

Lemma C1_witness :
  let f : list value -> kwargs -> outcome value := fun args _ => Ok (VTuple args) in
  let session m t :=
    summary (run m t f [([VStr "a"; VInt 3], []); ([VStr "a"; VFloat 3], [])]
               initial_state) in
  let two_misses :=
    ([Ok (OVal (VTuple [VStr "a"; VInt 3])); Ok (OVal (VTuple [VStr "a"; VFloat 3]))],
     0%nat, 2%nat) in
  let miss_then_hit :=
    ([Ok (OVal (VTuple [VStr "a"; VInt 3])); Ok (OVal (VTuple [VStr "a"; VInt 3]))],
     1%nat, 1%nat) in
  session None true = two_misses /\
  (forall bound, 1 <= bound -> session (Some bound) true = two_misses) /\
  (forall bound, 1 <= bound -> session (Some bound) false = miss_then_hit) /\
  (Bool.eqb (fast_path [VStr "a"; VInt 3] []) (fast_path [VStr "a"; VFloat 3] []) = true ->
   session None false = miss_then_hit).
Proof.
  intros f.
  apply (C1_typed_separates_untyped_shares f
           [VStr "a"; VInt 3] [] [VStr "a"; VFloat 3] []
           (VTuple [VStr "a"; VInt 3]) (VTuple [VStr "a"; VFloat 3]));
    try reflexivity.
  discriminate.
Defined.

(** ** References stay valid *)

Lemma heap_wr_length f a h : length (heap_wr f a h) = length h.
Proof. apply length_insert. Qed.

Lemma heap_ok_lookup n h a :
  heap_ok n h -> (a < n)%nat -> link_ok n (h !!! a).
Proof.
  intros [Hl Hf] Ha. rewrite Forall_forall in Hf. apply Hf.
  apply list_elem_of_lookup. exists a.
  apply list_lookup_lookup_total_lt. lia.
Qed.

Lemma heap_ok_wr n h a f :
  heap_ok n h ->
  (link_ok n (h !!! a) -> link_ok n (f (h !!! a))) ->
  heap_ok n (heap_wr f a h).
Proof.
  intros [Hl Hf] H. split; [rewrite heap_wr_length; exact Hl|].
  unfold heap_wr. destruct (decide (a < length h)%nat) as [Ha|Ha].
  - apply Forall_insert; [exact Hf|]. apply H, heap_ok_lookup; [split; assumption|lia].
  - rewrite list_insert_ge by lia. exact Hf.
Qed.

Lemma heap_ok_NEXT n h a v :
  heap_ok n h -> (v < n)%nat -> heap_ok n (heap_wr (upd_NEXT v) a h).
Proof. intros H Hv. apply heap_ok_wr; [exact H|]. intros [? ?]. split; simpl; assumption. Qed.

Lemma heap_ok_PREV n h a v :
  heap_ok n h -> (v < n)%nat -> heap_ok n (heap_wr (upd_PREV v) a h).
Proof. intros H Hv. apply heap_ok_wr; [exact H|]. intros [? ?]. split; simpl; assumption. Qed.

Lemma heap_ok_KEY n h a k :
  heap_ok n h -> heap_ok n (heap_wr (upd_KEY k) a h).
Proof. intros H. apply heap_ok_wr; [exact H|]. intros [? ?]. split; simpl; assumption. Qed.

Lemma heap_ok_RESULT n h a v :
  heap_ok n h -> heap_ok n (heap_wr (upd_RESULT v) a h).
Proof. intros H. apply heap_ok_wr; [exact H|]. intros [? ?]. split; simpl; assumption. Qed.

Lemma heap_ok_PREV_at n h a : heap_ok n h -> (a < n)%nat -> (PREV (h !!! a) < n)%nat.
Proof. intros H Ha. apply (heap_ok_lookup n h a H Ha). Qed.

Lemma heap_ok_NEXT_at n h a : heap_ok n h -> (a < n)%nat -> (NEXT (h !!! a) < n)%nat.
Proof. intros H Ha. apply (heap_ok_lookup n h a H Ha). Qed.

Lemma heap_ok_alloc n h l :
  heap_ok n h -> link_ok n l -> heap_ok (S n) (h ++ [l]).
Proof.
  intros [Hl Hf] [H1 H2]. split; [rewrite length_app; simpl; lia|].
  apply Forall_app. split.
  - eapply Forall_impl; [exact Hf|]. intros x [? ?]. split; lia.
  - constructor; [split; lia|constructor].
Qed.

Create HintDb refs.
#[global] Hint Resolve heap_ok_NEXT heap_ok_PREV heap_ok_KEY heap_ok_RESULT
  heap_ok_PREV_at heap_ok_NEXT_at : refs.

Lemma dict_store_ok {V} (P : key * V -> Prop) k v (d : dict V) :
  Forall P d -> (forall k', P (k', v)) -> Forall P (dict_store k v d).
Proof.
  intros Hd Hv. induction Hd as [|[k' v'] d Hx Hd IH]; simpl.
  - constructor; [apply Hv|constructor].
  - destruct (key_match k' k); constructor; auto.
Qed.

Lemma dict_remove_ok {V} (P : key * V -> Prop) k (d d' : dict V) :
  Forall P d -> dict_remove k d = Some d' -> Forall P d'.
Proof.
  intros Hd. revert d'. induction Hd as [|[k' v'] d Hx Hd IH]; simpl; [discriminate|].
  intros d'. destruct (key_match k' k); [intros [= <-]; exact Hd|].
  destruct (dict_remove k d); [|discriminate]. intros [= <-]. constructor; auto.
Qed.

Lemma move_to_front_refs a s :
  refs_ok s -> (a < length (heap s))%nat -> refs_ok (exec (move_to_front a) s).
Proof.
  intros (Hr & Hh & Hc) Ha. unfold refs_ok, exec, move_to_front. unfold_M. simpl.
  rewrite !heap_wr_length. split; [exact Hr|]. split; [|exact Hc].
  set (n := length (heap s)) in *.
  repeat first [ apply heap_ok_NEXT | apply heap_ok_PREV | exact Hh | assumption
               | apply heap_ok_PREV_at | apply heap_ok_NEXT_at ].
Qed.

Lemma obj_ok_mono (n : nat) (d : dict obj) :
  Forall (fun e : key * obj => obj_ok n (snd e)) d ->
  Forall (fun e : key * obj => obj_ok (S n) (snd e)) d.
Proof.
  intros H. eapply Forall_impl; [exact H|]. intros [k' [|b]]; simpl; [auto|lia].
Qed.

Lemma append_link_refs k v s :
  refs_ok s -> refs_ok (exec (append_link (nonlocal_root s) k v) s).
Proof.
  intros (Hr & Hh & Hc). unfold exec, append_link. unfold_M. simpl.
  set (n := length (heap s)) in *.
  set (h' := heap_wr _ _ (heap_wr _ _ _)).
  assert (Hh' : heap_ok (S n) h').
  { subst h'. apply heap_ok_PREV; [|lia]. apply heap_ok_NEXT; [|lia].
    apply heap_ok_alloc; [exact Hh|]. split; simpl; [|exact Hr].
    apply heap_ok_PREV_at; assumption. }
  assert (Hlen : length h' = S n) by apply Hh'.
  pose proof (obj_ok_mono n _ Hc) as Hc'.
  destruct (dict_set k (OLink n) (cache s)) as [d|e] eqn:Ed; simpl;
    unfold refs_ok; simpl; rewrite Hlen; (split; [lia|]); (split; [exact Hh'|]);
    [|exact Hc'].
  unfold dict_set in Ed. destruct (key_hash k); [|discriminate]. injection Ed as <-.
  apply dict_store_ok; [exact Hc'|]. intros k'. simpl. lia.
Qed.

Lemma evict_and_reuse_refs k v s :
  refs_ok s -> refs_ok (exec (evict_and_reuse (nonlocal_root s) k v) s).
Proof.
  intros (Hr & Hh & Hc). unfold exec, evict_and_reuse. unfold_M. simpl.
  set (n := length (heap s)) in *.
  set (h2 := heap_wr (upd_RESULT v) (nonlocal_root s)
               (heap_wr (upd_KEY k) (nonlocal_root s) (heap s))).
  assert (H2 : heap_ok n h2) by (subst h2; auto with refs).
  set (r' := NEXT (h2 !!! nonlocal_root s)).
  assert (Hr' : (r' < n)%nat) by (subst r'; auto with refs).
  set (h4 := heap_wr (upd_RESULT VNone) r' (heap_wr (upd_KEY (KVal VNone)) r' h2)).
  assert (H4 : heap_ok n h4) by (subst h4; auto with refs).
  assert (Hlen : length h4 = n) by apply H4.
  destruct (dict_del _ (cache s)) as [d|e] eqn:Ed; simpl.
  - assert (Hd : Forall (fun e : key * obj => obj_ok n (snd e)) d).
    { unfold dict_del in Ed. destruct (key_hash _); [|discriminate].
      destruct (dict_remove _ _) eqn:Er; [|discriminate]. injection Ed as <-.
      eapply dict_remove_ok; eauto. }
    destruct (dict_set k (OLink (nonlocal_root s)) d) as [d'|e] eqn:Es; simpl;
      unfold refs_ok; simpl; rewrite Hlen; (split; [exact Hr'|]); (split; [exact H4|]);
      [|exact Hd].
    unfold dict_set in Es. destruct (key_hash k); [|discriminate]. injection Es as <-.
    apply dict_store_ok; [exact Hd|]. intros k'. simpl. exact Hr.
  - unfold refs_ok; simpl; rewrite Hlen. auto.
Qed.

Lemma incr_MISSES_refs s : refs_ok s -> refs_ok (incr_MISSES s).
Proof. intros H. exact H. Qed.

Lemma after_miss_refs {A} (r : outcome A) s : refs_ok s -> refs_ok (after_miss r s).
Proof. destruct r; auto. Qed.

Lemma commit_refs bound k v s :
  is_Ok (key_hash k) = true -> refs_ok s -> refs_ok (exec (commit bound k v) s).
Proof.
  intros Hk H. unfold exec. rewrite (commit_eq _ _ _ _ Hk).
  destruct (dict_find k (cache s)); [exact H|].
  cbv zeta. cbn [fst snd]. apply after_miss_refs.
  destruct (_ >=? _); auto using evict_and_reuse_refs, append_link_refs.
Qed.

Lemma dict_find_In {V} k (d : dict V) v :
  dict_find k d = Some v -> exists k', In (k', v) d /\ key_match k' k = true.
Proof.
  induction d as [|[k' v'] d IH]; simpl; [discriminate|].
  destruct (key_match k' k) eqn:E.
  - intros [= <-]. eauto.
  - intros H. destruct (IH H) as (k'' & ? & ?). eauto.
Qed.

Lemma wrapper_refs maxsize typed f args kwds s :
  refs_ok s -> refs_ok (exec (wrapper maxsize typed f args kwds) s).
Proof.
  intros H. unfold exec, wrapper.
  assert (Hb : forall bound, refs_ok (snd (fst (wrapper_bounded typed f bound args kwds s)))).
  { intros bound. rewrite wrapper_bounded_eq.
    destruct (wrapper_key typed args kwds) as [k|]; [|exact H].
    destruct (dict_get k (cache s)) as [[[|a]|]|] eqn:Eg; try exact H.
    - apply dict_get_Ok_hashable in Eg as [_ Ef]. symmetry in Ef.
      apply dict_find_In in Ef as (k' & Hin & _).
      apply move_to_front_refs; [exact H|].
      destruct H as (_ & _ & Hc). rewrite Forall_forall in Hc.
      apply (Hc (k', OLink a)). apply list_elem_of_In. exact Hin.
    - apply dict_get_Ok_hashable in Eg as [Hk _].
      destruct (f args kwds); [|exact H]. apply commit_refs; assumption. }
  destruct maxsize as [[|p|p]|]; try apply Hb.
  - rewrite wrapper_disabled_eq. destruct (f args kwds); exact H.
  - rewrite wrapper_unbounded_eq.
    destruct (_make_key args kwds typed) as [k|]; [|exact H].
    destruct (dict_find k (cache s)); [exact H|].
    destruct (f args kwds); [|exact H].
    destruct H as (Hr & Hh & Hc). split; [exact Hr|]. split; [exact Hh|].
    simpl. apply dict_store_ok; [exact Hc|]. intros; exact I.
Qed.

Lemma cache_clear_refs s : refs_ok s -> refs_ok (exec cache_clear s).
Proof.
  intros (Hr & Hh & Hc). rewrite cache_clear_exec. unfold refs_ok. simpl.
  rewrite heap_wr_length. split; [exact Hr|]. split; [|constructor].
  apply heap_ok_wr; [exact Hh|]. intros _. split; exact Hr.
Qed.

Lemma reachable_refs maxsize typed f s : reachable maxsize typed f s -> refs_ok s.
Proof.
  induction 1.
  - unfold refs_ok, heap_ok, link_ok. simpl. repeat constructor.
  - apply wrapper_refs. assumption.
  - apply cache_clear_refs. assumption.
Qed.

(** ** Clearing *)

Lemma fresh_call_is_miss maxsize typed f args kwds s :
  cache s = [] -> HITS s = 0%nat -> MISSES s = 0%nat ->
  HITS (exec (wrapper maxsize typed f args kwds) s) = 0%nat /\
  (is_Ok (result_of (wrapper maxsize typed f args kwds) s) = true ->
   MISSES (exec (wrapper maxsize typed f args kwds) s) = 1%nat /\
   In (Call args kwds) (trace_of (wrapper maxsize typed f args kwds) s)).
Proof.
  intros Hc Hh Hm.
  destruct (wrapper_stats maxsize typed f args kwds s) as [Hs _]. cbv zeta in Hs.
  assert (H : HITS (exec (wrapper maxsize typed f args kwds) s) = 0%nat /\
              (is_Ok (result_of (wrapper maxsize typed f args kwds) s) = true ->
               In (Call args kwds) (trace_of (wrapper maxsize typed f args kwds) s))).
  { unfold exec, result_of, trace_of, wrapper.
    assert (Hb : forall bound,
       HITS (snd (fst (wrapper_bounded typed f bound args kwds s))) = 0%nat /\
       (is_Ok (fst (fst (wrapper_bounded typed f bound args kwds s))) = true ->
        In (Call args kwds) (snd (wrapper_bounded typed f bound args kwds s)))).
    { intros bound. rewrite wrapper_bounded_eq.
      destruct (wrapper_key typed args kwds) as [k|]; [|simpl; split; [exact Hh|discriminate]].
      unfold dict_get. rewrite Hc.
      destruct (key_hash k) as [h|] eqn:Ek; [|simpl; split; [exact Hh|discriminate]].
      simpl dict_find. cbv iota.
      destruct (f args kwds) as [v|]; [|simpl; split; [exact Hh|discriminate]].
      cbn [fst snd]. split; [|simpl; auto].
      destruct (commit_stats bound k v s) as [-> _]; [rewrite Ek; reflexivity|exact Hh]. }
    destruct maxsize as [[|p|p]|]; try apply Hb.
    - rewrite wrapper_disabled_eq. destruct (f args kwds); simpl; auto.
    - rewrite wrapper_unbounded_eq.
      destruct (_make_key args kwds typed) as [k|]; [|simpl; split; [exact Hh|discriminate]].
      rewrite Hc. simpl dict_find. cbv iota.
      destruct (f args kwds); simpl; auto. }
  destruct H as [H1 H2]. split; [exact H1|].
  intros Hok. split; [|exact (H2 Hok)]. rewrite Hok in Hs. lia.
Qed.

(** C7: after [cache_clear] the reported hits, misses and size are 0 and
    the reported [maxsize] is the configured one; the root link points to
    itself with empty key and result; the dictionary is empty, so that
    every call made next, whatever was cached before, invokes the
    computation and is the first miss.  ([typed] is a captured variable
    of the closures and no part of the mutable state.) *)
Theorem C7_clear_resets
    (maxsize : option Z) (typed : bool)
    (f : list value -> kwargs -> outcome value) (s : state) :
  reachable maxsize typed f s ->
  let s' := exec cache_clear s in
  let root := nonlocal_root s' in
  result_of (cache_info maxsize) s' = Ok (CacheInfo.Make 0 0 maxsize 0) /\
  heap s' !!! root = Link root root (KVal VNone) VNone /\
  cache s' = [] /\
  forall args kwds,
    HITS (exec (wrapper maxsize typed f args kwds) s') = 0%nat /\
    (is_Ok (result_of (wrapper maxsize typed f args kwds) s') = true ->
     MISSES (exec (wrapper maxsize typed f args kwds) s') = 1%nat /\
     In (Call args kwds) (trace_of (wrapper maxsize typed f args kwds) s')).
Proof.
  intros Hr s' root. apply reachable_refs in Hr as (Hroot & _ & _).
  split; [reflexivity|]. split; [|split; [reflexivity|]].
  - subst s' root. rewrite cache_clear_exec. simpl. unfold heap_wr.
    apply list_lookup_total_insert_eq. exact Hroot.
  - intros args kwds. apply fresh_call_is_miss; reflexivity.
Qed.

Lemma C7_witness :
  let f : list value -> kwargs -> outcome value := fun args _ => Ok (VTuple args) in
  let s := exec (wrapper (Some 2) false f [VInt 2] [])
             (exec (wrapper (Some 2) false f [VInt 1] []) initial_state) in
  let s' := exec cache_clear s in
  let root := nonlocal_root s' in
  result_of (cache_info (Some 2)) s' = Ok (CacheInfo.Make 0 0 (Some 2) 0) /\
  heap s' !!! root = Link root root (KVal VNone) VNone /\
  cache s' = [] /\
  forall args kwds,
    HITS (exec (wrapper (Some 2) false f args kwds) s') = 0%nat /\
    (is_Ok (result_of (wrapper (Some 2) false f args kwds) s') = true ->
     MISSES (exec (wrapper (Some 2) false f args kwds) s') = 1%nat /\
     In (Call args kwds) (trace_of (wrapper (Some 2) false f args kwds) s')).
Proof.
  intros f s.
  apply (C7_clear_resets (Some 2) false f s).
  apply reach_call, reach_call, reach_init.
Defined.

(** ** Reading a heap after a write *)

Lemma heap_wr_ne f a h x : x <> a -> heap_wr f a h !!! x = h !!! x.
Proof. intros H. unfold heap_wr. apply list_lookup_total_insert_ne. congruence. Qed.

Lemma heap_wr_eq f a h : (a < length h)%nat -> heap_wr f a h !!! a = f (h !!! a).
Proof. intros H. unfold heap_wr. apply list_lookup_total_insert_eq. exact H. Qed.

(** A write that keeps a field keeps it at every address. *)
Lemma heap_wr_field {A} (g : link -> A) f a h x :
  (forall l, g (f l) = g l) -> g (heap_wr f a h !!! x) = g (h !!! x).
Proof.
  intros Hf. destruct (decide (x = a)) as [->|Hne]; [|rewrite heap_wr_ne; auto].
  destruct (decide (a < length h)%nat) as [Ha|Ha].
  - rewrite heap_wr_eq by exact Ha. apply Hf.
  - unfold heap_wr. rewrite list_insert_ge by lia. reflexivity.
Qed.

Lemma NEXT_wr_NEXT v a h x :
  (a < length h)%nat ->
  NEXT (heap_wr (upd_NEXT v) a h !!! x) = if decide (x = a) then v else NEXT (h !!! x).
Proof.
  intros Ha. destruct (decide (x = a)) as [->|Hne].
  - rewrite heap_wr_eq by exact Ha. reflexivity.
  - rewrite heap_wr_ne by exact Hne. reflexivity.
Qed.

Lemma PREV_wr_PREV v a h x :
  (a < length h)%nat ->
  PREV (heap_wr (upd_PREV v) a h !!! x) = if decide (x = a) then v else PREV (h !!! x).
Proof.
  intros Ha. destruct (decide (x = a)) as [->|Hne].
  - rewrite heap_wr_eq by exact Ha. reflexivity.
  - rewrite heap_wr_ne by exact Hne. reflexivity.
Qed.

Lemma KEY_wr_KEY v a h x :
  (a < length h)%nat ->
  KEY (heap_wr (upd_KEY v) a h !!! x) = if decide (x = a) then v else KEY (h !!! x).
Proof.
  intros Ha. destruct (decide (x = a)) as [->|Hne].
  - rewrite heap_wr_eq by exact Ha. reflexivity.
  - rewrite heap_wr_ne by exact Hne. reflexivity.
Qed.

Lemma NEXT_wr_PREV v a h x : NEXT (heap_wr (upd_PREV v) a h !!! x) = NEXT (h !!! x).
Proof. apply (heap_wr_field NEXT). reflexivity. Qed.
Lemma NEXT_wr_KEY v a h x : NEXT (heap_wr (upd_KEY v) a h !!! x) = NEXT (h !!! x).
Proof. apply (heap_wr_field NEXT). reflexivity. Qed.
Lemma NEXT_wr_RESULT v a h x : NEXT (heap_wr (upd_RESULT v) a h !!! x) = NEXT (h !!! x).
Proof. apply (heap_wr_field NEXT). reflexivity. Qed.
Lemma PREV_wr_NEXT v a h x : PREV (heap_wr (upd_NEXT v) a h !!! x) = PREV (h !!! x).
Proof. apply (heap_wr_field PREV). reflexivity. Qed.
Lemma PREV_wr_KEY v a h x : PREV (heap_wr (upd_KEY v) a h !!! x) = PREV (h !!! x).
Proof. apply (heap_wr_field PREV). reflexivity. Qed.
Lemma PREV_wr_RESULT v a h x : PREV (heap_wr (upd_RESULT v) a h !!! x) = PREV (h !!! x).
Proof. apply (heap_wr_field PREV). reflexivity. Qed.
Lemma KEY_wr_NEXT v a h x : KEY (heap_wr (upd_NEXT v) a h !!! x) = KEY (h !!! x).
Proof. apply (heap_wr_field KEY). reflexivity. Qed.
Lemma KEY_wr_PREV v a h x : KEY (heap_wr (upd_PREV v) a h !!! x) = KEY (h !!! x).
Proof. apply (heap_wr_field KEY). reflexivity. Qed.
Lemma KEY_wr_RESULT v a h x : KEY (heap_wr (upd_RESULT v) a h !!! x) = KEY (h !!! x).
Proof. apply (heap_wr_field KEY). reflexivity. Qed.

Lemma lookup_alloc_old (h : list link) l x :
  (x < length h)%nat -> (h ++ [l]) !!! x = h !!! x.
Proof. intros H. apply lookup_total_app_l. exact H. Qed.

Lemma lookup_alloc_new (h : list link) l : (h ++ [l]) !!! length h = l.
Proof.
  rewrite lookup_total_app_r by lia. rewrite Nat.sub_diag. reflexivity.
Qed.

(** ** Chains of links *)

Lemma lastof_cons a x l : lastof a (x :: l) = lastof x l.
Proof.
  unfold lastof. revert a x. induction l as [|y l IH]; intros a x; [reflexivity|].
  change (List.last (x :: y :: l) a) with (List.last (y :: l) a).
  rewrite (IH a y), (IH x y). reflexivity.
Qed.

Lemma lastof_app a l x : lastof a (l ++ [x]) = x.
Proof. unfold lastof. apply last_last. Qed.

Lemma lastof_app_cons a l1 x l2 : lastof a (l1 ++ x :: l2) = lastof x l2.
Proof.
  revert a. induction l1 as [|y l1 IH]; intros a; cbn [app].
  - apply lastof_cons.
  - rewrite lastof_cons. apply IH.
Qed.

Lemma lastof_In a l : lastof a l ∈ a :: l.
Proof.
  revert a. induction l as [|x l IH]; intros a.
  - left.
  - rewrite lastof_cons. right. apply IH.
Qed.

Lemma sources_In a l x : x ∈ sources a l -> x ∈ a :: l.
Proof.
  revert a. induction l as [|y l IH]; intros a; simpl.
  - intros H. inversion H.
  - intros H. apply elem_of_cons in H as [->|H]; [left|right; apply IH, H].
Qed.

Lemma sources_snoc a l z : sources a (l ++ [z]) = a :: l.
Proof.
  revert a. induction l as [|y l IH]; intros a; simpl; [reflexivity|].
  rewrite IH. reflexivity.
Qed.

Lemma sources_app a l1 x l2 :
  sources a (l1 ++ x :: l2) = (a :: l1) ++ sources x l2.
Proof.
  revert a. induction l1 as [|y l1 IH]; intros a; simpl; [reflexivity|].
  rewrite IH. reflexivity.
Qed.

Lemma sources_not_last a l : NoDup (a :: l) -> lastof a l ∉ sources a l.
Proof.
  revert a. induction l as [|x l IH]; intros a Hnd; cbn [sources].
  - intros H. inversion H.
  - rewrite lastof_cons. apply NoDup_cons in Hnd as [Ha Hnd].
    intros H. apply elem_of_cons in H as [H|H].
    + apply Ha. rewrite <- H. apply lastof_In.
    + exact (IH x Hnd H).
Qed.

Lemma path_app h a l1 x l2 :
  path h a (l1 ++ x :: l2) <->
  path h a l1 /\ linked h (lastof a l1) x /\ path h x l2.
Proof.
  revert a. induction l1 as [|y l1 IH]; intros a; cbn [app path].
  - unfold lastof. simpl. tauto.
  - rewrite lastof_cons, IH. tauto.
Qed.

Lemma path_snoc h a l x :
  path h a (l ++ [x]) <-> path h a l /\ linked h (lastof a l) x.
Proof. rewrite path_app. simpl. tauto. Qed.

(** A chain only depends on the [NEXT] of its sources and the [PREV] of
    its targets. *)
Lemma path_ext h h' a l :
  (forall x, x ∈ sources a l -> NEXT (h' !!! x) = NEXT (h !!! x)) ->
  (forall y, y ∈ l -> PREV (h' !!! y) = PREV (h !!! y)) ->
  path h a l -> path h' a l.
Proof.
  revert a. induction l as [|x l IH]; intros a Hn Hp; simpl; [auto|].
  intros [[H1 H2] H3]. split.
  - split.
    + rewrite Hn by (simpl; left). exact H1.
    + rewrite Hp by left. exact H2.
  - apply IH; [| |exact H3].
    + intros z Hz. apply Hn. simpl. right. exact Hz.
    + intros z Hz. apply Hp. right. exact Hz.
Qed.

Lemma walk_path h a l :
  path h a l -> walk h (NEXT (h !!! a)) (length l) = map (fun x => KEY (h !!! x)) l.
Proof.
  revert a. induction l as [|x l IH]; intros a; simpl; [reflexivity|].
  intros [[H1 _] H2]. rewrite H1. f_equal. apply IH, H2.
Qed.

(** ** The blocks of the bounded wrapper as state transformers *)

Lemma move_to_front_exec a s :
  exec (move_to_front a) s =
  State (cache s) (S (HITS s)) (MISSES s)
        (relink a (nonlocal_root s) (heap s)) (nonlocal_root s).
Proof. reflexivity. Qed.

Lemma append_link_exec k v s :
  is_Ok (key_hash k) = true ->
  append_link (nonlocal_root s) k v s =
  (Ok tt,
   State (dict_store k (OLink (length (heap s))) (cache s)) (HITS s) (MISSES s)
         (append_heap (nonlocal_root s) k v (heap s)) (nonlocal_root s),
   []).
Proof.
  intros Hk. unfold append_link. unfold_M. simpl.
  rewrite (dict_set_hashable _ _ _ Hk). reflexivity.
Qed.

Lemma evict_and_reuse_exec k v s d :
  is_Ok (key_hash k) = true ->
  dict_del (evict_oldkey (nonlocal_root s) k v (heap s)) (cache s) = Ok d ->
  evict_and_reuse (nonlocal_root s) k v s =
  (Ok tt,
   State (dict_store k (OLink (nonlocal_root s)) d) (HITS s) (MISSES s)
         (evict_heap (nonlocal_root s) k v (heap s))
         (NEXT (heap s !!! nonlocal_root s)),
   []).
Proof.
  intros Hk Hd. unfold evict_and_reuse. unfold_M. simpl.
  unfold evict_oldkey in Hd. cbv zeta in Hd. rewrite Hd. simpl.
  rewrite (dict_set_hashable _ _ _ Hk). simpl.
  unfold set_cache, evict_heap. simpl.
  rewrite NEXT_wr_RESULT, NEXT_wr_KEY. reflexivity.
Qed.

Lemma relink_length a root h : length (relink a root h) = length h.
Proof. unfold relink. cbv zeta. rewrite !heap_wr_length. reflexivity. Qed.

Lemma append_heap_length root k v h : length (append_heap root k v h) = S (length h).
Proof.
  unfold append_heap. cbv zeta. rewrite !heap_wr_length, length_app. simpl. lia.
Qed.

Lemma evict_heap_length root k v h : length (evict_heap root k v h) = length h.
Proof. unfold evict_heap. cbv zeta. rewrite !heap_wr_length. reflexivity. Qed.

Lemma relink_KEY a root h x : KEY (relink a root h !!! x) = KEY (h !!! x).
Proof.
  unfold relink. cbv zeta.
  repeat (rewrite KEY_wr_NEXT || rewrite KEY_wr_PREV). reflexivity.
Qed.

Lemma ring_ext h h' root order :
  (forall x, NEXT (h' !!! x) = NEXT (h !!! x)) ->
  (forall x, PREV (h' !!! x) = PREV (h !!! x)) ->
  ring h root order -> ring h' root order.
Proof.
  intros Hn Hp [H1 [H2 H3]]. split; [|split].
  - eapply path_ext; [| |exact H1]; auto.
  - rewrite Hn. exact H2.
  - rewrite Hp. exact H3.
Qed.

Lemma ring_last h root order : ring h root order -> PREV (h !!! root) = lastof root order.
Proof. intros [_ [_ H]]. exact H. Qed.

(** Evicting turns the ring by one link: the first link becomes the root
    and the old root the last link. *)
Lemma evict_ring h root x rest k v :
  ring h root (x :: rest) ->
  ring (evict_heap root k v h) x (rest ++ [root]).
Proof.
  intros [[Hrx Hp] Hl]. rewrite lastof_cons in Hl.
  apply (ring_ext h).
  - intros y. unfold evict_heap. cbv zeta. repeat (rewrite NEXT_wr_RESULT || rewrite NEXT_wr_KEY). reflexivity.
  - intros y. unfold evict_heap. cbv zeta. repeat (rewrite PREV_wr_RESULT || rewrite PREV_wr_KEY). reflexivity.
  - split.
    + apply path_snoc. split; assumption.
    + rewrite lastof_app. exact Hrx.
Qed.

(** Appending puts the new link between the last link and the root. *)
Lemma append_ring h root order k v :
  Forall (fun a => (a < length h)%nat) (root :: order) ->
  NoDup (root :: order) ->
  ring h root order ->
  ring (append_heap root k v h) root (order ++ [length h]).
Proof.
  intros Hv Hnd Hr. pose proof (ring_last _ _ _ Hr) as Hlast.
  destruct Hr as [Hp Hl].
  assert (Hroot : (root < length h)%nat) by (inversion Hv; assumption).
  assert (Hlastv : (lastof root order < length h)%nat).
  { rewrite Forall_forall in Hv. apply Hv, lastof_In. }
  unfold append_heap. cbv zeta. rewrite Hlast.
  set (n := length h) in *.
  set (h0 := h ++ [Link (lastof root order) root k v]).
  assert (Hlen0 : length h0 = S n) by (subst h0; rewrite length_app; simpl; lia).
  set (h' := heap_wr (upd_PREV n) root (heap_wr (upd_NEXT n) (lastof root order) h0)).
  assert (HN : forall x, NEXT (h' !!! x) =
                 if decide (x = lastof root order) then n else NEXT (h0 !!! x)).
  { intros x. subst h'. rewrite NEXT_wr_PREV.
    rewrite NEXT_wr_NEXT by (rewrite Hlen0; lia). reflexivity. }
  assert (HP : forall x, PREV (h' !!! x) =
                 if decide (x = root) then n else PREV (h0 !!! x)).
  { intros x. subst h'.
    rewrite PREV_wr_PREV by (rewrite heap_wr_length, Hlen0; lia).
    rewrite PREV_wr_NEXT. reflexivity. }
  assert (Hnew : h0 !!! n = Link (lastof root order) root k v)
    by apply lookup_alloc_new.
  split.
  - apply path_snoc. split.
    + eapply path_ext; [| |exact Hp].
      * intros x Hx. rewrite HN. case_decide as Hd.
        { exfalso. subst x. exact (sources_not_last _ _ Hnd Hx). }
        unfold h0. rewrite lookup_alloc_old; [reflexivity|].
        rewrite Forall_forall in Hv. apply Hv, sources_In, Hx.
      * intros y Hy. rewrite HP. case_decide as Hd.
        { exfalso. subst y. apply NoDup_cons in Hnd as [Hn _]. exact (Hn Hy). }
        unfold h0. rewrite lookup_alloc_old; [reflexivity|].
        rewrite Forall_forall in Hv. apply Hv. right. exact Hy.
    + split.
      * rewrite HN, decide_True by reflexivity. reflexivity.
      * rewrite HP, decide_False by lia. unfold h0, n. rewrite lookup_alloc_new. reflexivity.
  - rewrite lastof_app. split.
    + rewrite HN, decide_False by lia. unfold h0, n. rewrite lookup_alloc_new. reflexivity.
    + rewrite HP, decide_True by reflexivity. reflexivity.
Qed.

Lemma append_heap_KEY root k v h x :
  KEY (append_heap root k v h !!! x) =
  if decide (x = length h) then k
  else KEY (h !!! x).
Proof.
  unfold append_heap. cbv zeta. rewrite KEY_wr_PREV, KEY_wr_NEXT.
  destruct (decide (x = length h)) as [->|Hne].
  - rewrite lookup_alloc_new. reflexivity.
  - destruct (decide (x < length h)%nat).
    + rewrite lookup_alloc_old by assumption. reflexivity.
    + rewrite !list_lookup_total_alt, !lookup_ge_None_2; try lia; [reflexivity|].
      rewrite length_app. simpl. lia.
Qed.

(** ** Moving a link to the front *)

(** The pointers of the heap after [move_to_front a], in closed form. *)
Lemma relink_fields a root h :
  let P := PREV (h !!! a) in
  let N := NEXT (h !!! a) in
  let L := if decide (root = N) then P else PREV (h !!! root) in
  (a < length h)%nat -> (root < length h)%nat ->
  (P < length h)%nat -> (N < length h)%nat -> (L < length h)%nat ->
  forall x,
    NEXT (relink a root h !!! x) =
      (if decide (x = a) then root
       else if decide (x = L) then a
       else if decide (x = P) then N
       else NEXT (h !!! x)) /\
    PREV (relink a root h !!! x) =
      (if decide (x = a) then L
       else if decide (x = root) then a
       else if decide (x = N) then P
       else PREV (h !!! x)).
Proof.
  intros P N L Ha Hr HP HN HL x.
  unfold relink. cbv zeta.
  change (PREV (h !!! a)) with P. change (NEXT (h !!! a)) with N.
  assert (EL : PREV (heap_wr (upd_PREV P) N (heap_wr (upd_NEXT N) P h) !!! root) = L).
  { rewrite PREV_wr_PREV by (rewrite heap_wr_length; exact HN).
    rewrite PREV_wr_NEXT. reflexivity. }
  rewrite EL. split.
  - rewrite NEXT_wr_NEXT by (rewrite !heap_wr_length; exact Ha).
    rewrite NEXT_wr_PREV, NEXT_wr_PREV.
    rewrite NEXT_wr_NEXT by (rewrite !heap_wr_length; exact HL).
    rewrite NEXT_wr_PREV.
    rewrite NEXT_wr_NEXT by exact HP. reflexivity.
  - rewrite PREV_wr_NEXT.
    rewrite PREV_wr_PREV by (rewrite !heap_wr_length; exact Ha).
    rewrite PREV_wr_PREV by (rewrite !heap_wr_length; exact Hr).
    rewrite PREV_wr_NEXT.
    rewrite PREV_wr_PREV by (rewrite !heap_wr_length; exact HN).
    rewrite PREV_wr_NEXT. reflexivity.
Qed.

Lemma relink_ring h root l1 a l2 :
  Forall (fun x => (x < length h)%nat) (root :: l1 ++ a :: l2) ->
  NoDup (root :: l1 ++ a :: l2) ->
  ring h root (l1 ++ a :: l2) ->
  ring (relink a root h) root (l1 ++ l2 ++ [a]).
Proof.
  intros Hv Hnd [Hp Hl].
  apply path_app in Hp as (Hp1 & [HPa1 HPa2] & Hp2).
  rewrite lastof_app_cons in Hl.
  rewrite Forall_forall in Hv.
  pose proof (lastof_In root l1) as HPin.
  assert (Hnd' := Hnd).
  apply NoDup_cons in Hnd' as [Hr1 Hnd2].
  apply NoDup_app in Hnd2 as (Hn1 & Hd12 & Hnd3).
  apply NoDup_cons in Hnd3 as [Ha2 Hn2].
  assert (Hnr1 : NoDup (root :: l1)).
  { apply NoDup_cons. split; [clear -Hr1; set_solver|exact Hn1]. }
  pose proof (sources_not_last root l1 Hnr1) as HPsrc.
  assert (Hva : (a < length h)%nat) by (apply Hv; clear; set_solver).
  assert (Hvr : (root < length h)%nat) by (apply Hv; clear; set_solver).
  assert (HvP : (lastof root l1 < length h)%nat).
  { apply Hv. clear -HPin. set_solver. }
  assert (In1 : forall x, x ∈ root :: l1 -> x <> a) by (clear -Hr1 Hd12; set_solver).
  assert (In1r : forall x, x ∈ l1 -> x <> root) by (clear -Hr1; set_solver).
  assert (Src1 : forall x, x ∈ sources root l1 -> x <> lastof root l1 /\ x <> a).
  { intros x Hx. split; [congruence|]. apply In1, sources_In, Hx. }
  pose proof (In1 _ HPin) as HPa. pose proof (In1 root ltac:(left)) as Hra.
  pose proof (relink_fields a root h) as F. cbv zeta in F. rewrite HPa2 in F.
  destruct l2 as [|y l2'].
  - (* [a] is already the last link *)
    destruct Hl as [Hl1 Hl2]. unfold lastof in Hl1, Hl2. simpl in Hl1, Hl2.
    rewrite Hl1 in F. rewrite decide_True in F by reflexivity.
    specialize (F Hva Hvr HvP Hvr HvP).
    simpl app. split.
    + apply path_snoc. split.
      * eapply path_ext; [| |exact Hp1].
        -- intros x Hx. rewrite (proj1 (F x)). destruct (Src1 x Hx).
           repeat case_decide; congruence.
        -- intros x Hx. rewrite (proj2 (F x)).
           pose proof (In1r x Hx). pose proof (In1 x ltac:(right; exact Hx)).
           repeat case_decide; congruence.
      * split.
        -- rewrite (proj1 (F _)). repeat case_decide; congruence.
        -- rewrite (proj2 (F _)). repeat case_decide; congruence.
    + rewrite lastof_app. split.
      * rewrite (proj1 (F _)). repeat case_decide; congruence.
      * rewrite (proj2 (F _)). repeat case_decide; congruence.
  - (* [a] has a successor [y] in the list *)
    destruct Hp2 as [[Hay1 Hay2] Hp2].
    rewrite lastof_cons in Hl. destruct Hl as [Hl1 Hl2].
    pose proof (lastof_In y l2') as HZin.
    pose proof (sources_not_last y l2' Hn2) as HZsrc.
    assert (In2 : forall x, x ∈ y :: l2' -> x <> a /\ x <> root /\ x <> lastof root l1).
    { clear -Hr1 Hd12 Ha2 HPin. intros x Hx. repeat split.
      - set_solver.
      - set_solver.
      - intros ->. apply elem_of_cons in HPin as [E|E].
        + rewrite E in Hx. set_solver.
        + exact (Hd12 _ E ltac:(right; exact Hx)). }
    assert (In12 : forall x z, x ∈ root :: l1 -> z ∈ y :: l2' -> x <> z).
    { clear -Hr1 Hd12. set_solver. }
    assert (In2y : forall x, x ∈ l2' -> x <> y).
    { clear -Hn2. apply NoDup_cons in Hn2 as [H _]. set_solver. }
    destruct (In2 y ltac:(left)) as (Hya & Hyr & HyP).
    destruct (In2 _ HZin) as (HZa & HZr & HZP).
    rewrite Hay1 in F. rewrite decide_False in F by congruence.
    rewrite Hl2 in F.
    assert (Hvy : (y < length h)%nat) by (apply Hv; clear; set_solver).
    assert (HvZ : (lastof y l2' < length h)%nat).
    { apply Hv. right. apply elem_of_app. right. right. exact HZin. }
    specialize (F Hva Hvr HvP Hvy HvZ).
    split.
    + apply path_app. split; [|split].
      * eapply path_ext; [| |exact Hp1].
        -- intros x Hx. rewrite (proj1 (F x)). destruct (Src1 x Hx).
           pose proof (In12 x _ (sources_In _ _ _ Hx) HZin).
           repeat case_decide; congruence.
        -- intros x Hx. rewrite (proj2 (F x)).
           pose proof (In1r x Hx). pose proof (In1 x ltac:(right; exact Hx)).
           pose proof (In12 x y ltac:(right; exact Hx) ltac:(left)).
           repeat case_decide; congruence.
      * split.
        -- rewrite (proj1 (F _)). repeat case_decide; congruence.
        -- rewrite (proj2 (F _)). repeat case_decide; congruence.
      * apply path_snoc. split.
        -- eapply path_ext; [| |exact Hp2].
           ++ intros x Hx. rewrite (proj1 (F x)).
              destruct (In2 x (sources_In _ _ _ Hx)) as (? & ? & ?).
              assert (x <> lastof y l2') by congruence.
              repeat case_decide; congruence.
           ++ intros x Hx. rewrite (proj2 (F x)).
              destruct (In2 x ltac:(right; exact Hx)) as (? & ? & ?).
              pose proof (In2y x Hx).
              repeat case_decide; congruence.
        -- split.
           ++ rewrite (proj1 (F _)). repeat case_decide; congruence.
           ++ rewrite (proj2 (F _)). repeat case_decide; congruence.
    + change (l1 ++ (y :: l2') ++ [a]) with (l1 ++ y :: (l2' ++ [a])).
      rewrite lastof_app_cons, lastof_app. split.
      * rewrite (proj1 (F _)). repeat case_decide; congruence.
      * rewrite (proj2 (F _)). repeat case_decide; congruence.
Qed.

(** ** Dictionaries with well-formed keys *)

Lemma touches_false k ks :
  touches k ks = false <-> forall k', k' ∈ ks -> key_match k' k = false.
Proof.
  unfold touches. induction ks as [|x ks IH]; simpl.
  - split; [intros _ k' H; inversion H|auto].
  - rewrite orb_false_iff, IH. split.
    + intros [H1 H2] k' Hk. apply elem_of_cons in Hk as [->|Hk]; auto.
    + intros H. split; [apply H; left|]. intros k' Hk. apply H. right. exact Hk.
Qed.

Lemma touches_true k ks :
  touches k ks = true <-> exists k', k' ∈ ks /\ key_match k' k = true.
Proof.
  unfold touches. induction ks as [|x ks IH]; simpl.
  - split; [discriminate|]. intros (k' & H & _). inversion H.
  - rewrite orb_true_iff, IH. split.
    + intros [H|(k' & H1 & H2)]; [exists x; split; [left|exact H]|].
      exists k'. split; [right; exact H1|exact H2].
    + intros (k' & H1 & H2). apply elem_of_cons in H1 as [->|H1]; [auto|].
      right. eauto.
Qed.

Lemma touches_Permutation k ks ks' : ks ≡ₚ ks' -> touches k ks = touches k ks'.
Proof.
  intros Hp. destruct (touches k ks') eqn:E.
  - apply touches_true in E as (k' & H1 & H2). apply touches_true.
    exists k'. split; [rewrite Hp; exact H1|exact H2].
  - apply touches_false. intros k' Hk. rewrite Hp in Hk.
    revert k' Hk. apply touches_false, E.
Qed.

Lemma dict_find_touches {V} k (d : dict V) :
  dict_find k d = None <-> touches k (map fst d) = false.
Proof.
  unfold touches. induction d as [|[k' v] d IH]; simpl; [tauto|].
  destruct (key_match k' k); simpl; [split; discriminate|exact IH].
Qed.

Lemma dict_store_new {V} k v (d : dict V) :
  dict_find k d = None -> dict_store k v d = d ++ [(k, v)].
Proof.
  induction d as [|[k' v'] d IH]; simpl; [reflexivity|].
  destruct (key_match k' k); [discriminate|]. intros H. rewrite IH by exact H. reflexivity.
Qed.

Lemma keys_wf_Permutation ks ks' : ks ≡ₚ ks' -> keys_wf ks -> keys_wf ks'.
Proof.
  intros Hp (H1 & H2 & H3). split; [|split].
  - rewrite <- Hp. exact H1.
  - intros k Hk. apply H2. rewrite Hp. exact Hk.
  - intros k k' Hk Hk'. apply H3; rewrite Hp; assumption.
Qed.

Lemma keys_wf_nil : keys_wf [].
Proof.
  split; [constructor|]. split; [intros k H; inversion H|intros k k' H; inversion H].
Qed.

Lemma keys_wf_cons_inv k ks : keys_wf (k :: ks) -> keys_wf ks.
Proof.
  intros (H1 & H2 & H3). apply NoDup_cons in H1 as [_ H1]. split; [exact H1|]. split.
  - intros x Hx. apply H2. right. exact Hx.
  - intros x y Hx Hy. apply H3; right; assumption.
Qed.

Lemma keys_wf_snoc k ks :
  keys_wf ks -> is_Ok (key_hash k) = true -> touches k ks = false ->
  keys_wf (ks ++ [k]).
Proof.
  intros (H1 & H2 & H3) Hk Ht. rewrite touches_false in Ht.
  assert (Hn : k ∉ ks).
  { intros Hin. specialize (Ht k Hin). rewrite key_match_refl in Ht by exact Hk. discriminate. }
  split; [|split].
  - apply NoDup_app. split; [exact H1|]. split; [|apply NoDup_singleton].
    intros x Hx Hx'. apply list_elem_of_singleton in Hx'. subst x. exact (Hn Hx).
  - intros x Hx. apply elem_of_app in Hx as [Hx|Hx]; [auto|].
    apply list_elem_of_singleton in Hx. subst x. exact Hk.
  - intros x y Hx Hy Hm.
    apply elem_of_app in Hx as [Hx|Hx]; apply elem_of_app in Hy as [Hy|Hy];
      rewrite ?list_elem_of_singleton in *; subst; auto.
    + rewrite (Ht x Hx) in Hm. discriminate.
    + rewrite key_match_sym, (Ht y Hy) in Hm. discriminate.
Qed.

Lemma elem_of_map {A B} (g : A -> B) (l : list A) x : x ∈ l -> g x ∈ map g l.
Proof. rewrite !list_elem_of_In. apply in_map. Qed.

Lemma elem_of_map_inv {A B} (g : A -> B) (l : list A) y :
  y ∈ map g l -> exists x, g x = y /\ x ∈ l.
Proof.
  rewrite list_elem_of_In, in_map_iff. intros (x & H1 & H2).
  exists x. split; [exact H1|]. apply list_elem_of_In. exact H2.
Qed.

Lemma dict_find_stored {V} (d : dict V) k0 v0 k :
  keys_wf (map fst d) -> (k0, v0) ∈ d -> key_match k0 k = true ->
  dict_find k d = Some v0.
Proof.
  induction d as [|[k' v'] d IH]; intros Hwf Hin Hm; [inversion Hin|].
  simpl. destruct (key_match k' k) eqn:E.
  - assert (k' = k0).
    { destruct Hwf as (_ & _ & H3). apply H3; [left| |].
      - apply (elem_of_map fst _ (k0, v0)). exact Hin.
      - eapply key_match_trans; [exact E|]. rewrite key_match_sym. exact Hm. }
    subst k'. apply elem_of_cons in Hin as [Hin|Hin]; [congruence|].
    exfalso. destruct Hwf as (Hnd & _). simpl in Hnd. apply NoDup_cons in Hnd as [Hn _].
    apply Hn. apply (elem_of_map fst _ (k0, v0)). exact Hin.
  - apply elem_of_cons in Hin as [Hin|Hin]; [congruence|].
    apply IH; [eapply keys_wf_cons_inv; exact Hwf|exact Hin|exact Hm].
Qed.

Lemma dict_remove_stored {V} (d : dict V) k0 v0 :
  keys_wf (map fst d) -> (k0, v0) ∈ d ->
  exists d', dict_remove k0 d = Some d' /\ d ≡ₚ (k0, v0) :: d'.
Proof.
  induction d as [|[k' v'] d IH]; intros Hwf Hin; [inversion Hin|].
  simpl. destruct (key_match k' k0) eqn:E.
  - assert (k' = k0).
    { destruct Hwf as (_ & _ & H3). apply H3; [left| |exact E].
      apply (elem_of_map fst _ (k0, v0)). exact Hin. }
    subst k'. apply elem_of_cons in Hin as [Hin|Hin].
    + injection Hin as <-. eexists. split; reflexivity.
    + exfalso. destruct Hwf as (Hnd & _). simpl in Hnd. apply NoDup_cons in Hnd as [Hn _].
      apply Hn. apply (elem_of_map fst _ (k0, v0)). exact Hin.
  - apply elem_of_cons in Hin as [Hin|Hin].
    + injection Hin as <- <-. destruct Hwf as (_ & H2 & _).
      rewrite key_match_refl in E; [discriminate|]. apply H2. left.
    + destruct (IH (keys_wf_cons_inv _ _ Hwf) Hin) as (d' & -> & Hp).
      eexists. split; [reflexivity|]. rewrite Hp. apply perm_swap.
Qed.

(** ** The representation invariant *)

Lemma lru_inv_length bound s order :
  lru_inv bound s order -> length (cache s) = length order.
Proof.
  intros H. rewrite (Permutation_length (inv_cache _ _ _ H)). apply length_map.
Qed.

(** Under the invariant the walk from the root reads the keys of
    [order], and these are the keys of the dictionary. *)
Lemma recency_inv bound s order :
  lru_inv bound s order ->
  recency s = map (fun a => KEY (heap s !!! a)) order /\
  map fst (cache s) ≡ₚ recency s.
Proof.
  intros H.
  assert (E : recency s = map (fun a => KEY (heap s !!! a)) order).
  { unfold recency. rewrite (lru_inv_length _ _ _ H).
    apply walk_path. apply (inv_ring _ _ _ H). }
  split; [exact E|]. rewrite E.
  rewrite (Permutation_map fst (inv_cache _ _ _ H)), map_map. reflexivity.
Qed.

Lemma lru_inv_init bound : 0 <= bound -> lru_inv bound initial_state [].
Proof.
  intros Hb. split; simpl.
  - repeat constructor.
  - apply NoDup_singleton.
  - split; [exact I|]. split; reflexivity.
  - reflexivity.
  - apply keys_wf_nil.
  - exact Hb.
Qed.

Lemma hit_inv bound s order k a :
  lru_inv bound s order ->
  dict_find k (cache s) = Some (OLink a) ->
  exists l1 l2,
    order = l1 ++ a :: l2 /\
    key_match (KEY (heap s !!! a)) k = true /\
    lru_inv bound (exec (move_to_front a) s) (l1 ++ l2 ++ [a]).
Proof.
  intros H Hf. apply dict_find_In in Hf as (k' & Hin & Hm).
  apply list_elem_of_In in Hin. rewrite (inv_cache _ _ _ H) in Hin.
  apply elem_of_map_inv in Hin as (a' & E & Ha). unfold entry_of in E.
  injection E as Ek ->. subst k'.
  apply list_elem_of_split in Ha as (l1 & l2 & ->).
  exists l1, l2. split; [reflexivity|]. split; [exact Hm|].
  assert (Hp : l1 ++ l2 ++ [a] ≡ₚ l1 ++ a :: l2).
  { apply Permutation_app_head. symmetry. apply Permutation_cons_append. }
  rewrite move_to_front_exec. destruct H as [Hv Hnd Hr Hc Hk Hs]. split; simpl.
  - rewrite relink_length. rewrite Hp. exact Hv.
  - rewrite Hp. exact Hnd.
  - apply relink_ring; assumption.
  - rewrite Hc, Hp. apply Permutation_refl'. apply map_ext. intros x.
    unfold entry_of. rewrite relink_KEY. reflexivity.
  - exact Hk.
  - exact Hs.
Qed.

Lemma append_inv bound s order k v :
  lru_inv bound s order ->
  is_Ok (key_hash k) = true ->
  dict_find k (cache s) = None ->
  Z.of_nat (length (cache s)) < bound ->
  lru_inv bound (exec (append_link (nonlocal_root s) k v) s)
          (order ++ [length (heap s)]).
Proof.
  intros H Hk Hf Hlt. unfold exec. rewrite (append_link_exec _ _ _ Hk). cbn [fst snd].
  rewrite (dict_store_new _ _ _ Hf).
  destruct H as [Hv Hnd Hr Hc Hkeys Hs].
  assert (Hall : forall x, x ∈ nonlocal_root s :: order -> (x < length (heap s))%nat).
  { apply Forall_forall. exact Hv. }
  split; simpl.
  - rewrite append_heap_length. apply Forall_cons. split; [specialize (Hall (nonlocal_root s) ltac:(left)); lia|].
    apply Forall_app. split; [|constructor; [lia|constructor]].
    apply Forall_forall. intros x Hx. specialize (Hall x ltac:(right; exact Hx)). lia.
  - rewrite app_comm_cons. apply NoDup_app. split; [exact Hnd|]. split; [|apply NoDup_singleton].
    intros x Hx Hx'. apply list_elem_of_singleton in Hx'. specialize (Hall x Hx). lia.
  - apply append_ring; assumption.
  - rewrite map_app. simpl. apply Permutation_app.
    + rewrite Hc. apply Permutation_refl'. apply map_ext_in. intros x Hx.
      unfold entry_of. rewrite append_heap_KEY. rewrite decide_False; [reflexivity|].
      apply list_elem_of_In in Hx. specialize (Hall x ltac:(right; exact Hx)). lia.
    + unfold entry_of. rewrite append_heap_KEY, decide_True by reflexivity. reflexivity.
  - rewrite map_app. simpl. apply keys_wf_snoc; [exact Hkeys|exact Hk|].
    apply dict_find_touches, Hf.
  - rewrite length_app. simpl. lia.
Qed.

Lemma evict_heap_KEY root k v h y :
  (root < length h)%nat -> (NEXT (h !!! root) < length h)%nat ->
  KEY (evict_heap root k v h !!! y) =
  if decide (y = NEXT (h !!! root)) then KVal VNone
  else if decide (y = root) then k
  else KEY (h !!! y).
Proof.
  intros Hr Hx. unfold evict_heap. cbv zeta.
  rewrite NEXT_wr_RESULT, NEXT_wr_KEY.
  rewrite KEY_wr_RESULT.
  rewrite KEY_wr_KEY by (rewrite !heap_wr_length; exact Hx).
  rewrite KEY_wr_RESULT.
  rewrite KEY_wr_KEY by exact Hr. reflexivity.
Qed.

Lemma evict_oldkey_eq root k v h :
  (root < length h)%nat -> NEXT (h !!! root) <> root ->
  evict_oldkey root k v h = KEY (h !!! NEXT (h !!! root)).
Proof.
  intros Hr Hne. unfold evict_oldkey. cbv zeta.
  rewrite NEXT_wr_RESULT, NEXT_wr_KEY, KEY_wr_RESULT.
  rewrite KEY_wr_KEY by exact Hr. rewrite decide_False by exact Hne. reflexivity.
Qed.

Lemma evict_inv bound s order k v :
  lru_inv bound s order ->
  is_Ok (key_hash k) = true ->
  dict_find k (cache s) = None ->
  1 <= bound ->
  bound <= Z.of_nat (length (cache s)) ->
  exists x rest d,
    order = x :: rest /\
    x = NEXT (heap s !!! nonlocal_root s) /\
    evict_oldkey (nonlocal_root s) k v (heap s) = KEY (heap s !!! x) /\
    dict_del (KEY (heap s !!! x)) (cache s) = Ok d /\
    d ≡ₚ map (entry_of (heap s)) rest /\
    lru_inv bound
      (State (dict_store k (OLink (nonlocal_root s)) d) (HITS s) (MISSES s)
             (evict_heap (nonlocal_root s) k v (heap s)) x)
      (rest ++ [nonlocal_root s]).
Proof.
  intros H Hk Hf Hb Hfull.
  pose proof (lru_inv_length _ _ _ H) as Hlen.
  destruct order as [|x rest]; [simpl in Hlen; lia|].
  destruct H as [Hv Hnd Hr Hc Hkeys Hs].
  assert (Hall : forall y, y ∈ nonlocal_root s :: x :: rest -> (y < length (heap s))%nat).
  { apply Forall_forall. exact Hv. }
  set (root := nonlocal_root s) in *.
  assert (Hx : NEXT (heap s !!! root) = x) by apply Hr.
  assert (Hxr : x <> root).
  { apply NoDup_cons in Hnd as [Hn _]. intros ->. apply Hn. left. }
  assert (Hvr : (root < length (heap s))%nat) by (apply Hall; left).
  assert (Hvx : (x < length (heap s))%nat) by (apply Hall; right; left).
  assert (Hin : (KEY (heap s !!! x), OLink x) ∈ cache s).
  { rewrite Hc. simpl. left. }
  destruct (dict_remove_stored _ _ _ Hkeys Hin) as (d & Hrem & Hperm).
  assert (Hd : d ≡ₚ map (entry_of (heap s)) rest).
  { apply (Permutation_cons_inv (a := (KEY (heap s !!! x), OLink x))).
    rewrite <- Hperm, Hc. reflexivity. }
  assert (Hkx : is_Ok (key_hash (KEY (heap s !!! x))) = true).
  { destruct Hkeys as (_ & H2 & _). apply H2.
    apply (elem_of_map fst _ _ Hin). }
  assert (Hsub : map fst (cache s) ≡ₚ KEY (heap s !!! x) :: map fst d).
  { rewrite (Permutation_map fst Hperm). reflexivity. }
  assert (Hkeysd : keys_wf (map fst d)).
  { eapply keys_wf_cons_inv. eapply keys_wf_Permutation; [exact Hsub|exact Hkeys]. }
  assert (Htd : touches k (map fst d) = false).
  { apply dict_find_touches in Hf. rewrite (touches_Permutation _ _ _ Hsub) in Hf.
    unfold touches in *. simpl in Hf. apply orb_false_iff in Hf as [_ Hf]. exact Hf. }
  exists x, rest, d. split; [reflexivity|]. split; [symmetry; exact Hx|].
  split; [rewrite evict_oldkey_eq, Hx; [reflexivity|exact Hvr|congruence]|].
  split.
  { unfold dict_del. destruct (key_hash (KEY (heap s !!! x))); [|discriminate Hkx].
    rewrite Hrem. reflexivity. }
  split; [exact Hd|].
  rewrite dict_store_new by (apply dict_find_touches; exact Htd).
  assert (HK : forall y, KEY (evict_heap root k v (heap s) !!! y) =
                 if decide (y = x) then KVal VNone
                 else if decide (y = root) then k else KEY (heap s !!! y)).
  { intros y. rewrite evict_heap_KEY by (rewrite ?Hx; assumption). rewrite Hx. reflexivity. }
  assert (Hp : x :: rest ++ [root] ≡ₚ root :: x :: rest).
  { rewrite app_comm_cons. symmetry. apply Permutation_cons_append. }
  split; simpl.
  - rewrite evict_heap_length, Hp. exact Hv.
  - rewrite Hp. exact Hnd.
  - apply evict_ring. exact Hr.
  - rewrite map_app. simpl. apply Permutation_app.
    + rewrite Hd. apply Permutation_refl'. apply map_ext_in. intros y Hy.
      unfold entry_of. rewrite HK.
      apply list_elem_of_In in Hy.
      assert (y <> x /\ y <> root) as [? ?].
      { clear -Hnd Hy. apply NoDup_cons in Hnd as [H1 H2].
        apply NoDup_cons in H2 as [H2 _]. set_solver. }
      rewrite !decide_False by assumption. reflexivity.
    + unfold entry_of. rewrite HK, decide_False by congruence.
      rewrite decide_True by reflexivity. reflexivity.
  - rewrite map_app. simpl. apply keys_wf_snoc; assumption.
  - rewrite length_app. simpl.
    rewrite (Permutation_length Hperm) in Hs. simpl in Hs. lia.
Qed.

Lemma lru_inv_incr_MISSES bound s order :
  lru_inv bound s order -> lru_inv bound (incr_MISSES s) order.
Proof. intros [? ? ? ? ? ?]. split; assumption. Qed.

Lemma touch_split k p k' q :
  keys_wf (p ++ k' :: q) -> key_match k' k = true ->
  touch k (p ++ k' :: q) = p ++ q ++ [k'].
Proof.
  intros Hwf Hm. induction p as [|x p IH]; simpl.
  - rewrite Hm. reflexivity.
  - destruct (key_match x k) eqn:E.
    + exfalso. destruct Hwf as (Hnd & _ & H3).
      assert (x = k').
      { apply H3; [left|right; apply elem_of_app; right; left|].
        eapply key_match_trans; [exact E|]. rewrite key_match_sym. exact Hm. }
      subst x. simpl in Hnd. apply NoDup_cons in Hnd as [Hn _].
      apply Hn. apply elem_of_app. right. left.
    + f_equal. apply IH. eapply keys_wf_cons_inv. exact Hwf.
Qed.

(** One call of the bounded wrapper keeps the invariant and moves the
    recency list as [recency_after] says. *)
Lemma bounded_call bound typed f args kwds s order :
  1 <= bound ->
  lru_inv bound s order ->
  let s' := exec (wrapper_bounded typed f bound args kwds) s in
  (exists order', lru_inv bound s' order') /\
  recency s' = recency_after bound typed f args kwds (recency s).
Proof.
  intros Hb H s'. subst s'. unfold exec, recency_after.
  rewrite wrapper_bounded_eq.
  destruct (wrapper_key typed args kwds) as [k|e]; [|cbn [fst snd]; eauto].
  unfold dict_get.
  destruct (key_hash k) as [hk|e] eqn:Ehk; [|cbn [fst snd is_Ok]; eauto].
  assert (Hk : is_Ok (key_hash k) = true) by (rewrite Ehk; reflexivity).
  cbn [is_Ok].
  destruct (recency_inv _ _ _ H) as [Erec Hperm].
  pose proof (lru_inv_length _ _ _ H) as Hlen.
  assert (Hwf : keys_wf (recency s)).
  { eapply keys_wf_Permutation; [exact Hperm|]. apply (inv_keys _ _ _ H). }
  destruct (dict_find k (cache s)) as [[v|a]|] eqn:Ef.
  - (* a stored result: excluded by the invariant *)
    exfalso. apply dict_find_In in Ef as (k' & Hin & _).
    apply list_elem_of_In in Hin. rewrite (inv_cache _ _ _ H) in Hin.
    apply elem_of_map_inv in Hin as (a' & E & _). discriminate.
  - (* hit *)
    destruct (hit_inv _ _ _ _ _ H Ef) as (l1 & l2 & -> & Hm & H').
    cbn [fst snd]. split; [eauto|].
    destruct (recency_inv _ _ _ H') as [-> _].
    assert (Ht : touches k (recency s) = true).
    { apply touches_true. exists (KEY (heap s !!! a)). split; [|exact Hm].
      rewrite Erec. apply (elem_of_map (fun a => KEY (heap s !!! a))).
      apply elem_of_app. right. left. }
    rewrite Ht. unfold lru_step. rewrite Ht.
    rewrite Erec in Hwf |- *. rewrite map_app in Hwf. simpl in Hwf.
    rewrite move_to_front_exec. simpl heap.
    rewrite !map_app. simpl map.
    rewrite (touch_split _ _ _ _ Hwf Hm).
    rewrite !(map_ext _ _ (relink_KEY a (nonlocal_root s) (heap s))).
    rewrite relink_KEY. reflexivity.
  - (* miss *)
    assert (Ht : touches k (recency s) = false).
    { rewrite <- (touches_Permutation _ _ _ Hperm). apply dict_find_touches, Ef. }
    rewrite Ht.
    destruct (f args kwds) as [v|e]; [|cbn [fst snd]; eauto].
    cbn [fst snd]. unfold exec. rewrite (commit_eq _ _ _ _ Hk), Ef. cbv zeta. cbn [fst snd].
    unfold lru_step. rewrite Ht.
    assert (Hlr : length (recency s) = length (cache s)).
    { rewrite Erec, length_map. symmetry. exact Hlen. }
    rewrite Hlr.
    destruct (Z.of_nat (length (cache s)) >=? bound) eqn:Efull.
    + (* the cache is full *)
      destruct (evict_inv _ _ _ k v H Hk Ef Hb ltac:(lia))
        as (x & rest & d & -> & Hx & Hold & Hdel & Hd & H').
      rewrite <- Hold in Hdel.
      unfold result_of, exec. rewrite (evict_and_reuse_exec _ _ _ _ Hk Hdel).
      cbn [fst snd after_miss]. rewrite <- Hx.
      split; [eexists; apply lru_inv_incr_MISSES; exact H'|].
      destruct (recency_inv _ _ _ (lru_inv_incr_MISSES _ _ _ H')) as [-> _].
      rewrite Erec. simpl. rewrite map_app. simpl.
      destruct H as [Hv Hnd Hr _ _ _].
      assert (Hall : forall y, y ∈ nonlocal_root s :: x :: rest ->
                               (y < length (heap s))%nat).
      { apply Forall_forall. exact Hv. }
      assert (HK : forall y, KEY (evict_heap (nonlocal_root s) k v (heap s) !!! y) =
                 if decide (y = x) then KVal VNone
                 else if decide (y = nonlocal_root s) then k else KEY (heap s !!! y)).
      { intros y. rewrite evict_heap_KEY; rewrite <- ?Hx; [reflexivity| |];
          apply Hall; [left|right; left]. }
      f_equal.
      * apply map_ext_in. intros y Hy. rewrite HK.
        apply list_elem_of_In in Hy.
        assert (y <> x /\ y <> nonlocal_root s) as [? ?].
        { clear -Hnd Hy. apply NoDup_cons in Hnd as [H1 H2].
          apply NoDup_cons in H2 as [H2 _]. set_solver. }
        rewrite !decide_False by assumption. reflexivity.
      * rewrite HK. rewrite decide_False.
        { rewrite decide_True by reflexivity. reflexivity. }
        apply NoDup_cons in Hnd as [Hn _]. intros E. apply Hn. rewrite E. left.
    + (* there is room *)
      pose proof (append_inv _ _ _ k v H Hk Ef ltac:(lia)) as H'.
      unfold result_of, exec in *. rewrite (append_link_exec _ _ _ Hk) in *.
      cbn [fst snd after_miss] in *.
      split; [eexists; apply lru_inv_incr_MISSES; exact H'|].
      destruct (recency_inv _ _ _ (lru_inv_incr_MISSES _ _ _ H')) as [-> _].
      rewrite Erec. simpl. rewrite map_app. simpl. f_equal.
      * apply map_ext_in. intros y Hy. rewrite append_heap_KEY.
        rewrite decide_False; [reflexivity|].
        destruct H as [Hv _ _ _ _ _]. rewrite Forall_forall in Hv.
        apply list_elem_of_In in Hy. specialize (Hv y ltac:(right; exact Hy)). lia.
      * rewrite append_heap_KEY, decide_True by reflexivity. reflexivity.
Qed.

(** ** Sessions of the bounded wrapper *)

Lemma run_bounded bound typed f calls s :
  1 <= bound ->
  (exists order, lru_inv bound s order) ->
  (exists order', lru_inv bound (snd (run (Some bound) typed f calls s)) order') /\
  recency (snd (run (Some bound) typed f calls s)) =
    foldl (fun ks c => recency_after bound typed f (fst c) (snd c) ks)
          (recency s) calls.
Proof.
  intros Hb. revert s. induction calls as [|[args kwds] rest IH]; intros s [order H].
  - simpl. eauto.
  - rewrite run_cons. cbn [snd foldl fst].
    rewrite (wrapper_pos_or_neg (Some bound) typed f bound eq_refl) by lia.
    destruct (bounded_call bound typed f args kwds s order Hb H) as [H' E].
    cbv zeta in E. rewrite <- E. apply IH. exact H'.
Qed.

(** ** Ages *)

Lemma age_match k x hist : key_match x k = true -> age x (k :: hist) = Some O.
Proof. intros H. simpl. rewrite H. reflexivity. Qed.

Lemma age_nomatch k x hist :
  key_match x k = false ->
  age x (k :: hist) = match age x hist with Some n => Some (S n) | None => None end.
Proof. intros H. simpl. rewrite H. reflexivity. Qed.

Lemma older_shift k hist x y :
  key_match x k = false -> key_match y k = false ->
  older hist x y -> older (k :: hist) x y.
Proof.
  intros Hx Hy (a & a' & H1 & H2 & Hlt). exists (S a), (S a').
  rewrite (age_nomatch _ _ _ Hx), (age_nomatch _ _ _ Hy), H1, H2.
  repeat split. lia.
Qed.

Lemma older_new k hist x y :
  is_Some (age x hist) -> key_match x k = false -> key_match y k = true ->
  older (k :: hist) x y.
Proof.
  intros [a Ha] Hx Hy. exists (S a), O.
  rewrite (age_nomatch _ _ _ Hx), (age_match _ _ _ Hy), Ha. repeat split. lia.
Qed.

Lemma StronglySorted_impl_in {A} (R R' : relation A) (l : list A) :
  (forall x y, x ∈ l -> y ∈ l -> R x y -> R' x y) ->
  StronglySorted R l -> StronglySorted R' l.
Proof.
  intros Himp Hs. induction Hs as [|x l Hs IH Hx]; constructor.
  - apply IH. intros a b Ha Hb. apply Himp; right; assumption.
  - rewrite Forall_forall in *. intros y Hy. apply Himp; [left|right; exact Hy|auto].
Qed.

(** An access that matches no stored key makes every stored key older,
    and keeps their order. *)
Lemma aged_shift k hist ks :
  aged hist ks -> touches k ks = false -> aged (k :: hist) ks.
Proof.
  intros [Hs Ha] Ht. rewrite touches_false in Ht. split.
  - eapply StronglySorted_impl_in; [|exact Hs].
    intros x y Hx Hy. apply older_shift; auto.
  - rewrite Forall_forall in *. intros x Hx. specialize (Ha x Hx) as [a Ha].
    rewrite (age_nomatch _ _ _ (Ht x Hx)), Ha. eauto.
Qed.

(** The accessed key is the most recent one. *)
Lemma aged_snoc k hist ks y :
  aged hist ks -> touches k ks = false -> key_match y k = true ->
  aged (k :: hist) (ks ++ [y]).
Proof.
  intros H Ht Hy. pose proof (aged_shift _ _ _ H Ht) as [Hs Ha].
  destruct H as [_ Ha0]. rewrite touches_false in Ht. split.
  - apply StronglySorted_app_2; [|exact Hs|repeat constructor].
    intros x1 x2 H1 H2. apply list_elem_of_singleton in H2. subst x2.
    rewrite Forall_forall in Ha0. apply older_new; auto.
  - apply Forall_app. split; [exact Ha|]. constructor; [|constructor].
    rewrite (age_match _ _ _ Hy). eauto.
Qed.

Lemma aged_tl hist x ks : aged hist (x :: ks) -> aged hist ks.
Proof.
  intros [Hs Ha]. apply StronglySorted_cons in Hs as [_ Hs].
  apply Forall_cons in Ha as [_ Ha]. split; assumption.
Qed.

Lemma aged_remove hist p x q : aged hist (p ++ x :: q) -> aged hist (p ++ q).
Proof.
  intros [Hs Ha]. apply StronglySorted_app in Hs as (H1 & H2 & H3).
  apply StronglySorted_cons in H3 as [_ H3].
  apply Forall_app in Ha as [Ha1 Ha2]. apply Forall_cons in Ha2 as [_ Ha2].
  split.
  - apply StronglySorted_app_2; [|exact H2|exact H3].
    intros x1 x2 Hx1 Hx2. apply H1; [exact Hx1|right; exact Hx2].
  - apply Forall_app. split; assumption.
Qed.

Lemma touches_split k ks :
  touches k ks = true ->
  exists p k' q, ks = p ++ k' :: q /\ key_match k' k = true /\ touches k p = false.
Proof.
  unfold touches. induction ks as [|x ks IH]; simpl; [discriminate|].
  destruct (key_match x k) eqn:E.
  - intros _. exists [], x, ks. auto.
  - simpl. intros H. destruct (IH H) as (p & k' & q & -> & Hm & Hp).
    exists (x :: p), k', q. simpl. rewrite E, Hp. auto.
Qed.

Lemma keys_wf_unique_match k p k' q :
  keys_wf (p ++ k' :: q) -> key_match k' k = true -> touches k (p ++ q) = false.
Proof.
  intros (Hnd & _ & H3) Hm. apply touches_false. intros x Hx.
  destruct (key_match x k) eqn:E; [|reflexivity]. exfalso.
  assert (x = k').
  { apply H3; [|apply elem_of_app; right; left|].
    - apply elem_of_app in Hx as [Hx|Hx]; apply elem_of_app; [left|right; right]; exact Hx.
    - eapply key_match_trans; [exact E|]. rewrite key_match_sym. exact Hm. }
  subst x. apply NoDup_app in Hnd as (_ & Hd & Hn).
  apply NoDup_cons in Hn as [Hn _].
  apply elem_of_app in Hx as [Hx|Hx]; [|exact (Hn Hx)].
  apply (Hd _ Hx). left.
Qed.

Lemma aged_lru_step bound k hist ks :
  keys_wf ks -> aged hist ks -> is_Ok (key_hash k) = true ->
  aged (k :: hist) (lru_step bound k ks).
Proof.
  intros Hwf Ha Hk. unfold lru_step.
  destruct (touches k ks) eqn:Et.
  - destruct (touches_split _ _ Et) as (p & k' & q & -> & Hm & _).
    rewrite (touch_split _ _ _ _ Hwf Hm), app_assoc.
    apply aged_snoc; [eapply aged_remove; exact Ha| |exact Hm].
    eapply keys_wf_unique_match; eauto.
  - assert (Hkk : key_match k k = true) by (apply key_match_refl; exact Hk).
    destruct (_ >=? _).
    + destruct ks as [|x ks]; simpl.
      * apply (aged_snoc k hist [] k); [exact Ha|reflexivity|exact Hkk].
      * apply aged_snoc; [eapply aged_tl; exact Ha| |exact Hkk].
        unfold touches in *. simpl in Et. apply orb_false_iff in Et. tauto.
    + apply aged_snoc; assumption.
Qed.

(** ** The recency list follows the history *)

Lemma history_cons typed c rest hist :
  history typed (c :: rest) hist = history typed rest (history typed [c] hist).
Proof.
  destruct c as [args kwds]. simpl.
  destruct (wrapper_key typed args kwds) as [k|]; [|reflexivity].
  destruct (is_Ok (key_hash k)); reflexivity.
Qed.

Lemma aged_recency_after bound typed f args kwds hist ks :
  keys_wf ks -> aged hist ks ->
  aged (history typed [(args, kwds)] hist)
       (recency_after bound typed f args kwds ks).
Proof.
  intros Hwf Ha. unfold recency_after. simpl.
  destruct (wrapper_key typed args kwds) as [k|]; [|exact Ha].
  destruct (is_Ok (key_hash k)) eqn:Hk; [|exact Ha].
  destruct (touches k ks) eqn:Et; [apply aged_lru_step; assumption|].
  destruct (f args kwds); [apply aged_lru_step; assumption|].
  apply aged_shift; assumption.
Qed.

Lemma lru_inv_keys_wf bound s order : lru_inv bound s order -> keys_wf (recency s).
Proof.
  intros H. destruct (recency_inv _ _ _ H) as [_ Hp].
  eapply keys_wf_Permutation; [exact Hp|]. apply (inv_keys _ _ _ H).
Qed.

Lemma run_aged bound typed f calls s hist :
  1 <= bound ->
  (exists order, lru_inv bound s order) ->
  aged hist (recency s) ->
  aged (history typed calls hist)
       (recency (snd (run (Some bound) typed f calls s))).
Proof.
  intros Hb. revert s hist.
  induction calls as [|[args kwds] rest IH]; intros s hist [order H] Ha.
  - exact Ha.
  - rewrite run_cons, history_cons. cbn [snd].
    rewrite (wrapper_pos_or_neg (Some bound) typed f bound eq_refl) by lia.
    destruct (bounded_call bound typed f args kwds s order Hb H) as [H' E].
    cbv zeta in E. apply IH; [exact H'|]. rewrite E.
    apply aged_recency_after; [|exact Ha]. eapply lru_inv_keys_wf. exact H.
Qed.

(** ** Which key leaves *)

Lemma touch_Permutation k ks : touch k ks ≡ₚ ks.
Proof.
  induction ks as [|x ks IH]; simpl; [reflexivity|].
  destruct (key_match x k).
  - symmetry. apply Permutation_cons_append.
  - rewrite IH. reflexivity.
Qed.

(** A key that is stored before a call and not after it was the first of
    the recency list. *)
Lemma evicted_is_head bound typed f args kwds ks ko :
  ko ∈ ks ->
  ko ∉ recency_after bound typed f args kwds ks ->
  exists rest, ks = ko :: rest.
Proof.
  intros Hin Hout. unfold recency_after, lru_step in Hout.
  destruct (wrapper_key typed args kwds) as [k|]; [|contradiction].
  destruct (is_Ok (key_hash k)); [|contradiction].
  assert (Hm : forall l, ko ∉ (if Z.of_nat (length ks) >=? bound
                            then tl ks ++ l else ks ++ l) ->
                         exists rest, ks = ko :: rest).
  { intros l H. destruct (_ >=? _).
    - destruct ks as [|x rest]; [inversion Hin|]. simpl in H.
      apply elem_of_cons in Hin as [->|Hin]; [eauto|].
      exfalso. apply H, elem_of_app. left. exact Hin.
    - exfalso. apply H, elem_of_app. left. exact Hin. }
  destruct (touches k ks).
  - exfalso. apply Hout. rewrite touch_Permutation. exact Hin.
  - destruct (f args kwds); [eapply Hm; exact Hout|contradiction].
Qed.

(** ** New keys fill the cache, then push the oldest out *)

Lemma recency_after_new bound typed f args kwds k ks :
  wrapper_key typed args kwds = Ok k ->
  is_Ok (key_hash k) = true ->
  is_Ok (f args kwds) = true ->
  touches k ks = false ->
  recency_after bound typed f args kwds ks =
  if Z.of_nat (length ks) >=? bound then tl ks ++ [k] else ks ++ [k].
Proof.
  intros Hk Hh Hf Ht. unfold recency_after, lru_step. rewrite Hk, Hh, Ht.
  destruct (f args kwds); [reflexivity|discriminate].
Qed.

Lemma keys_wf_fresh X k rest : keys_wf (X ++ k :: rest) -> touches k X = false.
Proof.
  intros Hwf. apply touches_false. intros x Hx.
  destruct (key_match x k) eqn:E; [|reflexivity]. exfalso.
  destruct Hwf as (Hnd & _ & H3).
  assert (x = k).
  { apply H3; [apply elem_of_app; left; exact Hx|apply elem_of_app; right; left|exact E]. }
  subst x. apply NoDup_app in Hnd as (_ & Hd & _). apply (Hd _ Hx). left.
Qed.

Lemma tl_drop {A} (n : nat) (l : list A) : tl (drop n l) = drop (S n) l.
Proof.
  change (tl (drop n l)) with (drop 1 (drop n l)) at 1 || idtac.
  replace (tl (drop n l)) with (drop 1 (drop n l)) by (destruct (drop n l); reflexivity).
  rewrite drop_drop. f_equal. lia.
Qed.

Lemma lastn_step (bound : Z) (k : key) (X : list key) :
  1 <= bound ->
  (if Z.of_nat (length (lastn (Z.to_nat bound) X)) >=? bound
   then tl (lastn (Z.to_nat bound) X) ++ [k]
   else lastn (Z.to_nat bound) X ++ [k]) =
  lastn (Z.to_nat bound) (X ++ [k]).
Proof.
  intros Hb. unfold lastn. rewrite length_drop, length_app. simpl.
  set (n := length X). set (N := Z.to_nat bound).
  assert (HN : (1 <= N)%nat) by (subst N; lia).
  assert (Eb : bound = Z.of_nat N) by (subst N; lia).
  destruct (Z.of_nat (n - (n - N)) >=? bound) eqn:E; rewrite Z.geb_leb in E.
  - apply Z.leb_le in E. assert (N <= n)%nat by lia.
    replace (n + 1 - N)%nat with (S (n - N)) by lia.
    rewrite drop_app_le by (fold n; lia).
    rewrite tl_drop. reflexivity.
  - apply Z.leb_gt in E. assert (n < N)%nat by lia.
    replace (n + 1 - N)%nat with O by lia.
    replace (n - N)%nat with O by lia. reflexivity.
Qed.

Lemma touches_lastn k n X : touches k X = false -> touches k (lastn n X) = false.
Proof.
  rewrite !touches_false. intros H x Hx. apply H.
  unfold lastn in Hx. exact (subseteq_drop (length X - n) X x Hx).
Qed.

(** Calls with new keys leave in the cache the last [bound] keys. *)
Lemma new_keys_session bound typed f calls ks :
  1 <= bound ->
  keyed_calls typed f calls ks ->
  forall X, keys_wf (X ++ ks) ->
  foldl (fun l c => recency_after bound typed f (fst c) (snd c) l)
        (lastn (Z.to_nat bound) X) calls =
  lastn (Z.to_nat bound) (X ++ ks).
Proof.
  intros Hb Hc. induction Hc as [|[args kwds] k calls ks [Hk Hf] _ IH]; intros X Hwf.
  - rewrite app_nil_r. reflexivity.
  - cbn [foldl fst snd] in *.
    assert (Hh : is_Ok (key_hash k) = true).
    { destruct Hwf as (_ & H2 & _). apply H2, elem_of_app. right. left. }
    pose proof (keys_wf_fresh _ _ _ Hwf) as Ht.
    rewrite (recency_after_new bound typed f args kwds k _ Hk Hh Hf (touches_lastn _ _ _ Ht)).
    rewrite (lastn_step bound k X Hb).
    rewrite (IH (X ++ [k])); rewrite <- app_assoc; [reflexivity|exact Hwf].
Qed.

(** ** Least recently used first *)

Lemma aged_nil hist : aged hist [].
Proof. split; constructor. Qed.

Lemma reached_bounded bound typed f calls :
  1 <= bound ->
  let s := snd (run (Some bound) typed f calls initial_state) in
  (exists order, lru_inv bound s order) /\
  recency s = foldl (fun ks c => recency_after bound typed f (fst c) (snd c) ks) [] calls /\
  aged (history typed calls []) (recency s).
Proof.
  intros Hb s.
  assert (H0 : exists order, lru_inv bound initial_state order).
  { exists []. apply lru_inv_init. lia. }
  destruct (run_bounded bound typed f calls initial_state Hb H0) as [H E].
  split; [exact H|]. split; [exact E|].
  apply run_aged; [exact Hb|exact H0|apply aged_nil].
Qed.

Lemma aba_session bound typed f cA cB kA kB news nks :
  2 <= bound ->
  keyed_calls typed f [cA; cB] [kA; kB] ->
  keyed_calls typed f news nks ->
  keys_wf (kB :: kA :: nks) ->
  recency (snd (run (Some bound) typed f ([cA; cB; cA] ++ news) initial_state)) =
  lastn (Z.to_nat bound) (kB :: kA :: nks).
Proof.
  intros Hb HAB Hnews Hwf.
  destruct (reached_bounded bound typed f ([cA; cB; cA] ++ news) ltac:(lia)) as (_ & -> & _).
  rewrite foldl_app.
  apply Forall2_cons_1 in HAB as [[HkA HfA] HAB].
  apply Forall2_cons_1 in HAB as [[HkB HfB] _].
  assert (HhA : is_Ok (key_hash kA) = true).
  { destruct Hwf as (_ & H2 & _). apply H2. right. left. }
  assert (HhB : is_Ok (key_hash kB) = true).
  { destruct Hwf as (_ & H2 & _). apply H2. left. }
  assert (HAB : key_match kA kB = false).
  { destruct (key_match kA kB) eqn:E; [|reflexivity]. exfalso.
    destruct Hwf as (Hnd & _ & H3).
    assert (kA = kB) by (apply H3; [right; left|left|exact E]).
    subst kA. apply NoDup_cons in Hnd as [Hn _]. apply Hn. left. }
  assert (E3 : foldl (fun ks c => recency_after bound typed f (fst c) (snd c) ks)
                 [] [cA; cB; cA] = [kB; kA]).
  { cbn [foldl].
    rewrite (recency_after_new bound typed f _ _ kA [] HkA HhA HfA eq_refl).
    cbn [length]. destruct (Z.of_nat 0 >=? bound) eqn:E0;
      [rewrite Z.geb_leb in E0; apply Z.leb_le in E0; lia|].
    cbn [app].
    rewrite (recency_after_new bound typed f _ _ kB [kA] HkB HhB HfB)
      by (unfold touches; simpl; rewrite HAB; reflexivity).
    cbn [length]. destruct (Z.of_nat 1 >=? bound) eqn:E1;
      [rewrite Z.geb_leb in E1; apply Z.leb_le in E1; lia|].
    cbn [app].
    unfold recency_after. rewrite HkA, HhA.
    assert (Ht : touches kA [kA; kB] = true).
    { unfold touches. simpl. rewrite (key_match_refl _ HhA). reflexivity. }
    rewrite Ht. unfold lru_step. rewrite Ht. simpl.
    rewrite (key_match_refl _ HhA). reflexivity. }
  rewrite E3.
  assert (EL : [kB; kA] = lastn (Z.to_nat bound) [kB; kA]).
  { unfold lastn. simpl. replace (2 - Z.to_nat bound)%nat with O by lia. reflexivity. }
  rewrite EL.
  apply (new_keys_session bound typed f news nks ltac:(lia) Hnews [kB; kA]).
  exact Hwf.
Qed.

Lemma keys_wfb_sound ks : keys_wfb ks = true -> keys_wf ks.
Proof.
  induction ks as [|k rest IH]; simpl; [intros _; apply keys_wf_nil|].
  rewrite !andb_true_iff, forallb_forall. intros [[Hk Hall] Hrest].
  destruct (IH Hrest) as (H1 & H2 & H3).
  assert (Hne : forall k', k' ∈ rest -> key_match k k' = false).
  { intros k' Hk'. apply list_elem_of_In in Hk'. specialize (Hall k' Hk').
    destruct (key_match k k'); [discriminate|reflexivity]. }
  split; [|split].
  - apply NoDup_cons. split; [|exact H1].
    intros Hin. specialize (Hne k Hin). rewrite key_match_refl in Hne by exact Hk.
    discriminate.
  - intros x Hx. apply elem_of_cons in Hx as [->|Hx]; auto.
  - intros x y Hx Hy Hm.
    apply elem_of_cons in Hx as [->|Hx]; apply elem_of_cons in Hy as [->|Hy]; auto.
    + rewrite (Hne y Hy) in Hm. discriminate.
    + rewrite key_match_sym, (Hne x Hx) in Hm. discriminate.
Qed.

(** * Further properties of the cache *)

(** ** The linked list in every reachable state *)

Lemma cache_clear_inv bound s order :
  0 <= bound -> lru_inv bound s order -> lru_inv bound (exec cache_clear s) [].
Proof.
  intros Hb H. rewrite cache_clear_exec.
  assert (Hr : (nonlocal_root s < length (heap s))%nat).
  { pose proof (inv_valid _ _ _ H) as Hv. inversion Hv; assumption. }
  split; simpl.
  - rewrite heap_wr_length. repeat constructor. exact Hr.
  - apply NoDup_singleton.
  - split; [exact I|]. unfold lastof. simpl.
    split; rewrite heap_wr_eq by exact Hr; reflexivity.
  - reflexivity.
  - apply keys_wf_nil.
  - exact Hb.
Qed.

Lemma reachable_lru_inv bound typed f s :
  1 <= bound -> reachable (Some bound) typed f s ->
  exists order, lru_inv bound s order.
Proof.
  intros Hb Hr. induction Hr as [|s args kwds _ [order IH]|s _ [order IH]].
  - exists []. apply lru_inv_init. lia.
  - rewrite (wrapper_pos_or_neg (Some bound) typed f bound eq_refl) by lia.
    apply (bounded_call bound typed f args kwds s order Hb IH).
  - exists []. eapply cache_clear_inv; [lia|exact IH].
Qed.

(** X1: in every state a bounded cache can reach, by calls and clears,
    the links after the root form a consistent circular list without
    repetition, the dictionary holds exactly one entry per such link,
    under the key stored in the link, and at most [bound] of them. *)
Theorem bounded_cache_is_consistent
    (bound : Z) (typed : bool) (f : list value -> kwargs -> outcome value)
    (s : state) :
  1 <= bound ->
  reachable (Some bound) typed f s ->
  exists order,
    lru_inv bound s order /\
    length order = length (cache s) /\
    map fst (cache s) ≡ₚ recency s.
Proof.
  intros Hb Hr.
  destruct (reachable_lru_inv bound typed f s Hb Hr) as [order H].
  exists order. split; [exact H|]. split.
  - symmetry. eapply lru_inv_length. exact H.
  - apply (recency_inv _ _ _ H).
Qed.

Lemma bounded_cache_is_consistent_witness :
  let f : list value -> kwargs -> outcome value := fun args _ => Ok (VTuple args) in
  let s := exec (wrapper (Some 1) false f [VInt 2] [])
             (exec (wrapper (Some 1) false f [VInt 1] []) initial_state) in
  exists order,
    lru_inv 1 s order /\
    length order = length (cache s) /\
    map fst (cache s) ≡ₚ recency s.
Proof.
  intros f s.
  apply (bounded_cache_is_consistent 1 false f s); [lia|].
  apply reach_call, reach_call, reach_init.
Defined.

(** ** Calls that raise *)

Lemma commit_ok bound s order k v :
  1 <= bound ->
  lru_inv bound s order ->
  is_Ok (key_hash k) = true ->
  dict_find k (cache s) = None ->
  result_of (commit bound k v) s = Ok tt.
Proof.
  intros Hb H Hk Hf. unfold result_of. rewrite (commit_eq _ _ _ _ Hk), Hf.
  cbv zeta. cbn [fst].
  destruct (Z.of_nat (length (cache s)) >=? bound) eqn:E; rewrite Z.geb_leb in E.
  - apply Z.leb_le in E.
    destruct (evict_inv _ _ _ k v H Hk Hf Hb E)
      as (x & rest & d & _ & _ & Hold & Hdel & _).
    rewrite <- Hold in Hdel.
    unfold result_of. rewrite (evict_and_reuse_exec _ _ _ _ Hk Hdel). reflexivity.
  - unfold result_of. rewrite (append_link_exec _ _ _ Hk). reflexivity.
Qed.

Lemma _make_key_raise args kwds typed e :
  _make_key args kwds typed = Raise e ->
  e = TypeError /\ hashable_args args kwds = false.
Proof.
  intros H. destruct (hashable_args args kwds) eqn:Eh.
  - destruct (_make_key_Ok args kwds typed Eh) as [k Hk]. congruence.
  - rewrite (_make_key_unhashable _ _ _ Eh) in H. injection H as <-. auto.
Qed.

Lemma wrapper_key_raise typed args kwds e :
  wrapper_key typed args kwds = Raise e ->
  e = TypeError /\ hashable_args args kwds = false.
Proof.
  unfold wrapper_key. destruct (is_nonempty kwds || typed); [apply _make_key_raise|].
  discriminate.
Qed.

Lemma key_hash_raise k e : key_hash k = Raise e -> e = TypeError.
Proof. destruct k; simpl; [apply py_hash_raise|discriminate]. Qed.

Lemma wrapper_key_unhashable typed args kwds k e :
  wrapper_key typed args kwds = Ok k -> key_hash k = Raise e ->
  e = TypeError /\ hashable_args args kwds = false.
Proof.
  intros Hk He. split; [eapply key_hash_raise; exact He|].
  destruct (hashable_args args kwds) eqn:Eh; [|reflexivity].
  pose proof (wrapper_key_hashable typed args kwds k Eh Hk) as H.
  rewrite He in H. discriminate.
Qed.

(** X2: a call that raises leaves the cache exactly as it was, in the
    disabled, the unbounded and the bounded wrapper ([maxsize >= 1]); and
    it raises either [TypeError], for an unhashable argument and before
    the computation, or what the computation raised.  The deletion of the
    evicted key never fails. *)
Theorem failing_call_changes_nothing
    (maxsize : option Z) (typed : bool)
    (f : list value -> kwargs -> outcome value)
    (s : state) (args : list value) (kwds : kwargs) (e : exn) :
  (forall n, maxsize = Some n -> 0 <= n) ->
  reachable maxsize typed f s ->
  result_of (wrapper maxsize typed f args kwds) s = Raise e ->
  exec (wrapper maxsize typed f args kwds) s = s /\
  ((e = TypeError /\ hashable_args args kwds = false /\
    ~ In (Call args kwds) (trace_of (wrapper maxsize typed f args kwds) s)) \/
   f args kwds = Raise e).
Proof.
  intros Hn Hr. unfold result_of, exec, trace_of.
  destruct maxsize as [[|p|p]|].
  - unfold wrapper. rewrite wrapper_disabled_eq.
    destruct (f args kwds); cbn [fst snd]; [discriminate|]. intros [= <-]. auto.
  - destruct (reachable_lru_inv (Z.pos p) typed f s ltac:(lia) Hr) as [order H].
    unfold wrapper. rewrite wrapper_bounded_eq.
    destruct (wrapper_key typed args kwds) as [k|e0] eqn:Ek.
    + unfold dict_get. destruct (key_hash k) as [h|e0] eqn:Eh.
      * destruct (dict_find k (cache s)) as [[v|a]|] eqn:Ef; cbn [fst snd].
        -- exfalso. apply dict_find_In in Ef as (k' & Hin & _).
           apply list_elem_of_In in Hin. rewrite (inv_cache _ _ _ H) in Hin.
           apply elem_of_map_inv in Hin as (a' & E & _). discriminate.
        -- discriminate.
        -- destruct (f args kwds) as [v|e0]; cbn [fst snd].
           ++ rewrite (commit_ok (Z.pos p) s order k v ltac:(lia) H
                         ltac:(rewrite Eh; reflexivity) Ef). discriminate.
           ++ intros [= <-]. auto.
      * cbn [fst snd]. intros [= <-].
        destruct (wrapper_key_unhashable _ _ _ _ _ Ek Eh) as [-> Hh].
        split; [reflexivity|]. left. repeat split; [exact Hh|].
        simpl. intros [H1|[H1|[]]]; discriminate.
    + cbn [fst snd]. intros [= <-].
      destruct (wrapper_key_raise _ _ _ _ Ek) as [-> Hh].
      split; [reflexivity|]. left. repeat split; [exact Hh|]. simpl. tauto.
  - specialize (Hn _ eq_refl). lia.
  - unfold wrapper. rewrite wrapper_unbounded_eq.
    destruct (_make_key args kwds typed) as [k|e0] eqn:Ek.
    + destruct (dict_find k (cache s)); cbn [fst snd]; [discriminate|].
      destruct (f args kwds); cbn [fst snd]; [discriminate|]. intros [= <-]. auto.
    + cbn [fst snd]. intros [= <-].
      destruct (_make_key_raise _ _ _ _ Ek) as [-> Hh].
      split; [reflexivity|]. left. repeat split; [exact Hh|]. simpl. tauto.
Qed.

Lemma failing_call_changes_nothing_witness :
  let f : list value -> kwargs -> outcome value := fun args _ => Ok (VTuple args) in
  let s := exec (wrapper (Some 1) true f [VInt 1] []) initial_state in
  exec (wrapper (Some 1) true f [VList []] []) s = s /\
  ((TypeError = TypeError /\ hashable_args [VList []] [] = false /\
    ~ In (Call [VList []] []) (trace_of (wrapper (Some 1) true f [VList []] []) s)) \/
   f [VList []] [] = Raise TypeError).
Proof.
  intros f s.
  apply (failing_call_changes_nothing (Some 1) true f s [VList []] [] TypeError).
  - intros n [= <-]. lia.
  - apply reach_call, reach_init.
  - reflexivity.
Defined.

(** ** Size and misses *)

Lemma bounded_size_step bound typed f args kwds s order :
  1 <= bound ->
  lru_inv bound s order ->
  Z.of_nat (length (cache s)) = Z.min (Z.of_nat (MISSES s)) bound ->
  let s' := exec (wrapper_bounded typed f bound args kwds) s in
  Z.of_nat (length (cache s')) = Z.min (Z.of_nat (MISSES s')) bound.
Proof.
  intros Hb H HP s'.
  destruct (bounded_call bound typed f args kwds s order Hb H) as [[order' H'] E].
  cbv zeta in E. fold s' in H', E.
  assert (Hlen' : length (cache s') = length (recency s')).
  { destruct (recency_inv _ _ _ H') as [_ Hp]. rewrite <- (Permutation_length Hp).
    symmetry. apply length_map. }
  assert (Hlen : length (recency s) = length (cache s)).
  { destruct (recency_inv _ _ _ H) as [_ Hp]. rewrite <- (Permutation_length Hp).
    apply length_map. }
  assert (Ht : forall k, dict_find k (cache s) = None -> touches k (recency s) = false).
  { intros k Hf. destruct (recency_inv _ _ _ H) as [_ Hp].
    rewrite <- (touches_Permutation _ _ _ Hp). apply dict_find_touches, Hf. }
  rewrite Hlen', E. unfold recency_after. subst s'. unfold exec.
  rewrite wrapper_bounded_eq.
  destruct (wrapper_key typed args kwds) as [k|e]; [|cbn [fst snd]; lia].
  unfold dict_get. destruct (key_hash k) as [h|e] eqn:Eh; [|cbn [fst snd is_Ok]; lia].
  cbn [is_Ok].
  destruct (dict_find k (cache s)) as [[v|a]|] eqn:Ef; cbn [fst snd].
  - exfalso. apply dict_find_In in Ef as (k' & Hin & _).
    apply list_elem_of_In in Hin. rewrite (inv_cache _ _ _ H) in Hin.
    apply elem_of_map_inv in Hin as (a' & E' & _). discriminate.
  - assert (Hto : touches k (recency s) = true).
    { destruct (touches k (recency s)) eqn:Et; [reflexivity|].
      destruct (recency_inv _ _ _ H) as [_ Hp].
      rewrite <- (touches_Permutation _ _ _ Hp) in Et.
      apply dict_find_touches in Et. congruence. }
    rewrite Hto. unfold lru_step. rewrite Hto.
    rewrite (Permutation_length (touch_Permutation k (recency s))).
    rewrite move_to_front_exec. simpl. lia.
  - rewrite (Ht k Ef).
    destruct (f args kwds) as [v|e]; cbn [fst snd]; [|lia].
    assert (Hk : is_Ok (key_hash k) = true) by (rewrite Eh; reflexivity).
    destruct (commit_stats bound k v s Hk) as [_ ->].
    rewrite (commit_ok bound s order k v Hb H Hk Ef). cbn [is_Ok].
    unfold lru_step. rewrite (Ht k Ef), Hlen.
    destruct (Z.of_nat (length (cache s)) >=? bound) eqn:Efull; rewrite Z.geb_leb in Efull.
    + apply Z.leb_le in Efull. rewrite length_app. simpl.
      destruct (recency s) as [|x r]; simpl in *; lia.
    + apply Z.leb_gt in Efull. rewrite length_app. simpl. lia.
Qed.

(** X3: in every state a bounded cache can reach, the reported size is
    the smaller of the reported misses and [maxsize]: every miss adds an
    entry until the cache is full, and no hit ever does. *)
Theorem bounded_size_is_min_misses_maxsize
    (bound : Z) (typed : bool) (f : list value -> kwargs -> outcome value)
    (s : state) :
  1 <= bound ->
  reachable (Some bound) typed f s ->
  exists i, result_of (cache_info (Some bound)) s = Ok i /\
    Z.of_nat (CacheInfo.currsize i) = Z.min (Z.of_nat (CacheInfo.misses i)) bound.
Proof.
  intros Hb Hr. eexists. split; [reflexivity|]. simpl.
  assert (H : (exists order, lru_inv bound s order) /\
              Z.of_nat (length (cache s)) = Z.min (Z.of_nat (MISSES s)) bound).
  { induction Hr as [|s args kwds _ [[order IH] IHP]|s _ [[order IH] _]].
    - split; [exists []; apply lru_inv_init; lia|simpl; lia].
    - rewrite (wrapper_pos_or_neg (Some bound) typed f bound eq_refl) by lia. split.
      + apply (bounded_call bound typed f args kwds s order Hb IH).
      + apply (bounded_size_step bound typed f args kwds s order Hb IH IHP).
    - split; [exists []; eapply cache_clear_inv; [lia|exact IH]|].
      rewrite cache_clear_exec. simpl. lia. }
  apply H.
Qed.

Lemma bounded_size_is_min_misses_maxsize_witness :
  let f : list value -> kwargs -> outcome value := fun args _ => Ok (VTuple args) in
  let s := exec (wrapper (Some 1) false f [VInt 2] [])
             (exec (wrapper (Some 1) false f [VInt 1] []) initial_state) in
  exists i, result_of (cache_info (Some 1)) s = Ok i /\
    Z.of_nat (CacheInfo.currsize i) = Z.min (Z.of_nat (CacheInfo.misses i)) 1.
Proof.
  intros f s.
  apply (bounded_size_is_min_misses_maxsize 1 false f s); [lia|].
  apply reach_call, reach_call, reach_init.
Defined.

(** ** The results the cache holds *)

Lemma dict_find_contents_of h k (d : dict obj) :
  dict_find k (contents_of h d) = option_map (result_at h) (dict_find k d).
Proof.
  induction d as [|[k' o] d IH]; simpl; [reflexivity|].
  destruct (key_match k' k); [reflexivity|exact IH].
Qed.

Lemma dict_remove_contents_of h k (d : dict obj) :
  dict_remove k (contents_of h d) = option_map (contents_of h) (dict_remove k d).
Proof.
  induction d as [|[k' o] d IH]; simpl; [reflexivity|].
  destruct (key_match k' k); [reflexivity|].
  rewrite IH. destruct (dict_remove k d); reflexivity.
Qed.

Lemma contents_of_app h d1 d2 :
  contents_of h (d1 ++ d2) = contents_of h d1 ++ contents_of h d2.
Proof. apply map_app. Qed.

Lemma contents_of_ext h h' (d : dict obj) :
  (forall k a, (k, OLink a) ∈ d -> RESULT (h' !!! a) = RESULT (h !!! a)) ->
  contents_of h' d = contents_of h d.
Proof.
  intros H. apply map_ext_in. intros [k o] Hin. simpl. f_equal.
  destruct o as [v|a]; [reflexivity|]. simpl. apply (H k).
  apply list_elem_of_In. exact Hin.
Qed.

Lemma RESULT_wr_RESULT v a h x :
  (a < length h)%nat ->
  RESULT (heap_wr (upd_RESULT v) a h !!! x) = if decide (x = a) then v else RESULT (h !!! x).
Proof.
  intros Ha. destruct (decide (x = a)) as [->|Hne].
  - rewrite heap_wr_eq by exact Ha. reflexivity.
  - rewrite heap_wr_ne by exact Hne. reflexivity.
Qed.

Lemma RESULT_wr_KEY v a h x : RESULT (heap_wr (upd_KEY v) a h !!! x) = RESULT (h !!! x).
Proof. apply (heap_wr_field RESULT). reflexivity. Qed.
Lemma RESULT_wr_NEXT v a h x : RESULT (heap_wr (upd_NEXT v) a h !!! x) = RESULT (h !!! x).
Proof. apply (heap_wr_field RESULT). reflexivity. Qed.
Lemma RESULT_wr_PREV v a h x : RESULT (heap_wr (upd_PREV v) a h !!! x) = RESULT (h !!! x).
Proof. apply (heap_wr_field RESULT). reflexivity. Qed.

Lemma relink_RESULT a root h x : RESULT (relink a root h !!! x) = RESULT (h !!! x).
Proof.
  unfold relink. cbv zeta.
  rewrite RESULT_wr_NEXT, RESULT_wr_PREV, RESULT_wr_PREV, RESULT_wr_NEXT,
    RESULT_wr_PREV, RESULT_wr_NEXT. reflexivity.
Qed.

Lemma append_heap_RESULT root k v h x :
  RESULT (append_heap root k v h !!! x) =
  if decide (x = length h) then v else RESULT (h !!! x).
Proof.
  unfold append_heap. cbv zeta. rewrite RESULT_wr_PREV, RESULT_wr_NEXT.
  destruct (decide (x = length h)) as [->|Hne].
  - rewrite lookup_alloc_new. reflexivity.
  - destruct (decide (x < length h)%nat).
    + rewrite lookup_alloc_old by assumption. reflexivity.
    + rewrite !list_lookup_total_alt, !lookup_ge_None_2; try lia; [reflexivity|].
      rewrite length_app. simpl. lia.
Qed.

Lemma evict_heap_RESULT root k v h y :
  (root < length h)%nat -> (NEXT (h !!! root) < length h)%nat ->
  RESULT (evict_heap root k v h !!! y) =
  if decide (y = NEXT (h !!! root)) then VNone
  else if decide (y = root) then v
  else RESULT (h !!! y).
Proof.
  intros Hr Hx. unfold evict_heap. cbv zeta.
  rewrite NEXT_wr_RESULT, NEXT_wr_KEY.
  rewrite RESULT_wr_RESULT by (rewrite !heap_wr_length; exact Hx).
  rewrite RESULT_wr_KEY.
  rewrite RESULT_wr_RESULT by (rewrite heap_wr_length; exact Hr).
  rewrite RESULT_wr_KEY. reflexivity.
Qed.

(** Under the invariant every entry of the dictionary is a link of the
    list. *)
Lemma lru_inv_entry bound s order k o :
  lru_inv bound s order -> (k, o) ∈ cache s ->
  exists a, o = OLink a /\ a ∈ order /\ k = KEY (heap s !!! a).
Proof.
  intros H Hin. rewrite (inv_cache _ _ _ H) in Hin.
  apply elem_of_map_inv in Hin as (a & E & Ha). injection E as <- <-. eauto.
Qed.

(** What one call of the bounded wrapper does, read on the results the
    cache holds. *)
Lemma bounded_step bound typed f args kwds s order k :
  1 <= bound ->
  lru_inv bound s order ->
  wrapper_key typed args kwds = Ok k ->
  is_Ok (key_hash k) = true ->
  let c := wrapper_bounded typed f bound args kwds in
  match dict_find k (contents s) with
  | Some v =>
      result_of c s = Ok (OVal v) /\ trace_of c s = [Acquire; Release] /\
      contents (exec c s) = contents s /\
      HITS (exec c s) = S (HITS s) /\ MISSES (exec c s) = MISSES s
  | None =>
      match f args kwds with
      | Raise e => c s = (Raise e, s, [Acquire; Release; Call args kwds])
      | Ok v =>
          result_of c s = Ok (OVal v) /\
          trace_of c s = [Acquire; Release; Call args kwds; Acquire; Release] /\
          HITS (exec c s) = HITS s /\ MISSES (exec c s) = S (MISSES s) /\
          exists kept,
            contents (exec c s) = kept ++ [(k, v)] /\
            if Z.of_nat (length (cache s)) >=? bound
            then exists e, contents s ≡ₚ e :: kept /\
                           hd_error (recency s) = Some (fst e) /\
                           dict_remove (fst e) (contents s) = Some kept
            else kept = contents s
      end
  end.
Proof.
  intros Hb H Ek Hk c. subst c. unfold result_of, trace_of, exec.
  rewrite wrapper_bounded_eq, Ek, (dict_get_hashable _ _ Hk).
  unfold contents at 1. rewrite dict_find_contents_of.
  destruct (dict_find k (cache s)) as [[v|a]|] eqn:Ef; cbn [option_map].
  - exfalso. apply dict_find_In in Ef as (k' & Hin & _).
    apply list_elem_of_In in Hin.
    destruct (lru_inv_entry _ _ _ _ _ H Hin) as (a & E & _). discriminate.
  - cbn [fst snd result_at]. split; [reflexivity|]. split; [reflexivity|].
    rewrite move_to_front_exec. split; [|split; reflexivity].
    unfold contents. simpl. apply contents_of_ext. intros; apply relink_RESULT.
  - destruct (f args kwds) as [v|e]; [|reflexivity].
    cbn [fst snd]. unfold result_of, exec.
    rewrite (commit_eq _ _ _ _ Hk), Ef. cbv zeta. cbn [fst snd].
    pose proof H as [Hv Hnd Hr Hc Hkeys Hs].
    assert (Hall : forall y, y ∈ nonlocal_root s :: order -> (y < length (heap s))%nat).
    { apply Forall_forall. exact Hv. }
    destruct (Z.of_nat (length (cache s)) >=? bound) eqn:Efull.
    + rewrite Z.geb_leb in Efull. apply Z.leb_le in Efull.
      destruct (evict_inv _ _ _ k v H Hk Ef Hb Efull)
        as (x & rest & d & -> & Hx & Hold & Hdel & Hd & H').
      rewrite <- Hold in Hdel.
      unfold result_of, exec. rewrite (evict_and_reuse_exec _ _ _ _ Hk Hdel).
      cbn [fst snd after_miss]. repeat (split; [reflexivity|]).
      assert (Hfd : dict_find k d = None).
      { apply dict_find_touches. rewrite (touches_Permutation _ _ _ (Permutation_map fst Hd)).
        apply dict_find_touches in Ef.
        rewrite (touches_Permutation _ _ _ (Permutation_map fst Hc)) in Ef.
        unfold touches in *. simpl in Ef. apply orb_false_iff in Ef as [_ Ef]. exact Ef. }
      rewrite (dict_store_new _ _ _ Hfd).
      exists (contents_of (heap s) d). split.
      * unfold contents. simpl. rewrite contents_of_app. f_equal.
        -- apply contents_of_ext. intros k0 a Hin. rewrite Hd in Hin.
           apply elem_of_map_inv in Hin as (a' & E & Ha). injection E as _ ->.
           rewrite evict_heap_RESULT; [|apply Hall; left|rewrite <- Hx; apply Hall; right; left].
           rewrite <- Hx.
           assert (a <> x /\ a <> nonlocal_root s) as [? ?].
           { clear -Hnd Ha. apply NoDup_cons in Hnd as [H1 H2].
             apply NoDup_cons in H2 as [H2 _]. set_solver. }
           rewrite !decide_False by assumption. reflexivity.
        -- simpl. unfold result_at.
           rewrite evict_heap_RESULT; [|apply Hall; left|rewrite <- Hx; apply Hall; right; left].
           rewrite <- Hx. rewrite decide_False.
           { rewrite decide_True by reflexivity. reflexivity. }
           apply NoDup_cons in Hnd as [Hn _]. intros E. apply Hn. rewrite E. left.
      * exists (KEY (heap s !!! x), RESULT (heap s !!! x)). split; [|split].
        -- unfold contents, contents_of.
           rewrite (Permutation_map _ Hc), (Permutation_map _ Hd). simpl. reflexivity.
        -- destruct (recency_inv _ _ _ H) as [-> _]. reflexivity.
        -- unfold contents. rewrite dict_remove_contents_of. simpl fst.
           rewrite Hold in Hdel. unfold dict_del in Hdel.
           destruct (key_hash (KEY (heap s !!! x))); [|discriminate Hdel].
           destruct (dict_remove (KEY (heap s !!! x)) (cache s)); [|discriminate Hdel].
           injection Hdel as ->. reflexivity.
    + rewrite Z.geb_leb in Efull. apply Z.leb_gt in Efull.
      unfold result_of, exec. rewrite (append_link_exec _ _ _ Hk).
      cbn [fst snd after_miss]. repeat (split; [reflexivity|]).
      rewrite (dict_store_new _ _ _ Ef).
      exists (contents s). split; [|reflexivity].
      unfold contents. simpl. rewrite contents_of_app. f_equal.
      * apply contents_of_ext. intros k0 a Hin.
        destruct (lru_inv_entry _ _ _ _ _ H Hin) as (a' & E & Ha & _). injection E as <-.
        rewrite append_heap_RESULT. rewrite decide_False; [reflexivity|].
        specialize (Hall a ltac:(right; exact Ha)). lia.
      * simpl. unfold result_at. rewrite append_heap_RESULT, decide_True by reflexivity.
        reflexivity.
Qed.

Lemma unbounded_step typed f args kwds s k :
  cache_inv None s ->
  _make_key args kwds typed = Ok k ->
  let c := wrapper_unbounded typed f args kwds in
  match dict_find k (contents s) with
  | Some v => c s = (Ok (OVal v), incr_HITS s, [])
  | None =>
      match f args kwds with
      | Raise e => c s = (Raise e, s, [Call args kwds])
      | Ok v =>
          result_of c s = Ok (OVal v) /\ trace_of c s = [Call args kwds] /\
          HITS (exec c s) = HITS s /\ MISSES (exec c s) = S (MISSES s) /\
          contents (exec c s) = contents s ++ [(k, v)]
      end
  end.
Proof.
  intros H Ek c. subst c. unfold result_of, trace_of, exec.
  rewrite wrapper_unbounded_eq, Ek.
  unfold contents at 1. rewrite dict_find_contents_of.
  destruct (dict_find k (cache s)) as [o|] eqn:Ef; cbn [option_map].
  - apply dict_find_In in Ef as (k' & Hin & _). apply list_elem_of_In in Hin.
    destruct (H _ _ Hin) as [v ->]. reflexivity.
  - destruct (f args kwds) as [v|e]; [|reflexivity].
    cbn [fst snd]. repeat (split; [reflexivity|]).
    unfold contents. simpl. rewrite (dict_store_new _ _ _ Ef), contents_of_app.
    reflexivity.
Qed.

Lemma reachable_inv maxsize typed f s :
  caching maxsize -> reachable maxsize typed f s -> cache_inv maxsize s.
Proof.
  intros Hc Hr. destruct maxsize as [bound|].
  - apply (reachable_lru_inv bound typed f s); [apply Hc; reflexivity|exact Hr].
  - simpl. induction Hr as [|s args kwds _ IH|s _ IH].
    + intros k o Hin. inversion Hin.
    + unfold exec, wrapper. rewrite wrapper_unbounded_eq.
      destruct (_make_key args kwds typed) as [k|]; [|exact IH].
      destruct (dict_find k (cache s)) eqn:Ef; [exact IH|].
      destruct (f args kwds) as [v|]; [|exact IH].
      simpl. rewrite (dict_store_new _ _ _ Ef). intros k' o Hin.
      apply elem_of_app in Hin as [Hin|Hin]; [eauto|].
      apply list_elem_of_singleton in Hin. injection Hin as _ ->. eauto.
    + rewrite cache_clear_exec. simpl. intros k o Hin. inversion Hin.
Qed.

(** One call of a caching wrapper, read on the results the cache holds:
    a stored key is a hit, another one a miss that stores the result at
    the end of what is kept. *)
Lemma caching_step maxsize typed f args kwds s k :
  caching maxsize ->
  cache_inv maxsize s ->
  cache_key maxsize typed args kwds = Ok k ->
  is_Ok (key_hash k) = true ->
  let c := wrapper maxsize typed f args kwds in
  match dict_find k (contents s) with
  | Some v =>
      result_of c s = Ok (OVal v) /\ invocations (trace_of c s) = [] /\
      contents (exec c s) = contents s /\
      HITS (exec c s) = S (HITS s) /\ MISSES (exec c s) = MISSES s
  | None =>
      match f args kwds with
      | Raise e =>
          result_of c s = Raise e /\ exec c s = s /\
          invocations (trace_of c s) = [(args, kwds)]
      | Ok v =>
          result_of c s = Ok (OVal v) /\
          invocations (trace_of c s) = [(args, kwds)] /\
          HITS (exec c s) = HITS s /\ MISSES (exec c s) = S (MISSES s) /\
          exists kept,
            contents (exec c s) = kept ++ [(k, v)] /\
            if full maxsize s
            then exists e, contents s ≡ₚ e :: kept /\
                           hd_error (recency s) = Some (fst e) /\
                           dict_remove (fst e) (contents s) = Some kept
            else kept = contents s
      end
  end.
Proof.
  intros Hc H Ek Hk c. subst c. destruct maxsize as [bound|].
  - assert (Hb : 1 <= bound) by (apply Hc; reflexivity).
    rewrite (wrapper_pos_or_neg (Some bound) typed f bound eq_refl) by lia.
    destruct H as [order H]. simpl in Ek.
    pose proof (bounded_step bound typed f args kwds s order k Hb H Ek Hk) as S.
    cbv zeta in S.
    destruct (dict_find k (contents s)) as [v|].
    + destruct S as (-> & -> & -> & -> & ->). auto.
    + destruct (f args kwds) as [v|e].
      * destruct S as (-> & -> & -> & -> & kept & -> & Hkept).
        do 4 (split; [reflexivity|]). exists kept. split; [reflexivity|].
        exact Hkept.
      * unfold result_of, exec, trace_of. rewrite S. repeat split.
  - simpl in Ek. unfold wrapper.
    pose proof (unbounded_step typed f args kwds s k H Ek) as S. cbv zeta in S.
    destruct (dict_find k (contents s)) as [v|].
    + unfold result_of, exec, trace_of. rewrite S. repeat split.
    + destruct (f args kwds) as [v|e].
      * destruct S as (-> & -> & -> & -> & ->).
        do 4 (split; [reflexivity|]). exists (contents s). split; reflexivity.
      * unfold result_of, exec, trace_of. rewrite S. repeat split.
Qed.

(** A call for which no key can be built or hashed changes nothing. *)
Lemma caching_no_key maxsize typed f args kwds s :
  caching maxsize ->
  match cache_key maxsize typed args kwds with
  | Ok k => is_Ok (key_hash k) = false
  | Raise _ => True
  end ->
  let c := wrapper maxsize typed f args kwds in
  exec c s = s /\ is_Ok (result_of c s) = false.
Proof.
  intros Hc Hk c. subst c. unfold exec, result_of. destruct maxsize as [bound|].
  - assert (Hb : 1 <= bound) by (apply Hc; reflexivity).
    rewrite (wrapper_pos_or_neg (Some bound) typed f bound eq_refl) by lia.
    rewrite wrapper_bounded_eq. simpl in Hk.
    destruct (wrapper_key typed args kwds) as [k|e]; [|auto].
    unfold dict_get. destruct (key_hash k); [discriminate|]. auto.
  - unfold wrapper. rewrite wrapper_unbounded_eq. simpl in Hk.
    destruct (_make_key args kwds typed) as [k|e] eqn:Ek; [|auto].
    rewrite (_make_key_hashable _ _ _ _ Ek) in Hk. discriminate.
Qed.

Lemma dict_find_app {V} k (d d' : dict V) :
  dict_find k (d ++ d') =
  match dict_find k d with Some v => Some v | None => dict_find k d' end.
Proof.
  induction d as [|[k' v'] d IH]; simpl; [reflexivity|].
  destruct (key_match k' k); [reflexivity|exact IH].
Qed.

Lemma dict_find_sub {V} k (d d' : dict V) :
  (forall e, e ∈ d' -> e ∈ d) -> dict_find k d = None -> dict_find k d' = None.
Proof.
  intros Hs Hf. apply dict_find_touches, touches_false.
  intros k' Hk'. apply elem_of_map_inv in Hk' as ([k0 v0] & E & Hin).
  simpl in E. subst k0.
  apply dict_find_touches in Hf. rewrite touches_false in Hf. apply Hf.
  apply (elem_of_map fst _ (k', v0)). apply Hs, Hin.
Qed.

Lemma kept_sub maxsize s (kept : dict value) :
  (if full maxsize s
   then exists e, contents s ≡ₚ e :: kept /\
                  hd_error (recency s) = Some (fst e) /\
                  dict_remove (fst e) (contents s) = Some kept
   else kept = contents s) ->
  forall e, e ∈ kept -> e ∈ contents s.
Proof.
  destruct (full maxsize s).
  - intros (e0 & Hp & _) e He. rewrite Hp. right. exact He.
  - intros -> e He. exact He.
Qed.

(** After a call that returned, the cache holds the returned result
    under the key of the call. *)
Lemma returned_is_stored maxsize typed f args kwds s o :
  caching maxsize ->
  cache_inv maxsize s ->
  result_of (wrapper maxsize typed f args kwds) s = Ok o ->
  exists k v,
    cache_key maxsize typed args kwds = Ok k /\ is_Ok (key_hash k) = true /\
    o = OVal v /\
    dict_find k (contents (exec (wrapper maxsize typed f args kwds) s)) = Some v /\
    (dict_find k (contents s) = Some v \/
     dict_find k (contents s) = None /\ f args kwds = Ok v).
Proof.
  intros Hc H Hr.
  destruct (cache_key maxsize typed args kwds) as [k|e] eqn:Ek.
  2:{ destruct (caching_no_key maxsize typed f args kwds s Hc) as [_ Hn];
        [rewrite Ek; exact I|]. cbv zeta in Hn. rewrite Hr in Hn. discriminate. }
  destruct (is_Ok (key_hash k)) eqn:Hk.
  2:{ destruct (caching_no_key maxsize typed f args kwds s Hc) as [_ Hn];
        [rewrite Ek; exact Hk|]. cbv zeta in Hn. rewrite Hr in Hn. discriminate. }
  pose proof (caching_step maxsize typed f args kwds s k Hc H Ek Hk) as S.
  cbv zeta in S. exists k.
  destruct (dict_find k (contents s)) as [v|] eqn:Ef.
  - destruct S as (Hres & _ & Hcont & _). exists v. rewrite Hcont.
    rewrite Hres in Hr. injection Hr as <-.
    split; [reflexivity|]. split; [exact Hk|]. split; [reflexivity|].
    split; [exact Ef|]. left. reflexivity.
  - destruct (f args kwds) as [v|e].
    + destruct S as (Hres & _ & _ & _ & kept & Hcont & Hkept). exists v.
      rewrite Hres in Hr. injection Hr as <-.
      split; [reflexivity|]. split; [exact Hk|]. split; [reflexivity|].
      split; [|auto].
      rewrite Hcont, dict_find_app.
      rewrite (dict_find_sub k _ kept (kept_sub _ _ _ Hkept) Ef).
      simpl. rewrite (key_match_refl _ Hk). reflexivity.
    + destruct S as (Hres & _). rewrite Hres in Hr. discriminate.
Qed.

Lemma dict_find_hashable {V} k (d : dict V) v :
  dict_find k d = Some v -> is_Ok (key_hash k) = true.
Proof.
  intros H. apply dict_find_In in H as (k' & _ & Hm).
  apply key_match_hashable in Hm. apply Hm.
Qed.

(** ** Hits and misses *)

(** X4: a call whose key the cache holds is a hit: it returns the stored
    result, does not run the computation, and changes nothing but the
    count of hits, in the unbounded and in the bounded wrapper. *)
Theorem stored_key_is_a_hit
    (maxsize : option Z) (typed : bool) (f : list value -> kwargs -> outcome value)
    (s : state) (args : list value) (kwds : kwargs) (k : key) (v : value) :
  caching maxsize ->
  reachable maxsize typed f s ->
  cache_key maxsize typed args kwds = Ok k ->
  dict_find k (contents s) = Some v ->
  let c := wrapper maxsize typed f args kwds in
  result_of c s = Ok (OVal v) /\
  invocations (trace_of c s) = [] /\
  contents (exec c s) = contents s /\
  HITS (exec c s) = S (HITS s) /\ MISSES (exec c s) = MISSES s.
Proof.
  intros Hc Hr Ek Ef c.
  pose proof (caching_step maxsize typed f args kwds s k Hc
                (reachable_inv _ _ _ _ Hc Hr) Ek (dict_find_hashable _ _ _ Ef)) as S.
  cbv zeta in S. rewrite Ef in S. exact S.
Qed.

Lemma stored_key_is_a_hit_witness :
  let f : list value -> kwargs -> outcome value := fun args _ => Ok (VTuple args) in
  let s := exec (wrapper (Some 1) false f [VInt 1] []) initial_state in
  let c := wrapper (Some 1) false f [VFloat 1] [] in
  result_of c s = Ok (OVal (VTuple [VInt 1])) /\
  invocations (trace_of c s) = [] /\
  contents (exec c s) = contents s /\
  HITS (exec c s) = S (HITS s) /\ MISSES (exec c s) = MISSES s.
Proof.
  intros f s.
  apply (stored_key_is_a_hit (Some 1) false f s [VFloat 1] []
           (KVal (VTuple [VFloat 1])) (VTuple [VInt 1])).
  - intros n [= <-]. lia.
  - apply reach_call, reach_init.
  - reflexivity.
  - reflexivity.
Defined.

(** X5: a call whose key is hashable and not in the cache, and whose
    computation returns, is a miss: the computation runs once, its
    result is returned and stored under the key, after the entries that
    are kept: all of them unless the cache is full, all but that of the
    least recently used key if it is. *)
Theorem new_key_is_a_miss
    (maxsize : option Z) (typed : bool) (f : list value -> kwargs -> outcome value)
    (s : state) (args : list value) (kwds : kwargs) (k : key) (v : value) :
  caching maxsize ->
  reachable maxsize typed f s ->
  cache_key maxsize typed args kwds = Ok k ->
  is_Ok (key_hash k) = true ->
  dict_find k (contents s) = None ->
  f args kwds = Ok v ->
  let c := wrapper maxsize typed f args kwds in
  result_of c s = Ok (OVal v) /\
  invocations (trace_of c s) = [(args, kwds)] /\
  HITS (exec c s) = HITS s /\ MISSES (exec c s) = S (MISSES s) /\
  dict_find k (contents (exec c s)) = Some v /\
  exists kept,
    contents (exec c s) = kept ++ [(k, v)] /\
    if full maxsize s
    then exists e, contents s ≡ₚ e :: kept /\
                   hd_error (recency s) = Some (fst e) /\
                   dict_remove (fst e) (contents s) = Some kept
    else kept = contents s.
Proof.
  intros Hc Hr Ek Hk Ef Hf c.
  pose proof (caching_step maxsize typed f args kwds s k Hc
                (reachable_inv _ _ _ _ Hc Hr) Ek Hk) as S.
  cbv zeta in S. rewrite Ef, Hf in S.
  destruct S as (H1 & H2 & H3 & H4 & kept & H5 & H6).
  repeat (split; [assumption|]). split; [|eauto].
  subst c. rewrite H5, dict_find_app.
  rewrite (dict_find_sub k _ kept (kept_sub _ _ _ H6) Ef).
  simpl. rewrite (key_match_refl _ Hk). reflexivity.
Qed.

Lemma new_key_is_a_miss_witness :
  let f : list value -> kwargs -> outcome value := fun args _ => Ok (VTuple args) in
  let s := exec (wrapper (Some 1) false f [VInt 1] []) initial_state in
  let c := wrapper (Some 1) false f [VInt 2] [] in
  let k := KVal (VTuple [VInt 2]) in
  let v := VTuple [VInt 2] in
  result_of c s = Ok (OVal v) /\
  invocations (trace_of c s) = [([VInt 2], [])] /\
  HITS (exec c s) = HITS s /\ MISSES (exec c s) = S (MISSES s) /\
  dict_find k (contents (exec c s)) = Some v /\
  exists kept,
    contents (exec c s) = kept ++ [(k, v)] /\
    if full (Some 1) s
    then exists e, contents s ≡ₚ e :: kept /\
                   hd_error (recency s) = Some (fst e) /\
                   dict_remove (fst e) (contents s) = Some kept
    else kept = contents s.
Proof.
  intros f s.
  apply (new_key_is_a_miss (Some 1) false f s [VInt 2] []
           (KVal (VTuple [VInt 2])) (VTuple [VInt 2])).
  - intros n [= <-]. lia.
  - apply reach_call, reach_init.
  - reflexivity.
  - reflexivity.
  - reflexivity.
  - reflexivity.
Defined.

(** X6: memoisation.  A call that returned, made again at once, returns
    the same result without running the computation, and counts as a
    hit. *)
Theorem repeated_call_is_a_hit
    (maxsize : option Z) (typed : bool) (f : list value -> kwargs -> outcome value)
    (s : state) (args : list value) (kwds : kwargs) (o : obj) :
  caching maxsize ->
  reachable maxsize typed f s ->
  let c := wrapper maxsize typed f args kwds in
  result_of c s = Ok o ->
  result_of c (exec c s) = Ok o /\
  invocations (trace_of c (exec c s)) = [] /\
  HITS (exec c (exec c s)) = S (HITS (exec c s)) /\
  MISSES (exec c (exec c s)) = MISSES (exec c s).
Proof.
  intros Hc Hr c Hres. subst c.
  destruct (returned_is_stored maxsize typed f args kwds s o Hc
              (reachable_inv _ _ _ _ Hc Hr) Hres)
    as (k & v & Ek & Hk & -> & Hst & _).
  pose proof (caching_step maxsize typed f args kwds _ k Hc
                (reachable_inv _ _ _ _ Hc (reach_call _ _ _ s args kwds Hr)) Ek Hk) as S.
  cbv zeta in S. rewrite Hst in S. destruct S as (H1 & H2 & _ & H3 & H4). auto.
Qed.

Lemma repeated_call_is_a_hit_witness :
  let f : list value -> kwargs -> outcome value := fun args _ => Ok (VTuple args) in
  let c := wrapper None true f [VInt 1] [("x"%string, VStr "a"%string)] in
  let s := initial_state in
  result_of c (exec c s) = Ok (OVal (VTuple [VInt 1])) /\
  invocations (trace_of c (exec c s)) = [] /\
  HITS (exec c (exec c s)) = S (HITS (exec c s)) /\
  MISSES (exec c (exec c s)) = MISSES (exec c s).
Proof.
  intros f.
  apply (repeated_call_is_a_hit None true f initial_state [VInt 1] [("x"%string, VStr "a"%string)]
           (OVal (VTuple [VInt 1]))).
  - intros n [=].
  - apply reach_init.
  - reflexivity.
Defined.

(** ** Where stored results come from *)

Lemma call_contents maxsize typed f args kwds s :
  caching maxsize -> cache_inv maxsize s ->
  forall e, e ∈ contents (exec (wrapper maxsize typed f args kwds) s) ->
    e ∈ contents s \/
    (cache_key maxsize typed args kwds = Ok (fst e) /\ f args kwds = Ok (snd e)).
Proof.
  intros Hc H e He.
  destruct (cache_key maxsize typed args kwds) as [k|e0] eqn:Ek.
  2:{ destruct (caching_no_key maxsize typed f args kwds s Hc) as [Hs _];
        [rewrite Ek; exact I|]. cbv zeta in Hs. rewrite Hs in He. auto. }
  destruct (is_Ok (key_hash k)) eqn:Hk.
  2:{ destruct (caching_no_key maxsize typed f args kwds s Hc) as [Hs _];
        [rewrite Ek; exact Hk|]. cbv zeta in Hs. rewrite Hs in He. auto. }
  pose proof (caching_step maxsize typed f args kwds s k Hc H Ek Hk) as S.
  cbv zeta in S.
  destruct (dict_find k (contents s)) as [v|] eqn:Ef.
  - destruct S as (_ & _ & Hcont & _). rewrite Hcont in He. auto.
  - destruct (f args kwds) as [v|e1].
    + destruct S as (_ & _ & _ & _ & kept & Hcont & Hkept).
      rewrite Hcont in He. apply elem_of_app in He as [He|He].
      * left. eapply kept_sub; eassumption.
      * apply list_elem_of_singleton in He. subst e. auto.
    + destruct S as (_ & Hs & _). rewrite Hs in He. auto.
Qed.

Lemma contents_clear s : contents (exec cache_clear s) = [].
Proof. rewrite cache_clear_exec. reflexivity. Qed.

Lemma reachable_contents maxsize typed f s :
  caching maxsize -> reachable maxsize typed f s ->
  forall k v, (k, v) ∈ contents s ->
    exists args kwds, cache_key maxsize typed args kwds = Ok k /\ f args kwds = Ok v.
Proof.
  intros Hc Hr. induction Hr as [|s args kwds Hr IH|s Hr IH]; intros k v Hin.
  - inversion Hin.
  - destruct (call_contents maxsize typed f args kwds s Hc
                (reachable_inv _ _ _ _ Hc Hr) _ Hin) as [Hold|[H1 H2]]; eauto.
  - rewrite contents_clear in Hin. inversion Hin.
Qed.

(** X7: a caching wrapper never invents a result.  Every result held by
    a cache that calls and clears can reach was returned by the
    computation for arguments with the key it is stored under, and every
    result a call returns was returned by the computation for arguments
    whose key matches the key of the call. *)
Theorem results_come_from_the_computation
    (maxsize : option Z) (typed : bool) (f : list value -> kwargs -> outcome value)
    (s : state) :
  caching maxsize ->
  reachable maxsize typed f s ->
  (forall k v, (k, v) ∈ contents s ->
     exists args kwds,
       cache_key maxsize typed args kwds = Ok k /\ f args kwds = Ok v) /\
  (forall args kwds o,
     result_of (wrapper maxsize typed f args kwds) s = Ok o ->
     exists v args' kwds' k k',
       o = OVal v /\ f args' kwds' = Ok v /\
       cache_key maxsize typed args kwds = Ok k /\
       cache_key maxsize typed args' kwds' = Ok k' /\
       key_match k' k = true).
Proof.
  intros Hc Hr. split; [apply reachable_contents; assumption|].
  intros args kwds o Hres.
  destruct (returned_is_stored maxsize typed f args kwds s o Hc
              (reachable_inv _ _ _ _ Hc Hr) Hres)
    as (k & v & Ek & Hk & -> & _ & [Hhit|[_ Hmiss]]).
  - apply dict_find_In in Hhit as (k' & Hin & Hm). apply list_elem_of_In in Hin.
    destruct (reachable_contents maxsize typed f s Hc Hr k' v Hin)
      as (args' & kwds' & Ek' & Hf).
    exists v, args', kwds', k, k'. auto.
  - exists v, args, kwds, k, k. split; [reflexivity|]. split; [exact Hmiss|].
    split; [exact Ek|]. split; [exact Ek|]. apply key_match_refl, Hk.
Qed.

Lemma results_come_from_the_computation_witness :
  let f : list value -> kwargs -> outcome value := fun args _ => Ok (VTuple args) in
  let s := exec (wrapper (Some 1) false f [VInt 2] [])
             (exec (wrapper (Some 1) false f [VInt 1] []) initial_state) in
  (forall k v, (k, v) ∈ contents s ->
     exists args kwds,
       cache_key (Some 1) false args kwds = Ok k /\ f args kwds = Ok v) /\
  (forall args kwds o,
     result_of (wrapper (Some 1) false f args kwds) s = Ok o ->
     exists v args' kwds' k k',
       o = OVal v /\ f args' kwds' = Ok v /\
       cache_key (Some 1) false args kwds = Ok k /\
       cache_key (Some 1) false args' kwds' = Ok k' /\
       key_match k' k = true).
Proof.
  intros f s.
  apply (results_come_from_the_computation (Some 1) false f s).
  - intros n [= <-]. lia.
  - apply reach_call, reach_call, reach_init.
Defined.

(** ** The cache without bound *)

Lemma run_reachable maxsize typed f calls s :
  reachable maxsize typed f s ->
  reachable maxsize typed f (snd (run maxsize typed f calls s)).
Proof.
  revert s. induction calls as [|[args kwds] rest IH]; intros s Hr; [exact Hr|].
  rewrite run_cons. simpl. apply IH, reach_call, Hr.
Qed.

Lemma unbounded_call_keeps typed f args kwds s k v :
  dict_find k (contents s) = Some v ->
  dict_find k (contents (exec (wrapper None typed f args kwds) s)) = Some v.
Proof.
  intros Hf. unfold exec, wrapper. rewrite wrapper_unbounded_eq.
  destruct (_make_key args kwds typed) as [k'|]; [|exact Hf].
  destruct (dict_find k' (cache s)) eqn:Ef; [exact Hf|].
  destruct (f args kwds) as [v'|]; [|exact Hf].
  cbn [fst snd]. unfold contents. simpl.
  rewrite (dict_store_new _ _ _ Ef), contents_of_app, dict_find_app.
  unfold contents in Hf. rewrite Hf. reflexivity.
Qed.

(** X8: the cache without bound never forgets.  A result it holds is
    still held after any further calls, whatever their arguments and
    outcomes, and a call with that key then returns it without running
    the computation. *)
Theorem unbounded_never_forgets
    (typed : bool) (f : list value -> kwargs -> outcome value)
    (s : state) (calls : list (list value * kwargs))
    (args : list value) (kwds : kwargs) (k : key) (v : value) :
  reachable None typed f s ->
  _make_key args kwds typed = Ok k ->
  dict_find k (contents s) = Some v ->
  let s' := snd (run None typed f calls s) in
  dict_find k (contents s') = Some v /\
  result_of (wrapper None typed f args kwds) s' = Ok (OVal v) /\
  invocations (trace_of (wrapper None typed f args kwds) s') = [].
Proof.
  intros Hr Ek Hf s'.
  assert (Hf' : dict_find k (contents s') = Some v).
  { subst s'. clear Hr. revert s Hf.
    induction calls as [|[a kw] rest IH]; intros s Hf; [exact Hf|].
    rewrite run_cons. simpl. apply IH, unbounded_call_keeps, Hf. }
  split; [exact Hf'|].
  assert (Hc : caching None) by (intros n [=]).
  pose proof (caching_step None typed f args kwds s' k Hc
                (reachable_inv _ _ _ _ Hc (run_reachable _ _ _ calls _ Hr))
                Ek (dict_find_hashable _ _ _ Hf')) as S.
  cbv zeta in S. rewrite Hf' in S. destruct S as (H1 & H2 & _). auto.
Qed.

Lemma unbounded_never_forgets_witness :
  let f : list value -> kwargs -> outcome value := fun args _ => Ok (VTuple args) in
  let s := exec (wrapper None false f [VInt 1; VInt 2] []) initial_state in
  let s' := snd (run None false f [([VInt 3], []); ([VList []], []); ([VInt 4], [])] s) in
  dict_find (KHashedSeq [VInt 1; VInt 2] (tuple_hash [1; 2])) (contents s') =
    Some (VTuple [VInt 1; VInt 2]) /\
  result_of (wrapper None false f [VInt 1; VInt 2] []) s' =
    Ok (OVal (VTuple [VInt 1; VInt 2])) /\
  invocations (trace_of (wrapper None false f [VInt 1; VInt 2] []) s') = [].
Proof.
  intros f s.
  apply (unbounded_never_forgets false f s
           [([VInt 3], []); ([VList []], []); ([VInt 4], [])]
           [VInt 1; VInt 2] []
           (KHashedSeq [VInt 1; VInt 2] (tuple_hash [1; 2])) (VTuple [VInt 1; VInt 2])).
  - apply reach_call, reach_init.
  - reflexivity.
  - reflexivity.
Defined.

(** X9: without bound the reported size is the reported number of
    misses: every miss adds an entry and nothing ever removes one. *)
Theorem unbounded_size_is_misses
    (typed : bool) (f : list value -> kwargs -> outcome value) (s : state) :
  reachable None typed f s ->
  exists i, result_of (cache_info None) s = Ok i /\
    CacheInfo.currsize i = CacheInfo.misses i /\
    CacheInfo.maxsize i = None.
Proof.
  intros Hr. eexists. split; [reflexivity|]. simpl. split; [|reflexivity].
  induction Hr as [|s args kwds _ IH|s _ IH].
  - reflexivity.
  - unfold exec, wrapper. rewrite wrapper_unbounded_eq.
    destruct (_make_key args kwds typed) as [k|]; [|exact IH].
    destruct (dict_find k (cache s)) eqn:Ef; [exact IH|].
    destruct (f args kwds) as [v|]; [|exact IH].
    simpl. rewrite (dict_store_new _ _ _ Ef), length_app. simpl. lia.
  - rewrite cache_clear_exec. reflexivity.
Qed.

Lemma unbounded_size_is_misses_witness :
  let f : list value -> kwargs -> outcome value := fun args _ => Ok (VTuple args) in
  let s := exec (wrapper None true f [VInt 1] [])
             (exec (wrapper None true f [VInt 1] [])
                (exec (wrapper None true f [VFloat 1] []) initial_state)) in
  exists i, result_of (cache_info None) s = Ok i /\
    CacheInfo.currsize i = CacheInfo.misses i /\
    CacheInfo.maxsize i = None.
Proof.
  intros f s.
  apply (unbounded_size_is_misses true f s).
  apply reach_call, reach_call, reach_call, reach_init.
Defined.

(** ** A negative bound *)

Lemma negative_call n typed f args kwds :
  n < 0 ->
  let c := wrapper_bounded typed f n args kwds in
  exec c initial_state = initial_state /\
  is_Ok (result_of c initial_state) = false /\
  forall v, hashable_args args kwds = true -> f args kwds = Ok v ->
    result_of c initial_state = Raise KeyError /\
    invocations (trace_of c initial_state) = [(args, kwds)].
Proof.
  intros Hn c. subst c. unfold exec, result_of, trace_of.
  rewrite wrapper_bounded_eq.
  destruct (wrapper_key typed args kwds) as [k|e] eqn:Ek.
  2:{ cbn [fst snd is_Ok]. split; [reflexivity|]. split; [reflexivity|].
      intros v Hh _. destruct (wrapper_key_Ok typed args kwds Hh) as [k Hk]. congruence. }
  unfold dict_get. destruct (key_hash k) as [h|e] eqn:Eh.
  2:{ cbn [fst snd is_Ok]. split; [reflexivity|]. split; [reflexivity|].
      intros v Hh _. pose proof (wrapper_key_hashable typed args kwds k Hh Ek) as H.
      rewrite Eh in H. discriminate. }
  assert (Hk : is_Ok (key_hash k) = true) by (rewrite Eh; reflexivity).
  change (dict_find k (cache initial_state)) with (@None obj).
  destruct (f args kwds) as [v|e]; cbn [fst snd is_Ok].
  2:{ split; [reflexivity|]. split; [reflexivity|]. intros v _ [=]. }
  assert (E : commit n k v initial_state = (Raise KeyError, initial_state, [])).
  { rewrite (commit_eq _ _ _ _ Hk). change (dict_find k (cache initial_state)) with (@None obj).
    cbv zeta. change (length (cache initial_state)) with 0%nat.
    assert (Hfull : (Z.of_nat 0 >=? n) = true).
    { rewrite Z.geb_leb. apply Z.leb_le. simpl. lia. }
    rewrite Hfull.
    assert (Eb : evict_and_reuse (nonlocal_root initial_state) k v initial_state =
                 (Raise KeyError, initial_state, [])).
    { unfold evict_and_reuse. unfold_M. unfold heap_wr, dict_del. simpl.
      rewrite Eh. reflexivity. }
    unfold result_of, exec. rewrite Eb. reflexivity. }
  unfold result_of, exec. rewrite E. cbn [fst snd is_Ok].
  split; [reflexivity|]. split; [reflexivity|]. intros v' _ _. split; reflexivity.
Qed.

(** X10: a cache built with a negative [maxsize] never stores and never
    returns.  Whatever calls and clears were made it is in its initial
    state, every call raises, and a call with hashable arguments whose
    computation returns raises [KeyError] after having run the
    computation once. *)
Theorem negative_maxsize_never_returns
    (n : Z) (typed : bool) (f : list value -> kwargs -> outcome value)
    (s : state) (args : list value) (kwds : kwargs) :
  n < 0 ->
  reachable (Some n) typed f s ->
  let c := wrapper (Some n) typed f args kwds in
  s = initial_state /\
  is_Ok (result_of c s) = false /\
  forall v, hashable_args args kwds = true -> f args kwds = Ok v ->
    result_of c s = Raise KeyError /\
    invocations (trace_of c s) = [(args, kwds)].
Proof.
  intros Hn Hr c. subst c.
  rewrite (wrapper_pos_or_neg (Some n) typed f n eq_refl) by lia.
  assert (Hs : s = initial_state).
  { induction Hr as [|s a kw _ IH|s _ IH].
    - reflexivity.
    - rewrite (wrapper_pos_or_neg (Some n) typed f n eq_refl) by lia.
      rewrite IH. apply (negative_call n typed f a kw Hn).
    - rewrite IH. reflexivity. }
  split; [exact Hs|]. rewrite Hs.
  apply (negative_call n typed f args kwds Hn).
Qed.

Lemma negative_maxsize_never_returns_witness :
  let f : list value -> kwargs -> outcome value := fun args _ => Ok (VTuple args) in
  let s := exec (wrapper (Some (-2)) false f [VInt 1] []) initial_state in
  let c := wrapper (Some (-2)) false f [VInt 5] [] in
  s = initial_state /\
  is_Ok (result_of c s) = false /\
  forall v, hashable_args [VInt 5] [] = true -> f [VInt 5] [] = Ok v ->
    result_of c s = Raise KeyError /\
    invocations (trace_of c s) = [([VInt 5], [])].
Proof.
  intros f s.
  apply (negative_maxsize_never_returns (-2) false f s [VInt 5] []).
  - lia.
  - apply reach_call, reach_init.
Defined.

(** ** Matching keys come from equal arguments *)

Lemma py_eq_mark (v : value) : py_same (VObject 0) v = true -> v = VObject 0.
Proof.
  unfold py_same. destruct v as [| | | | | | |[|id]| |]; simpl; try discriminate.
  reflexivity.
Qed.

Lemma all2_app_lt {A} (g : A -> A -> bool) (a1 : list A) x r1 a2 r2 :
  all2 g (a1 ++ x :: r1) (a2 ++ r2) = true ->
  (length a1 < length a2)%nat ->
  exists y, In y a2 /\ g x y = true.
Proof.
  revert a2. induction a1 as [|z a1 IH]; intros [|y a2]; simpl; try lia.
  - intros H _. apply andb_true_iff in H as [H _]. eauto.
  - intros H Hl. apply andb_true_iff in H as [_ H].
    destruct (IH a2 H ltac:(lia)) as (y' & Hin & Hy). eauto.
Qed.

Lemma flat_items_length (l : kwargs) : length (flat_items l) = (2 * length l)%nat.
Proof. induction l as [|x l IH]; simpl; lia. Qed.

Lemma flat_items_eq (l m : kwargs) :
  all2 py_same (flat_items l) (flat_items m) = true -> all2 item_same l m = true.
Proof.
  revert m. induction l as [|x l IH]; intros [|y m]; simpl; try congruence.
  change (py_same (VStr (fst x)) (VStr (fst y)) &&
          (py_same (snd x) (snd y) &&
           all2 py_same (flat_items l) (flat_items m)) = true ->
          item_same x y && all2 item_same l m = true).
  rewrite !andb_true_iff. intros (H1 & H2 & H3). unfold item_same.
  unfold py_same in H1. simpl in H1. rewrite H1, H2. auto.
Qed.

(** Sorting the items keeps them all. *)
Lemma insert_item_Permutation (x : string * value) (l : kwargs) :
  insert_item x l ≡ₚ x :: l.
Proof.
  induction l as [|y l IH]; simpl; [reflexivity|].
  destruct (String.leb (fst x) (fst y)); [reflexivity|].
  rewrite IH. apply Permutation_swap.
Qed.

Lemma sorted_items (kwds : kwargs) : sorted kwds ≡ₚ kwds.
Proof.
  unfold sorted. induction kwds as [|x l IH]; simpl; [reflexivity|].
  rewrite insert_item_Permutation, IH. reflexivity.
Qed.

(** For arguments that equal themselves, identical or equal is equal. *)
Lemma all2_py_same_eq (l m : list value) :
  Forall (fun v => py_eq v v = true) l ->
  all2 py_same l m = true -> all2 py_eq l m = true.
Proof.
  intros H. revert m. induction H as [|x l Hx _ IH]; intros [|y m]; simpl;
    try congruence.
  rewrite !andb_true_iff. intros [H1 H2]. auto using py_same_eq.
Qed.

Lemma all2_item_same_eq (l m : kwargs) :
  Forall (fun v => py_eq v v = true) (map snd l) ->
  all2 item_same l m = true -> all2 item_eq l m = true.
Proof.
  revert m. induction l as [|x l IH]; intros [|y m] H; simpl; try congruence.
  apply Forall_cons in H as [Hx H].
  unfold item_same, item_eq. rewrite !andb_true_iff. intros [[H1 H2] H3].
  auto using py_same_eq.
Qed.

Lemma alike_call_same args1 kwds1 args2 kwds2 :
  Forall (fun v => py_eq v v = true) (args1 ++ map snd kwds1) ->
  alike_call args1 kwds1 args2 kwds2 = true ->
  same_call args1 kwds1 args2 kwds2 = true.
Proof.
  intros H. apply Forall_app in H as [Ha Hk].
  unfold alike_call, same_call. rewrite !andb_true_iff. intros [H1 H2]. split.
  - apply all2_py_same_eq; assumption.
  - apply all2_item_same_eq; [|exact H2].
    rewrite (Permutation_map snd (sorted_items kwds1)). exact Hk.
Qed.

Lemma call_types_length args kwds :
  length (call_types args kwds) = (length args + length kwds)%nat.
Proof. unfold call_types. rewrite length_app, !length_map, sorted_length. reflexivity. Qed.

Lemma key_layout_spec args kwds typed :
  _make_key args kwds typed =
  if negb typed && fast_path args kwds then Ok (KVal (hd VNone args))
  else _HashedSeq (key_layout args kwds typed).
Proof.
  rewrite _make_key_spec. unfold key_layout. destruct typed; simpl; [reflexivity|].
  rewrite app_nil_r. reflexivity.
Qed.

Lemma key_layout_length args kwds typed :
  length (key_layout args kwds typed) =
  (length args + (if is_nonempty kwds then 1 + 2 * length kwds else 0) +
   (if typed then length args + length kwds else 0))%nat.
Proof.
  unfold key_layout, key_base. rewrite length_app.
  assert (Ht : length (if typed then map VType (call_types args kwds) else []) =
               if typed then (length args + length kwds)%nat else 0%nat).
  { destruct typed; [rewrite length_map; apply call_types_length|reflexivity]. }
  rewrite Ht. destruct (is_nonempty kwds); [|lia].
  rewrite !length_app, flat_items_length, sorted_length. simpl. lia.
Qed.

(** Two calls whose sequences compare equal have equal arguments, and
    arguments of the same types when the types are part of the
    sequence. *)
Lemma key_layout_eq args1 kwds1 args2 kwds2 typed :
  ~ In (VObject 0) args1 -> ~ In (VObject 0) args2 ->
  all2 py_same (key_layout args1 kwds1 typed) (key_layout args2 kwds2 typed) = true ->
  alike_call args1 kwds1 args2 kwds2 = true /\
  (typed = true -> call_types args1 kwds1 = call_types args2 kwds2).
Proof.
  intros M1 M2 H.
  pose proof (all2_length _ _ _ H) as Hlen. rewrite !key_layout_length in Hlen.
  assert (Hmark : forall a1 k1 a2 k2,
    ~ In (VObject 0) a2 ->
    is_nonempty k1 = true ->
    all2 py_same (key_layout a1 k1 typed) (key_layout a2 k2 typed) = true ->
    (length a2 <= length a1)%nat).
  { intros a1 k1 a2 k2 Hm Hn Ha.
    destruct (decide (length a1 < length a2)%nat) as [Hlt|]; [|lia].
    exfalso.
    assert (Ha' : exists r2, key_layout a2 k2 typed = a2 ++ r2).
    { unfold key_layout, key_base. destruct (is_nonempty k2);
        rewrite <- ?app_assoc; eauto. }
    destruct Ha' as [r2 Er]. rewrite Er in Ha.
    unfold key_layout, key_base in Ha. rewrite Hn in Ha.
    unfold kwd_mark in Ha. rewrite <- !app_assoc in Ha. simpl in Ha.
    destruct (all2_app_lt _ _ _ _ _ _ Ha Hlt) as (y & Hin & Hy).
    apply py_eq_mark in Hy. subst y. exact (Hm Hin). }
  destruct (is_nonempty kwds1) eqn:N1, (is_nonempty kwds2) eqn:N2;
    rewrite ?N1, ?N2 in Hlen.
  - (* both calls have keywords *)
    assert (Hl : length args1 = length args2).
    { pose proof (Hmark _ _ _ _ M2 N1 H).
      rewrite all2_py_eq_sym in H. pose proof (Hmark _ _ _ _ M1 N2 H). lia. }
    assert (Hk : length kwds1 = length kwds2) by (destruct typed; cbv iota in Hlen; lia).
    unfold key_layout, key_base in H. rewrite N1, N2 in H.
    rewrite <- !app_assoc in H.
    rewrite all2_app in H by exact Hl. apply andb_true_iff in H as [Ha H].
    simpl in H. rewrite all2_app in H by (rewrite !flat_items_length, !sorted_length; lia).
    apply andb_true_iff in H as [Hf Ht]. apply flat_items_eq in Hf.
    split.
    + unfold alike_call. rewrite Ha, Hf. reflexivity.
    + intros ->. apply all2_types, Ht.
  - exfalso. pose proof (Hmark _ _ _ _ M2 N1 H).
    destruct kwds2; [|discriminate]. destruct typed; simpl in Hlen; lia.
  - exfalso. rewrite all2_py_eq_sym in H. pose proof (Hmark _ _ _ _ M1 N2 H).
    destruct kwds1; [|discriminate]. destruct typed; simpl in Hlen; lia.
  - destruct kwds1; [|discriminate]. destruct kwds2; [|discriminate].
    unfold key_layout, key_base, call_types in H. simpl in H.
    unfold alike_call, call_types. simpl. rewrite !app_nil_r in *.
    destruct typed.
    + simpl in Hlen. rewrite all2_app in H by lia.
      apply andb_true_iff in H as [Ha Ht]. rewrite Ha. split; [reflexivity|].
      intros _. apply all2_types, Ht.
    + rewrite !app_nil_r in H. rewrite H. split; [reflexivity|discriminate].
Qed.

Lemma _HashedSeq_seq l k : _HashedSeq l = Ok k -> exists h, k = KHashedSeq l h.
Proof. unfold _HashedSeq. destruct (py_hash (VTuple l)); intros [= <-]; eauto. Qed.

Lemma key_match_eq k1 k2 : key_match k1 k2 = true -> key_eq k1 k2 = true.
Proof.
  unfold key_match. destruct (key_hash k1), (key_hash k2); try discriminate.
  intros H. apply andb_true_iff in H. apply H.
Qed.

Lemma make_key_match args1 kwds1 args2 kwds2 typed k1 k2 :
  ~ In (VObject 0) args1 -> ~ In (VObject 0) args2 ->
  _make_key args1 kwds1 typed = Ok k1 ->
  _make_key args2 kwds2 typed = Ok k2 ->
  key_match k1 k2 = true ->
  alike_call args1 kwds1 args2 kwds2 = true /\
  (typed = true -> call_types args1 kwds1 = call_types args2 kwds2).
Proof.
  intros M1 M2. rewrite !key_layout_spec. intros H1 H2 Hm.
  apply key_match_eq in Hm.
  destruct (negb typed && fast_path args1 kwds1) eqn:F1;
    destruct (negb typed && fast_path args2 kwds2) eqn:F2.
  - apply andb_true_iff in F1 as [T F1]. apply andb_true_iff in F2 as [_ F2].
    destruct typed; [discriminate|].
    unfold fast_path in F1, F2.
    destruct args1 as [|a [|]], kwds1; try discriminate.
    destruct args2 as [|b [|]], kwds2; try discriminate.
    injection H1 as <-. injection H2 as <-.
    change (py_same a b = true) in Hm.
    unfold alike_call. simpl. rewrite Hm. split; [reflexivity|discriminate].
  - exfalso. apply andb_true_iff in F1 as [_ F1]. unfold fast_path in F1.
    destruct args1 as [|a [|]], kwds1; try discriminate.
    injection H1 as <-. apply _HashedSeq_seq in H2 as [h ->].
    destruct a; try discriminate.
  - exfalso. apply andb_true_iff in F2 as [_ F2]. unfold fast_path in F2.
    destruct args2 as [|a [|]], kwds2; try discriminate.
    injection H2 as <-. apply _HashedSeq_seq in H1 as [h ->].
    destruct a; try discriminate.
  - apply _HashedSeq_seq in H1 as [h1 ->]. apply _HashedSeq_seq in H2 as [h2 ->].
    simpl in Hm. apply key_layout_eq; assumption.
Qed.

Lemma cache_key_match maxsize typed args1 kwds1 args2 kwds2 k1 k2 :
  ~ In (VObject 0) args1 -> ~ In (VObject 0) args2 ->
  cache_key maxsize typed args1 kwds1 = Ok k1 ->
  cache_key maxsize typed args2 kwds2 = Ok k2 ->
  key_match k1 k2 = true ->
  alike_call args1 kwds1 args2 kwds2 = true /\
  (typed = true -> call_types args1 kwds1 = call_types args2 kwds2).
Proof.
  intros M1 M2. destruct maxsize as [bound|]; simpl;
    [|apply make_key_match; assumption].
  unfold wrapper_key. intros H1 H2 Hm.
  destruct (is_nonempty kwds1 || typed) eqn:E1;
    destruct (is_nonempty kwds2 || typed) eqn:E2.
  - eapply make_key_match; eassumption.
  - exfalso. apply orb_false_iff in E2 as [_ ->]. rewrite orb_false_r in E1.
    revert H1 H2 Hm. rewrite key_layout_spec. intros H1 [= <-] Hm.
    destruct kwds1 as [|p kwds1]; [discriminate|]. simpl in H1.
    replace (fast_path args1 (p :: kwds1)) with false in H1
      by (unfold fast_path; destruct args1 as [|? [|]]; reflexivity).
    apply _HashedSeq_seq in H1 as [h ->]. apply key_match_eq in Hm. discriminate.
  - exfalso. apply orb_false_iff in E1 as [_ ->]. rewrite orb_false_r in E2.
    revert H1 H2 Hm. rewrite key_layout_spec. intros [= <-] H2 Hm.
    destruct kwds2 as [|p kwds2]; [discriminate|]. simpl in H2.
    replace (fast_path args2 (p :: kwds2)) with false in H2
      by (unfold fast_path; destruct args2 as [|? [|]]; reflexivity).
    apply _HashedSeq_seq in H2 as [h ->]. apply key_match_eq in Hm. discriminate.
  - apply orb_false_iff in E1 as [E1 ->]. apply orb_false_iff in E2 as [E2 _].
    destruct kwds1; [|discriminate]. destruct kwds2; [|discriminate].
    injection H1 as <-. injection H2 as <-. apply key_match_eq in Hm.
    change (all2 py_same args1 args2 = true) in Hm.
    unfold alike_call. simpl. rewrite Hm. split; [reflexivity|discriminate].
Qed.

(** A NaN does not equal itself, yet a second call with the same NaN
    object finds the entry of the first: keys are matched by identity
    before [==]. *)
Example NaN_shares_its_key (maxsize : option Z) (typed : bool) (i : nat) :
  exists k, cache_key maxsize typed [VNaN i] [] = Ok k /\
            key_match k k = true /\
            same_call [VNaN i] [] [VNaN i] [] = false.
Proof.
  destruct maxsize as [n|], typed; eexists; (split; [reflexivity|]);
    (split; [apply key_match_refl|]); reflexivity.
Qed.

(** X11: no false sharing.  Two calls whose keys match have arguments
    that are, position by position and keyword by keyword, identical or
    equal, and, under [typed], of the same types.  When the arguments of
    one of the calls equal themselves, as every value but a NaN does,
    the arguments of the two calls compare equal with [==]; so a hit
    only ever returns a result computed for equal arguments, or for the
    very same NaN.  The separator between positional and keyword
    arguments is private to the module: the property is for calls that
    do not pass it. *)
Theorem matching_keys_mean_equal_arguments
    (maxsize : option Z) (typed : bool)
    (args1 : list value) (kwds1 : kwargs) (args2 : list value) (kwds2 : kwargs)
    (k1 k2 : key) :
  ~ In (VObject 0) args1 -> ~ In (VObject 0) args2 ->
  cache_key maxsize typed args1 kwds1 = Ok k1 ->
  cache_key maxsize typed args2 kwds2 = Ok k2 ->
  key_match k1 k2 = true ->
  alike_call args1 kwds1 args2 kwds2 = true /\
  (typed = true -> call_types args1 kwds1 = call_types args2 kwds2) /\
  (Forall (fun v => py_eq v v = true) (args1 ++ map snd kwds1) ->
   same_call args1 kwds1 args2 kwds2 = true).
Proof.
  intros M1 M2 H1 H2 Hm.
  destruct (cache_key_match maxsize typed args1 kwds1 args2 kwds2 k1 k2
              M1 M2 H1 H2 Hm) as [Ha Ht].
  split; [exact Ha|]. split; [exact Ht|].
  intros Hself. apply alike_call_same; assumption.
Qed.

Lemma matching_keys_mean_equal_arguments_witness :
  alike_call [VInt 1; VStr "a"] [] [VFloat 1; VStr "a"] [] = true /\
  (false = true ->
   call_types [VInt 1; VStr "a"] [] = call_types [VFloat 1; VStr "a"] []) /\
  (Forall (fun v => py_eq v v = true) ([VInt 1; VStr "a"] ++ map snd ([] : kwargs)) ->
   same_call [VInt 1; VStr "a"] [] [VFloat 1; VStr "a"] [] = true).
Proof.
  apply (matching_keys_mean_equal_arguments (Some 2) false
           [VInt 1; VStr "a"] [] [VFloat 1; VStr "a"] []
           (KVal (VTuple [VInt 1; VStr "a"])) (KVal (VTuple [VFloat 1; VStr "a"]))).
  - simpl. intros [H|[H|[]]]; discriminate.
  - simpl. intros [H|[H|[]]]; discriminate.
  - reflexivity.
  - reflexivity.
  - reflexivity.
Defined.

(** ** Building keys *)

(** X12: [_make_key] builds a key exactly when every argument,
    positional or keyword, is hashable; the key it builds is hashable,
    and the only error it raises is [TypeError]. *)
Theorem make_key_succeeds_iff_hashable
    (args : list value) (kwds : kwargs) (typed : bool) :
  match _make_key args kwds typed with
  | Ok k => hashable_args args kwds = true /\ is_Ok (key_hash k) = true
  | Raise e => hashable_args args kwds = false /\ e = TypeError
  end.
Proof.
  destruct (_make_key args kwds typed) as [k|e] eqn:E.
  - split; [|eapply _make_key_hashable; exact E].
    destruct (hashable_args args kwds) eqn:Eh; [reflexivity|].
    rewrite (_make_key_unhashable _ _ _ Eh) in E. discriminate.
  - destruct (_make_key_raise _ _ _ _ E) as [-> Hh]. auto.
Qed.

(** X13: the keys keep the contract a dictionary relies on: two keys
    built for calls of one cache that compare equal have the same hash.
    A [_HashedSeq] carries the hash of the tuple it was built from, and
    sequences that compare equal come from tuples that do. *)
Theorem equal_keys_hash_equally
    (maxsize : option Z) (typed : bool)
    (args1 : list value) (kwds1 : kwargs) (args2 : list value) (kwds2 : kwargs)
    (k1 k2 : key) :
  cache_key maxsize typed args1 kwds1 = Ok k1 ->
  cache_key maxsize typed args2 kwds2 = Ok k2 ->
  key_eq k1 k2 = true ->
  key_hash k1 = key_hash k2.
Proof.
  assert (Hseq : forall l m h1 h2,
            _HashedSeq l = Ok (KHashedSeq l h1) -> _HashedSeq m = Ok (KHashedSeq m h2) ->
            all2 py_same l m = true -> h1 = h2).
  { intros l m h1 h2. unfold _HashedSeq.
    destruct (py_hash (VTuple l)) as [a|] eqn:E1; [|discriminate].
    destruct (py_hash (VTuple m)) as [b|] eqn:E2; [|discriminate].
    intros [= <-] [= <-] He.
    assert (H : py_hash (VTuple l) = py_hash (VTuple m)) by (apply py_eq_hash; exact He).
    congruence. }
  assert (Hshape : forall args kwds k, cache_key maxsize typed args kwds = Ok k ->
            (exists v, k = KVal v /\ key_seq k = None) \/
            (exists l h, k = KHashedSeq l h /\ _HashedSeq l = Ok k)).
  { intros args kwds k Hk.
    assert (Hm : forall k, _make_key args kwds typed = Ok k ->
              (exists v, k = KVal v /\ key_seq k = None) \/
              (exists l h, k = KHashedSeq l h /\ _HashedSeq l = Ok k)).
    { clear k Hk. intros k. rewrite key_layout_spec.
      destruct (negb typed && fast_path args kwds) eqn:F.
      - apply andb_true_iff in F as [_ F]. unfold fast_path in F.
        destruct args as [|a [|]], kwds; try discriminate.
        intros [= <-]. left. exists a. split; [reflexivity|].
        destruct a; try discriminate; reflexivity.
      - intros H. right. destruct (_HashedSeq_seq _ _ H) as [h ->]. eauto. }
    destruct maxsize as [bound|]; simpl in Hk; [|apply Hm, Hk].
    unfold wrapper_key in Hk. destruct (is_nonempty kwds || typed); [apply Hm, Hk|].
    injection Hk as <-. left. eauto. }
  intros H1 H2 He.
  destruct (Hshape _ _ _ H1) as [(v1 & -> & S1)|(l1 & h1 & -> & B1)];
    destruct (Hshape _ _ _ H2) as [(v2 & -> & S2)|(l2 & h2 & -> & B2)].
  - simpl. apply py_same_hash. exact He.
  - exfalso. unfold key_eq in He. rewrite S1 in He. destruct v1; discriminate.
  - exfalso. unfold key_eq in He. rewrite S2 in He. simpl in He. discriminate.
  - simpl. f_equal. eapply Hseq; eauto.
Qed.

Lemma equal_keys_hash_equally_witness :
  key_hash (KVal (VTuple [VInt 1])) = key_hash (KVal (VTuple [VFloat 1])).
Proof.
  apply (equal_keys_hash_equally (Some 3) false [VInt 1] [] [VFloat 1] []
           (KVal (VTuple [VInt 1])) (KVal (VTuple [VFloat 1]))); reflexivity.
Defined.

(** ** The lock *)

(** X14: the lock is taken and released in turn and is free when a call
    ends, whether it returns or raises; the computation runs at most
    once in a call, and never while the lock is held. *)
Theorem computation_runs_outside_the_lock
    (maxsize : option Z) (typed : bool) (f : list value -> kwargs -> outcome value)
    (args : list value) (kwds : kwargs) (s : state) :
  let t := trace_of (wrapper maxsize typed f args kwds) s in
  locks_ok false t = true /\
  (length (invocations t) <= 1)%nat /\
  locks_ok false (trace_of (cache_info maxsize) s) = true /\
  locks_ok false (trace_of cache_clear s) = true.
Proof.
  intros t. subst t. unfold trace_of at 1 2.
  assert (Hb : forall bound,
    let t := snd (wrapper_bounded typed f bound args kwds s) in
    locks_ok false t = true /\ (length (invocations t) <= 1)%nat).
  { intros bound. rewrite wrapper_bounded_eq.
    destruct (wrapper_key typed args kwds) as [k|]; [|simpl; auto].
    destruct (dict_get k (cache s)) as [[[|a]|]|]; try (simpl; auto; fail).
    destruct (f args kwds); simpl; auto. }
  split; [|split; [|split; reflexivity]].
  - unfold wrapper. destruct maxsize as [[|p|p]|]; try apply Hb.
    + rewrite wrapper_disabled_eq. destruct (f args kwds); reflexivity.
    + rewrite wrapper_unbounded_eq.
      destruct (_make_key args kwds typed) as [k|]; [|reflexivity].
      destruct (dict_find k (cache s)); [reflexivity|].
      destruct (f args kwds); reflexivity.
  - unfold wrapper. destruct maxsize as [[|p|p]|]; try apply Hb.
    + rewrite wrapper_disabled_eq. destruct (f args kwds); simpl; lia.
    + rewrite wrapper_unbounded_eq.
      destruct (_make_key args kwds typed) as [k|]; [|simpl; lia].
      destruct (dict_find k (cache s)); [simpl; lia|].
      destruct (f args kwds); simpl; lia.
Qed.

(** ** The most recently used entry *)

Lemma contents_keys s : map fst (contents s) = map fst (cache s).
Proof. unfold contents, contents_of. rewrite map_map. reflexivity. Qed.

Lemma lru_inv_contents_wf bound s order :
  lru_inv bound s order -> keys_wf (map fst (contents s)).
Proof. intros H. rewrite contents_keys. apply (inv_keys _ _ _ H). Qed.

Lemma recency_contents bound s order k :
  lru_inv bound s order -> k ∈ recency s -> exists v, (k, v) ∈ contents s.
Proof.
  intros H Hk. destruct (recency_inv _ _ _ H) as [_ Hp].
  rewrite <- Hp, <- contents_keys in Hk.
  apply elem_of_map_inv in Hk as ([k0 v] & E & Hin). simpl in E. subst k0. eauto.
Qed.

Lemma dict_functional {V} (d : dict V) k v v' :
  keys_wf (map fst d) -> (k, v) ∈ d -> (k, v') ∈ d -> v = v'.
Proof.
  intros Hwf H1 H2.
  assert (Hk : key_match k k = true).
  { apply key_match_refl. destruct Hwf as (_ & Hh & _). apply Hh.
    apply (elem_of_map fst _ (k, v)). exact H1. }
  pose proof (dict_find_stored d k v k Hwf H1 Hk) as E1.
  pose proof (dict_find_stored d k v' k Hwf H2 Hk) as E2. congruence.
Qed.

(** After a call that returned, the key of the call, or the stored key
    it matched, is at the recent end of the list. *)
Lemma returned_is_most_recent bound typed f args kwds s order k :
  1 <= bound ->
  lru_inv bound s order ->
  wrapper_key typed args kwds = Ok k ->
  is_Ok (result_of (wrapper_bounded typed f bound args kwds) s) = true ->
  exists k', last (recency (exec (wrapper_bounded typed f bound args kwds) s)) = Some k' /\
             key_match k' k = true.
Proof.
  intros Hb H Ek Hres.
  destruct (bounded_call bound typed f args kwds s order Hb H) as [_ E].
  cbv zeta in E. rewrite E. clear E.
  pose proof (lru_inv_keys_wf _ _ _ H) as Hwf.
  destruct (recency_inv _ _ _ H) as [_ Hp].
  unfold result_of in Hres. rewrite wrapper_bounded_eq, Ek in Hres.
  unfold recency_after. rewrite Ek. unfold dict_get in Hres.
  destruct (key_hash k) as [h|] eqn:Eh; [|discriminate].
  assert (Hk : is_Ok (key_hash k) = true) by (rewrite Eh; reflexivity).
  cbn [is_Ok]. unfold lru_step.
  destruct (touches k (recency s)) eqn:Et.
  - destruct (touches_split _ _ Et) as (p & k' & q & Eks & Hm & _).
    rewrite Eks in Hwf |- *. rewrite (touch_split _ _ _ _ Hwf Hm).
    exists k'. split; [|exact Hm]. rewrite !app_assoc. apply last_snoc.
  - assert (Ef : dict_find k (cache s) = None).
    { apply dict_find_touches. rewrite (touches_Permutation _ _ _ Hp). exact Et. }
    rewrite Ef in Hres. destruct (f args kwds); [|discriminate].
    exists k. split; [|apply key_match_refl, Hk].
    destruct (_ >=? _); apply last_snoc.
Qed.

Lemma last_elem {A} (l : list A) x : last l = Some x -> x ∈ l.
Proof.
  destruct l as [|y l] using rev_ind; [discriminate|].
  rewrite last_snoc. intros [= ->]. apply elem_of_app. right. left.
Qed.

(** With room for two entries, the most recent key is still in the list
    after one more call. *)
Lemma most_recent_survives bound typed f args kwds ks k' :
  2 <= bound ->
  last ks = Some k' ->
  k' ∈ recency_after bound typed f args kwds ks.
Proof.
  intros Hb Hl. pose proof (last_elem _ _ Hl) as Hin.
  unfold recency_after.
  destruct (wrapper_key typed args kwds) as [k|]; [|exact Hin].
  destruct (is_Ok (key_hash k)); [|exact Hin].
  assert (Hstep : k' ∈ lru_step bound k ks).
  { unfold lru_step. destruct (touches k ks).
    - rewrite touch_Permutation. exact Hin.
    - destruct (Z.of_nat (length ks) >=? bound) eqn:Efull.
      + rewrite Z.geb_leb in Efull. apply Z.leb_le in Efull.
        destruct ks as [|x [|y ks]]; simpl in Efull; try lia.
        simpl tl. apply elem_of_app. left. apply last_elem. exact Hl.
      + apply elem_of_app. left. exact Hin. }
  destruct (touches k ks); [exact Hstep|].
  destruct (f args kwds); [exact Hstep|exact Hin].
Qed.

(** X15: with room for at least two entries, the result of the last call
    that returned survives any one further call: made again after it,
    that call is a hit with the same result, whatever the call in
    between was and however it ended. *)
Theorem last_result_survives_one_call
    (bound : Z) (typed : bool) (f : list value -> kwargs -> outcome value)
    (s : state) (args1 : list value) (kwds1 : kwargs)
    (args2 : list value) (kwds2 : kwargs) (o : obj) :
  2 <= bound ->
  reachable (Some bound) typed f s ->
  let c1 := wrapper (Some bound) typed f args1 kwds1 in
  let c2 := wrapper (Some bound) typed f args2 kwds2 in
  result_of c1 s = Ok o ->
  result_of c1 (exec c2 (exec c1 s)) = Ok o /\
  invocations (trace_of c1 (exec c2 (exec c1 s))) = [].
Proof.
  intros Hb Hr c1 c2 Hres.
  assert (Hc : caching (Some bound)) by (intros n [= <-]; lia).
  pose proof (reach_call _ _ _ s args1 kwds1 Hr) as Hr1. fold c1 in Hr1.
  pose proof (reach_call _ _ _ _ args2 kwds2 Hr1) as Hr2. fold c2 in Hr2.
  pose proof (reachable_inv _ _ _ _ Hc Hr) as [order H].
  pose proof (reachable_inv _ _ _ _ Hc Hr1) as [order1 H1].
  pose proof (reachable_inv _ _ _ _ Hc Hr2) as [order2 H2].
  destruct (returned_is_stored (Some bound) typed f args1 kwds1 s o Hc
              (reachable_inv _ _ _ _ Hc Hr) Hres)
    as (k & v & Ek & Hk & -> & Hst1 & _).
  fold c1 in Hst1. simpl in Ek.
  (* the key of the first call is the most recent one, and stays *)
  assert (Hw : forall a kw, wrapper (Some bound) typed f a kw =
                            wrapper_bounded typed f bound a kw).
  { intros a kw. rewrite (wrapper_pos_or_neg (Some bound) typed f bound eq_refl) by lia.
    reflexivity. }
  destruct (returned_is_most_recent bound typed f args1 kwds1 s order k
              ltac:(lia) H Ek) as (k' & Hlast & Hm).
  { rewrite <- Hw. fold c1. rewrite Hres. reflexivity. }
  rewrite <- Hw in Hlast. fold c1 in Hlast.
  assert (Hin2 : k' ∈ recency (exec c2 (exec c1 s))).
  { destruct (bounded_call bound typed f args2 kwds2 (exec c1 s) order1
                ltac:(lia) H1) as [_ E].
    cbv zeta in E. unfold c2 at 1. rewrite Hw, E.
    apply most_recent_survives; assumption. }
  (* its result before the second call is the one returned *)
  destruct (recency_contents _ _ _ _ H1 (last_elem _ _ Hlast)) as [v1 Hv1].
  assert (E1 : v1 = v).
  { pose proof (dict_find_stored _ _ _ k (lru_inv_contents_wf _ _ _ H1) Hv1 Hm) as E.
    congruence. }
  subst v1.
  (* and the second call does not change it *)
  destruct (recency_contents _ _ _ _ H2 Hin2) as [v2 Hv2].
  assert (Hk' : is_Ok (key_hash k') = true).
  { apply key_match_hashable in Hm. apply Hm. }
  assert (Hf1 : dict_find k' (contents (exec c1 s)) = Some v).
  { apply (dict_find_stored _ k' v k' (lru_inv_contents_wf _ _ _ H1) Hv1).
    apply key_match_refl, Hk'. }
  assert (Hv2' : (k', v2) ∈ contents (exec c1 s)).
  { destruct (call_contents (Some bound) typed f args2 kwds2 (exec c1 s) Hc
                (reachable_inv _ _ _ _ Hc Hr1) _ Hv2) as [Hold|[Ek2 _]];
      [exact Hold|].
    simpl in Ek2.
    pose proof (caching_step (Some bound) typed f args2 kwds2 (exec c1 s) k' Hc
                  (reachable_inv _ _ _ _ Hc Hr1) Ek2 Hk') as S.
    cbv zeta in S. rewrite Hf1 in S. destruct S as (_ & _ & Hcont & _).
    fold c2 in Hcont. rewrite <- Hcont. exact Hv2. }
  assert (E2 : v2 = v).
  { eapply dict_functional; [apply (lru_inv_contents_wf _ _ _ H1)|exact Hv2'|exact Hv1]. }
  subst v2.
  assert (Hf2 : dict_find k (contents (exec c2 (exec c1 s))) = Some v).
  { apply (dict_find_stored _ k' v k (lru_inv_contents_wf _ _ _ H2) Hv2 Hm). }
  pose proof (caching_step (Some bound) typed f args1 kwds1 _ k Hc
                (reachable_inv _ _ _ _ Hc Hr2) Ek Hk) as S.
  cbv zeta in S. rewrite Hf2 in S. destruct S as (R1 & R2 & _). auto.
Qed.

Lemma last_result_survives_one_call_witness :
  let f : list value -> kwargs -> outcome value := fun args _ => Ok (VTuple args) in
  let s := exec (wrapper (Some 2) false f [VInt 1] []) initial_state in
  let c1 := wrapper (Some 2) false f [VInt 2] [] in
  let c2 := wrapper (Some 2) false f [VInt 3] [] in
  result_of c1 (exec c2 (exec c1 s)) = Ok (OVal (VTuple [VInt 2])) /\
  invocations (trace_of c1 (exec c2 (exec c1 s))) = [].
Proof.
  intros f s.
  apply (last_result_survives_one_call 2 false f s [VInt 2] [] [VInt 3] []
           (OVal (VTuple [VInt 2]))).
  - lia.
  - apply reach_call, reach_init.
  - reflexivity.
Defined.

(** ** A cleared cache *)

Lemma contents_length s : length (contents s) = length (cache s).
Proof. apply length_map. Qed.

(** Two bounded caches with the same view answer a call alike and have
    the same view after it, whatever their links look like. *)
Lemma bounded_view_step bound typed f args kwds s t os ot :
  1 <= bound ->
  lru_inv bound s os -> lru_inv bound t ot ->
  view s = view t ->
  let c := wrapper_bounded typed f bound args kwds in
  result_of c s = result_of c t /\
  view (exec c s) = view (exec c t).
Proof.
  intros Hb Hs Ht Hv c. subst c.
  unfold view in Hv. injection Hv as Hc Hr Hh Hm.
  destruct (bounded_call bound typed f args kwds s os Hb Hs) as [_ Rs].
  destruct (bounded_call bound typed f args kwds t ot Hb Ht) as [_ Rt].
  cbv zeta in Rs, Rt.
  assert (Hrec : recency (exec (wrapper_bounded typed f bound args kwds) s) =
                 recency (exec (wrapper_bounded typed f bound args kwds) t)).
  { rewrite Rs, Rt, Hr. reflexivity. }
  unfold view. rewrite Hrec. clear Rs Rt Hrec.
  destruct (wrapper_key typed args kwds) as [k|e] eqn:Ek.
  2:{ unfold result_of, exec. rewrite !wrapper_bounded_eq, Ek. cbn [fst snd].
      rewrite Hc, Hh, Hm. auto. }
  destruct (key_hash k) as [h|e] eqn:Eh.
  2:{ unfold result_of, exec. rewrite !wrapper_bounded_eq, Ek. unfold dict_get.
      rewrite Eh. cbn [fst snd]. rewrite Hc, Hh, Hm. auto. }
  assert (Hk : is_Ok (key_hash k) = true) by (rewrite Eh; reflexivity).
  pose proof (bounded_step bound typed f args kwds s os k Hb Hs Ek Hk) as Ss.
  pose proof (bounded_step bound typed f args kwds t ot k Hb Ht Ek Hk) as St.
  cbv zeta in Ss, St. rewrite Hc in Ss.
  destruct (dict_find k (contents t)) as [v|].
  - destruct Ss as (-> & _ & -> & -> & ->). destruct St as (-> & _ & -> & -> & ->).
    rewrite Hh, Hm. auto.
  - destruct (f args kwds) as [v|e].
    + destruct Ss as (-> & _ & -> & -> & ks & -> & Hks).
      destruct St as (-> & _ & -> & -> & kt & -> & Hkt).
      assert (E : ks = kt).
      { assert (Hl : length (cache s) = length (cache t)).
        { rewrite <- !contents_length, Hc. reflexivity. }
        rewrite Hl in Hks. destruct (_ >=? _).
        - destruct Hks as (es & _ & H1 & H2). destruct Hkt as (et & _ & H3 & H4).
          rewrite Hr in H1. rewrite H1 in H3. injection H3 as E.
          rewrite E in H2. congruence.
        - congruence. }
      rewrite E, Hh, Hm. auto.
    + unfold result_of, exec. rewrite Ss, St. cbn [fst snd]. rewrite Hc, Hh, Hm. auto.
Qed.

Lemma bounded_view_run bound typed f calls s t os ot :
  1 <= bound ->
  lru_inv bound s os -> lru_inv bound t ot ->
  view s = view t ->
  fst (run (Some bound) typed f calls s) = fst (run (Some bound) typed f calls t) /\
  view (snd (run (Some bound) typed f calls s)) =
  view (snd (run (Some bound) typed f calls t)).
Proof.
  intros Hb. revert s t os ot.
  induction calls as [|[args kwds] rest IH]; intros s t os ot Hs Ht Hv; [auto|].
  rewrite !run_cons. cbn [fst snd].
  rewrite (wrapper_pos_or_neg (Some bound) typed f bound eq_refl) by lia.
  destruct (bounded_view_step bound typed f args kwds s t os ot Hb Hs Ht Hv) as [Hres Hv'].
  destruct (bounded_call bound typed f args kwds s os Hb Hs) as [[os' Hs'] _].
  destruct (bounded_call bound typed f args kwds t ot Hb Ht) as [[ot' Ht'] _].
  destruct (IH _ _ _ _ Hs' Ht' Hv') as [H1 H2].
  rewrite Hres, H1. auto.
Qed.

Lemma negative_reachable n typed f s :
  n < 0 -> reachable (Some n) typed f s -> s = initial_state.
Proof.
  intros Hn Hr. induction Hr as [|s a kw _ IH|s _ IH].
  - reflexivity.
  - rewrite (wrapper_pos_or_neg (Some n) typed f n eq_refl) by lia.
    rewrite IH. apply (negative_call n typed f a kw Hn).
  - rewrite IH. reflexivity.
Qed.

(** Without the linked list in use, clearing gives back the initial
    state itself. *)
Lemma unlinked_clear maxsize typed f s :
  maxsize = None \/ maxsize = Some 0 ->
  reachable maxsize typed f s ->
  exec cache_clear s = initial_state.
Proof.
  intros Hm Hr.
  assert (H : heap s = heap initial_state /\ nonlocal_root s = 0%nat).
  { induction Hr as [|s args kwds _ IH|s _ IH].
    - auto.
    - destruct Hm as [->| ->]; unfold exec, wrapper.
      + rewrite wrapper_unbounded_eq.
        destruct (_make_key args kwds typed) as [k|]; [|exact IH].
        destruct (dict_find k (cache s)); [exact IH|].
        destruct (f args kwds); exact IH.
      + rewrite wrapper_disabled_eq. destruct (f args kwds); exact IH.
    - rewrite cache_clear_exec. destruct IH as [-> ->]. auto. }
  destruct H as [Hh Hroot]. rewrite cache_clear_exec, Hh, Hroot. reflexivity.
Qed.

(** X16: clearing gives a new cache.  Whatever calls and clears were
    made before, the calls made after [cache_clear] return, raise and
    count exactly as they do on a cache that was just built, and
    [cache_info] then reports the same; the links left over from before
    make no difference. *)
Theorem clear_gives_a_new_cache
    (maxsize : option Z) (typed : bool) (f : list value -> kwargs -> outcome value)
    (s : state) (calls : list (list value * kwargs)) :
  reachable maxsize typed f s ->
  let after := run maxsize typed f calls (exec cache_clear s) in
  let new := run maxsize typed f calls initial_state in
  summary after = summary new /\
  contents (snd after) = contents (snd new) /\
  result_of (cache_info maxsize) (snd after) = result_of (cache_info maxsize) (snd new).
Proof.
  intros Hr after new.
  assert (Heq : exec cache_clear s = initial_state \/
                exists bound, maxsize = Some bound /\ 1 <= bound).
  { destruct maxsize as [n|].
    - destruct (Z.lt_trichotomy n 0) as [Hn|[->|Hn]].
      + left. rewrite (negative_reachable n typed f s Hn Hr). reflexivity.
      + left. eapply unlinked_clear; [right; reflexivity|exact Hr].
      + right. exists n. split; [reflexivity|lia].
    - left. eapply unlinked_clear; [left; reflexivity|exact Hr]. }
  destruct Heq as [E|(bound & -> & Hb)].
  - subst after new. rewrite E. auto.
  - assert (Hc : caching (Some bound)) by (intros n [= <-]; exact Hb).
    destruct (reachable_inv _ _ _ _ Hc Hr) as [order H].
    pose proof (cache_clear_inv bound s order ltac:(lia) H) as H0.
    pose proof (lru_inv_init bound ltac:(lia)) as H1.
    assert (Hv : view (exec cache_clear s) = view initial_state).
    { rewrite cache_clear_exec. reflexivity. }
    destruct (bounded_view_run bound typed f calls _ _ _ _ Hb H0 H1 Hv) as [R V].
    fold after new in R, V. unfold view in V. injection V as V1 V2 V3 V4.
    split; [unfold summary; rewrite R, V3, V4; reflexivity|].
    split; [exact V1|].
    unfold result_of. rewrite !cache_info_eq. cbn [fst].
    rewrite <- !contents_length, V1, V3, V4. reflexivity.
Qed.

Lemma clear_gives_a_new_cache_witness :
  let f : list value -> kwargs -> outcome value := fun args _ => Ok (VTuple args) in
  let s := exec (wrapper (Some 1) false f [VInt 2] [])
             (exec (wrapper (Some 1) false f [VInt 1] []) initial_state) in
  let calls := [([VInt 2], []); ([VInt 2], []); ([VList []], [])] in
  let after := run (Some 1) false f calls (exec cache_clear s) in
  let new := run (Some 1) false f calls initial_state in
  summary after = summary new /\
  contents (snd after) = contents (snd new) /\
  result_of (cache_info (Some 1)) (snd after) = result_of (cache_info (Some 1)) (snd new).
Proof.
  intros f s calls.
  apply (clear_gives_a_new_cache (Some 1) false f s calls).
  apply reach_call, reach_call, reach_init.
Defined.

(** ** A bound that is never reached *)

Lemma unbounded_size_grows typed f calls s :
  (length (cache s) <= length (cache (snd (run None typed f calls s))))%nat.
Proof.
  revert s. induction calls as [|[args kwds] rest IH]; intros s; [simpl; lia|].
  rewrite run_cons. cbn [snd]. etransitivity; [|apply IH].
  unfold exec, wrapper. rewrite wrapper_unbounded_eq.
  destruct (_make_key args kwds typed) as [k|]; [|simpl; lia].
  destruct (dict_find k (cache s)) eqn:Ef; [simpl; lia|].
  destruct (f args kwds); [|simpl; lia].
  simpl. rewrite (dict_store_new _ _ _ Ef), length_app. simpl. lia.
Qed.

Lemma summary_cons r (p : list (outcome obj) * state) :
  summary (r :: fst p, snd p) =
  (r :: fst (fst (summary p)), snd (fst (summary p)), snd (summary p)).
Proof. reflexivity. Qed.

(** With [typed] the bounded and the unbounded wrapper build the same
    key; on caches holding the same results, one call gives the same
    outcome and leaves the same results, unless it has to evict. *)
Lemma typed_modes_step bound f args kwds s t :
  1 <= bound ->
  cache_inv (Some bound) s -> cache_inv None t ->
  contents s = contents t -> HITS s = HITS t -> MISSES s = MISSES t ->
  let cb := wrapper (Some bound) true f args kwds in
  let cu := wrapper None true f args kwds in
  Z.of_nat (length (cache (exec cu t))) <= bound ->
  result_of cb s = result_of cu t /\
  contents (exec cb s) = contents (exec cu t) /\
  HITS (exec cb s) = HITS (exec cu t) /\
  MISSES (exec cb s) = MISSES (exec cu t).
Proof.
  intros Hb Hs Ht Hc Hh Hm cb cu Hsize.
  assert (Cb : caching (Some bound)) by (intros n [= <-]; exact Hb).
  assert (Cu : caching None) by (intros n [=]).
  assert (Ekey : cache_key (Some bound) true args kwds = cache_key None true args kwds).
  { unfold cache_key, wrapper_key. rewrite orb_true_r. reflexivity. }
  destruct (cache_key None true args kwds) as [k|e] eqn:Ek.
  2:{ subst cb cu. unfold result_of, exec.
      rewrite (wrapper_pos_or_neg (Some bound) true f bound eq_refl) by lia.
      unfold wrapper. rewrite wrapper_bounded_eq, wrapper_unbounded_eq.
      unfold cache_key in Ek, Ekey. rewrite Ekey, Ek. cbn [fst snd]. auto. }
  assert (Hk : is_Ok (key_hash k) = true).
  { eapply _make_key_hashable. exact Ek. }
  pose proof (caching_step (Some bound) true f args kwds s k Cb Hs Ekey Hk) as Ss.
  pose proof (caching_step None true f args kwds t k Cu Ht Ek Hk) as St.
  cbv zeta in Ss, St. fold cb in Ss. fold cu in St. rewrite Hc in Ss.
  destruct (dict_find k (contents t)) as [v|].
  - destruct Ss as (-> & _ & -> & -> & ->). destruct St as (-> & _ & -> & -> & ->).
    rewrite Hh, Hm. auto.
  - destruct (f args kwds) as [v|e].
    + destruct Ss as (-> & _ & -> & -> & ks & -> & Hks).
      destruct St as (-> & _ & -> & -> & kt & Ekt & Hkt).
      simpl in Hkt. subst kt. rewrite Ekt.
      assert (Hfull : full (Some bound) s = false).
      { simpl. rewrite Z.geb_leb. apply Z.leb_gt.
        rewrite <- contents_length in Hsize. rewrite Ekt, length_app in Hsize.
        simpl in Hsize. rewrite <- contents_length, Hc. lia. }
      rewrite Hfull in Hks. subst ks. rewrite Hh, Hm. auto.
    + destruct Ss as (-> & -> & _). destruct St as (-> & -> & _). auto.
Qed.

(** X17: with [typed=True], a bounded cache whose bound is never
    exceeded cannot be told from an unbounded one.  In a session that
    leaves at most [maxsize] entries in the unbounded cache, both return
    and raise the same, call by call, count the same hits and misses and
    hold the same results. *)
Theorem roomy_bounded_cache_is_unbounded
    (bound : Z) (f : list value -> kwargs -> outcome value)
    (calls : list (list value * kwargs)) :
  1 <= bound ->
  let b := run (Some bound) true f calls initial_state in
  let u := run None true f calls initial_state in
  Z.of_nat (length (cache (snd u))) <= bound ->
  summary b = summary u /\ contents (snd b) = contents (snd u).
Proof.
  intros Hb b u Hsize. subst b u.
  assert (Cb : caching (Some bound)) by (intros n [= <-]; exact Hb).
  assert (Cu : caching None) by (intros n [=]).
  assert (G : forall s t,
    reachable (Some bound) true f s -> reachable None true f t ->
    contents s = contents t -> HITS s = HITS t -> MISSES s = MISSES t ->
    Z.of_nat (length (cache (snd (run None true f calls t)))) <= bound ->
    summary (run (Some bound) true f calls s) = summary (run None true f calls t) /\
    contents (snd (run (Some bound) true f calls s)) =
    contents (snd (run None true f calls t))).
  { clear Hsize. induction calls as [|[args kwds] rest IH];
      intros s t Rs Rt Hc Hh Hm Hsize.
    - unfold summary. simpl. rewrite Hh, Hm. auto.
    - rewrite !run_cons in *. cbn [snd] in Hsize.
      destruct (typed_modes_step bound f args kwds s t Hb
                  (reachable_inv _ _ _ _ Cb Rs) (reachable_inv _ _ _ _ Cu Rt)
                  Hc Hh Hm) as (R1 & R2 & R3 & R4).
      { etransitivity; [|exact Hsize]. apply Nat2Z.inj_le, unbounded_size_grows. }
      destruct (IH _ _ (reach_call _ _ _ s args kwds Rs) (reach_call _ _ _ t args kwds Rt)
                  R2 R3 R4 Hsize) as [S1 S2].
      rewrite !summary_cons, S1, R1. auto. }
  apply G; auto using reach_init.
Qed.

Lemma roomy_bounded_cache_is_unbounded_witness :
  let f : list value -> kwargs -> outcome value := fun args _ => Ok (VTuple args) in
  let calls := [([VInt 1], []); ([VFloat 1], []); ([VInt 1], []); ([VList []], [])] in
  let b := run (Some 2) true f calls initial_state in
  let u := run None true f calls initial_state in
  summary b = summary u /\ contents (snd b) = contents (snd u).
Proof.
  intros f calls.
  apply (roomy_bounded_cache_is_unbounded 2 f calls).
  - lia.
  - vm_compute. discriminate.
Defined.

(** * The counters and the calls *)

(** A call with hashable arguments whose computation returns, returns:
    the wrapper adds no failure of its own, unless [maxsize] is
    negative. *)
Lemma call_returns maxsize typed f args kwds s v :
  (forall n, maxsize = Some n -> 0 <= n) ->
  reachable maxsize typed f s ->
  hashable_args args kwds = true ->
  f args kwds = Ok v ->
  is_Ok (result_of (wrapper maxsize typed f args kwds) s) = true.
Proof.
  intros Hn Hr Hh Hf.
  destruct (decide (maxsize = Some 0)) as [->|Hne].
  { unfold result_of, wrapper. rewrite wrapper_disabled_eq, Hf. reflexivity. }
  assert (Hc : caching maxsize).
  { intros n E. specialize (Hn n E). subst maxsize.
    destruct (Z.eq_dec n 0) as [->|]; [contradiction|lia]. }
  assert (Hkey : exists k, cache_key maxsize typed args kwds = Ok k /\
                           is_Ok (key_hash k) = true).
  { destruct maxsize as [n|]; simpl.
    - destruct (wrapper_key_Ok typed args kwds Hh) as [k Hk].
      exists k. split; [exact Hk|]. eapply wrapper_key_hashable; eassumption.
    - destruct (_make_key_Ok args kwds typed Hh) as [k Hk].
      exists k. split; [exact Hk|]. eapply _make_key_hashable; eassumption. }
  destruct Hkey as (k & Ek & Hk).
  pose proof (caching_step maxsize typed f args kwds s k Hc
                (reachable_inv _ _ _ _ Hc Hr) Ek Hk) as S.
  cbv zeta in S. destruct (dict_find k (contents s)).
  - destruct S as (-> & _). reflexivity.
  - rewrite Hf in S. destruct S as (-> & _). reflexivity.
Qed.

Lemma run_returns maxsize typed f calls s :
  (forall n, maxsize = Some n -> 0 <= n) ->
  reachable maxsize typed f s ->
  Forall (fun c => is_Ok (f (fst c) (snd c)) = true /\
                   hashable_args (fst c) (snd c) = true) calls ->
  Forall (fun r => is_Ok r = true) (fst (run maxsize typed f calls s)).
Proof.
  intros Hn Hr Hall. revert s Hr.
  induction Hall as [|[args kwds] rest [Hf Hh] _ IH]; intros s Hr; [constructor|].
  rewrite run_cons. cbn [fst]. simpl in Hf, Hh. constructor.
  - destruct (f args kwds) as [v|] eqn:Ef; [|discriminate].
    eapply call_returns; eassumption.
  - apply IH, reach_call, Hr.
Qed.

Lemma run_disabled_returns typed f calls s :
  Forall (fun c => is_Ok (f (fst c) (snd c)) = true) calls ->
  Forall (fun r => is_Ok r = true) (fst (run (Some 0) typed f calls s)).
Proof.
  intros Hall. revert s.
  induction Hall as [|[args kwds] rest Hf _ IH]; intros s; [constructor|].
  rewrite run_cons. cbn [fst]. simpl in Hf. constructor; [|apply IH].
  unfold result_of, wrapper. rewrite wrapper_disabled_eq.
  destruct (f args kwds); [reflexivity|discriminate].
Qed.

(** C5 as stated fails: a computation that never fails does not make
    every call return.  A call with an unhashable argument raises
    before the computation and counts nothing, in the unbounded and in
    the bounded wrapper; with a negative [maxsize] no call returns. *)
Lemma C5_counterexample :
  let f : list value -> kwargs -> outcome value := fun _ _ => Ok (VInt 7) in
  let counted (maxsize : option Z) (calls : list (list value * kwargs)) : nat :=
    let s := snd (run maxsize false f calls (exec cache_clear initial_state)) in
    (HITS s + MISSES s)%nat in
  (forall args kwds, is_Ok (f args kwds) = true) /\
  counted None [([VList []], [])] = 0%nat /\
  counted (Some 2) [([VList []], [])] = 0%nat /\
  counted (Some (-1)) [([VInt 1], [])] = 0%nat /\
  length [([VList []], @nil (string * value))] = 1%nat.
Proof. repeat split. Qed.

(** C5, amended: after [cache_clear], [hits + misses] is the number of
    calls that returned; a call that raises counts nothing.  It is the
    number of calls made when every call returns, which is the case when
    every computation returns, every argument is hashable and [maxsize]
    is not negative.  With [maxsize == 0] no call is a hit, and all
    calls are misses when every computation returns. *)
Theorem C5_hits_plus_misses_count_returned_calls
    (maxsize : option Z) (typed : bool)
    (f : list value -> kwargs -> outcome value)
    (s0 : state) (calls : list (list value * kwargs)) :
  let cleared := exec cache_clear s0 in
  let rs := fst (run maxsize typed f calls cleared) in
  let s' := snd (run maxsize typed f calls cleared) in
  reachable maxsize typed f s0 ->
  exists i, result_of (cache_info maxsize) s' = Ok i /\
    (CacheInfo.hits i + CacheInfo.misses i = completed rs)%nat /\
    (Forall (fun r => is_Ok r = true) rs ->
     (CacheInfo.hits i + CacheInfo.misses i = length calls)%nat) /\
    ((forall n, maxsize = Some n -> 0 <= n) ->
     Forall (fun c => is_Ok (f (fst c) (snd c)) = true /\
                      hashable_args (fst c) (snd c) = true) calls ->
     Forall (fun r => is_Ok r = true) rs /\
     (CacheInfo.hits i + CacheInfo.misses i = length calls)%nat) /\
    (maxsize = Some 0 ->
     CacheInfo.hits i = 0%nat /\
     CacheInfo.misses i = completed rs /\
     (Forall (fun c => is_Ok (f (fst c) (snd c)) = true) calls ->
      CacheInfo.misses i = length calls)).
Proof.
  intros cleared rs s' Hr.
  eexists. split; [reflexivity|]. simpl.
  pose proof (run_stats maxsize typed f calls cleared) as H. cbv zeta in H.
  fold rs s' in H.
  change (HITS cleared) with 0%nat in H. change (MISSES cleared) with 0%nat in H.
  assert (Hlen : length rs = length calls) by apply run_length.
  assert (Hall : Forall (fun r => is_Ok r = true) rs ->
                 (HITS s' + MISSES s' = length calls)%nat).
  { intros Hok. rewrite (completed_all rs Hok) in H. lia. }
  split; [lia|]. split; [exact Hall|]. split.
  - intros Hn Hcalls.
    assert (Hok : Forall (fun r => is_Ok r = true) rs).
    { apply run_returns; [exact Hn|apply reach_clear, Hr|exact Hcalls]. }
    split; [exact Hok|apply Hall, Hok].
  - intros ->. destruct (run_disabled_hits typed f calls cleared) as [Hh _].
    fold s' in Hh. change (HITS cleared) with 0%nat in Hh.
    split; [exact Hh|]. split; [lia|].
    intros Hcalls.
    pose proof (Hall (run_disabled_returns typed f calls cleared Hcalls)). lia.
Qed.

Lemma C5_witness :
  let f : list value -> kwargs -> outcome value := fun args _ => Ok (VTuple args) in
  let calls : list (list value * kwargs) :=
    [([VInt 1], []); ([VInt 2], []); ([VFloat 1], []); ([VInt 3], [])] in
  let s0 := exec (wrapper (Some 2) false f [VInt 9] []) initial_state in
  let rs := fst (run (Some 2) false f calls (exec cache_clear s0)) in
  let s' := snd (run (Some 2) false f calls (exec cache_clear s0)) in
  exists i, result_of (cache_info (Some 2)) s' = Ok i /\
    (CacheInfo.hits i + CacheInfo.misses i = completed rs)%nat /\
    (Forall (fun r => is_Ok r = true) rs ->
     (CacheInfo.hits i + CacheInfo.misses i = length calls)%nat) /\
    ((forall n, Some 2 = Some n -> 0 <= n) ->
     Forall (fun c => is_Ok (f (fst c) (snd c)) = true /\
                      hashable_args (fst c) (snd c) = true) calls ->
     Forall (fun r => is_Ok r = true) rs /\
     (CacheInfo.hits i + CacheInfo.misses i = length calls)%nat) /\
    (Some 2 = Some 0 ->
     CacheInfo.hits i = 0%nat /\
     CacheInfo.misses i = completed rs /\
     (Forall (fun c => is_Ok (f (fst c) (snd c)) = true) calls ->
      CacheInfo.misses i = length calls)).
Proof.
  intros f calls s0.
  apply (C5_hits_plus_misses_count_returned_calls (Some 2) false f s0 calls).
  apply reach_call, reach_init.
Defined.

(** * Eviction, read on the dictionary *)

Lemma contents_recency bound s order :
  lru_inv bound s order -> map fst (contents s) ≡ₚ recency s.
Proof.
  intros H. rewrite contents_keys. apply (recency_inv _ _ _ H).
Qed.

(** Under the invariant a key is found exactly when it matches a key of
    the list. *)
Lemma find_recency bound s order k :
  lru_inv bound s order ->
  (dict_find k (contents s) = None <-> touches k (recency s) = false).
Proof.
  intros H. rewrite dict_find_touches.
  rewrite (touches_Permutation _ _ _ (contents_recency _ _ _ H)). reflexivity.
Qed.

Lemma find_recency_Some bound s order k :
  lru_inv bound s order ->
  touches k (recency s) = true -> is_Some (dict_find k (contents s)).
Proof.
  intros H Ht. destruct (dict_find k (contents s)) eqn:E; [eauto|].
  apply (find_recency _ _ _ _ H) in E. congruence.
Qed.

Lemma touches_head k ks :
  is_Ok (key_hash k) = true -> touches k (k :: ks) = true.
Proof. intros Hk. unfold touches. simpl. rewrite (key_match_refl _ Hk). reflexivity. Qed.

Lemma touches_cons k x ks : touches k ks = true -> touches k (x :: ks) = true.
Proof. unfold touches. simpl. intros ->. apply orb_true_r. Qed.

Lemma touches_cons_false k x ks : touches k (x :: ks) = false -> touches k ks = false.
Proof. unfold touches. simpl. intros H. apply orb_false_iff in H. apply H. Qed.

Lemma keys_wf_head_fresh k ks : keys_wf (k :: ks) -> touches k ks = false.
Proof.
  intros Hwf.
  assert (Hk : key_match k k = true).
  { apply key_match_refl. destruct Hwf as (_ & H2 & _). apply H2. left. }
  exact (keys_wf_unique_match k [] k ks Hwf Hk).
Qed.

(** What an insertion at capacity does to the dictionary. *)
Lemma eviction_step bound typed f args kwds s order hist k v :
  1 <= bound ->
  lru_inv bound s order ->
  aged hist (recency s) ->
  wrapper_key typed args kwds = Ok k ->
  is_Ok (key_hash k) = true ->
  dict_find k (contents s) = None ->
  f args kwds = Ok v ->
  Z.of_nat (length (contents s)) = bound ->
  let s' := exec (wrapper (Some bound) typed f args kwds) s in
  exists ko vo kept,
    hd_error (recency s) = Some ko /\
    contents s ≡ₚ (ko, vo) :: kept /\
    contents s' = kept ++ [(k, v)] /\
    dict_find ko (contents s') = None /\
    (forall k', k' ∈ map fst kept -> older hist ko k').
Proof.
  intros Hb H Ha Ek Hk Ef Hf Hfull s'.
  assert (Hc : caching (Some bound)) by (intros n [= <-]; exact Hb).
  pose proof (caching_step (Some bound) typed f args kwds s k Hc
                (ex_intro _ order H) Ek Hk) as S.
  cbv zeta in S. fold s' in S. rewrite Ef, Hf in S.
  destruct S as (_ & _ & _ & _ & kept & Hcont & Hkept).
  assert (F : full (Some bound) s = true).
  { simpl. rewrite Z.geb_leb. apply Z.leb_le. rewrite <- contents_length. lia. }
  rewrite F in Hkept. destruct Hkept as ([ko vo] & Hp & Hhd & _). simpl in Hhd.
  exists ko, vo, kept. split; [exact Hhd|]. split; [exact Hp|]. split; [exact Hcont|].
  pose proof (lru_inv_contents_wf _ _ _ H) as Hwf.
  apply (keys_wf_Permutation _ _ (Permutation_map fst Hp)) in Hwf. simpl in Hwf.
  assert (Hko : is_Ok (key_hash ko) = true).
  { destruct Hwf as (_ & H2 & _). apply H2. left. }
  split.
  - rewrite Hcont, dict_find_app.
    assert (E1 : dict_find ko kept = None).
    { apply dict_find_touches. apply keys_wf_head_fresh. exact Hwf. }
    rewrite E1. simpl.
    assert (E2 : key_match k ko = false).
    { apply dict_find_touches in Ef.
      rewrite (touches_Permutation _ _ _ (Permutation_map fst Hp)) in Ef.
      simpl in Ef. unfold touches in Ef. simpl in Ef.
      apply orb_false_iff in Ef as [Ef _]. rewrite key_match_sym. exact Ef. }
    rewrite E2. reflexivity.
  - intros k' Hk'.
    destruct (recency s) as [|x rest] eqn:Er; [discriminate|].
    injection Hhd as ->.
    assert (Hrest : map fst kept ≡ₚ rest).
    { apply (Permutation_cons_inv (a := ko)).
      rewrite <- Er, <- (contents_recency _ _ _ H), (Permutation_map fst Hp).
      reflexivity. }
    destruct Ha as [Hs _]. apply StronglySorted_cons in Hs as [Hall _].
    rewrite Forall_forall in Hall. apply Hall. rewrite <- Hrest. exact Hk'.
Qed.

(** The calls with keys A, B, A and then new keys, read on the
    dictionary: both A and B are found until the new key number
    [bound - 1] arrives; that one puts B out, A staying; the next one
    puts A out. *)
Lemma aba_dictionary bound typed f cA cB kA kB news nks :
  2 <= bound ->
  keyed_calls typed f [cA; cB] [kA; kB] ->
  keyed_calls typed f news nks ->
  keys_wf (kB :: kA :: nks) ->
  let s := snd (run (Some bound) typed f ([cA; cB; cA] ++ news) initial_state) in
  let again (c : list value * kwargs) :=
    invocations (trace_of (wrapper (Some bound) typed f (fst c) (snd c)) s) in
  map fst (contents s) ≡ₚ recency s /\
  (Z.of_nat (length nks) <= bound - 2 ->
   is_Some (dict_find kB (contents s)) /\ is_Some (dict_find kA (contents s)) /\
   again cB = [] /\ again cA = []) /\
  (Z.of_nat (length nks) = bound - 1 ->
   dict_find kB (contents s) = None /\ is_Some (dict_find kA (contents s)) /\
   again cB = [cB] /\ again cA = []) /\
  (Z.of_nat (length nks) = bound ->
   dict_find kB (contents s) = None /\ dict_find kA (contents s) = None /\
   again cB = [cB] /\ again cA = [cA]).
Proof.
  intros Hb HAB Hnews Hwf s again.
  assert (Hb1 : 1 <= bound) by lia.
  assert (Hc : caching (Some bound)) by (intros n [= <-]; exact Hb1).
  destruct (reached_bounded bound typed f ([cA; cB; cA] ++ news) Hb1) as ([order H] & _ & _).
  fold s in H.
  assert (E : recency s = lastn (Z.to_nat bound) (kB :: kA :: nks)).
  { apply aba_session; assumption. }
  pose proof HAB as HAB'.
  apply Forall2_cons_1 in HAB' as [[HkA HfA] HAB'].
  apply Forall2_cons_1 in HAB' as [[HkB HfB] _].
  assert (HhA : is_Ok (key_hash kA) = true).
  { destruct Hwf as (_ & H2 & _). apply H2. right. left. }
  assert (HhB : is_Ok (key_hash kB) = true).
  { destruct Hwf as (_ & H2 & _). apply H2. left. }
  assert (FB : touches kB (kA :: nks) = false) by (apply keys_wf_head_fresh; exact Hwf).
  assert (FA : touches kA nks = false).
  { apply keys_wf_head_fresh. eapply keys_wf_cons_inv. exact Hwf. }
  (* what a call made again does, from what the dictionary holds *)
  assert (Hit : forall c k, wrapper_key typed (fst c) (snd c) = Ok k ->
            is_Ok (key_hash k) = true ->
            is_Some (dict_find k (contents s)) -> again c = []).
  { intros [a kw] k Ek Hk [v Hv]. subst again. cbv beta. cbn [fst snd] in *.
    pose proof (caching_step (Some bound) typed f a kw s k Hc
                  (ex_intro _ order H) Ek Hk) as S.
    cbv zeta in S. rewrite Hv in S. apply S. }
  assert (Miss : forall c k, wrapper_key typed (fst c) (snd c) = Ok k ->
            is_Ok (key_hash k) = true -> is_Ok (f (fst c) (snd c)) = true ->
            dict_find k (contents s) = None -> again c = [c]).
  { intros [a kw] k Ek Hk Hf Hv. subst again. cbv beta. cbn [fst snd] in *.
    pose proof (caching_step (Some bound) typed f a kw s k Hc
                  (ex_intro _ order H) Ek Hk) as S.
    cbv zeta in S. rewrite Hv in S.
    destruct (f a kw); [|discriminate]. apply S. }
  split; [exact (contents_recency _ _ _ H)|].
  unfold lastn in E. cbn [length] in E.
  split; [|split]; intros Hl.
  - replace (S (S (length nks)) - Z.to_nat bound)%nat with O in E by lia.
    simpl in E.
    assert (SB : is_Some (dict_find kB (contents s))).
    { apply (find_recency_Some _ _ _ _ H). rewrite E. apply touches_head, HhB. }
    assert (SA : is_Some (dict_find kA (contents s))).
    { apply (find_recency_Some _ _ _ _ H). rewrite E.
      apply touches_cons, touches_head, HhA. }
    split; [exact SB|]. split; [exact SA|]. split; eauto.
  - replace (S (S (length nks)) - Z.to_nat bound)%nat with 1%nat in E by lia.
    simpl in E.
    assert (NB : dict_find kB (contents s) = None).
    { apply (find_recency _ _ _ _ H). rewrite E. exact FB. }
    assert (SA : is_Some (dict_find kA (contents s))).
    { apply (find_recency_Some _ _ _ _ H). rewrite E. apply touches_head, HhA. }
    split; [exact NB|]. split; [exact SA|]. split; eauto.
  - replace (S (S (length nks)) - Z.to_nat bound)%nat with 2%nat in E by lia.
    simpl in E.
    assert (NB : dict_find kB (contents s) = None).
    { apply (find_recency _ _ _ _ H). rewrite E. eapply touches_cons_false, FB. }
    assert (NA : dict_find kA (contents s) = None).
    { apply (find_recency _ _ _ _ H). rewrite E. exact FA. }
    split; [exact NB|]. split; [exact NA|]. split; eauto.
Qed.

(** C2: in a bounded cache of capacity [bound >= 1], after any session
    the reported size is at most [bound] and the dictionary holds
    exactly the keys of the recency list.  A call that inserts a new key
    when the dictionary holds [bound] entries takes out of it exactly
    one entry, that of the first key of the recency list, which was
    accessed less recently than every key that stays, and stores the new
    result; the key that left is no longer found.  After calls with keys
    A, B, A followed by calls with new keys, the cache holds the last
    [bound] keys of B, A, new1, new2, ...: B leaves the dictionary
    first, with the new key number [bound - 1], while A is still found;
    a call with B then runs the computation again and a call with A does
    not; A leaves with the next new key. *)
Theorem C2_bounded_size_and_lru_eviction
    (bound : Z) (typed : bool) (f : list value -> kwargs -> outcome value) :
  1 <= bound ->
  (forall calls,
     let s := snd (run (Some bound) typed f calls initial_state) in
     (exists i, result_of (cache_info (Some bound)) s = Ok i /\
                Z.of_nat (CacheInfo.currsize i) <= bound) /\
     map fst (contents s) ≡ₚ recency s /\
     (forall args kwds ko,
        ko ∈ map fst (cache s) ->
        ko ∉ map fst (cache (exec (wrapper (Some bound) typed f args kwds) s)) ->
        hd_error (recency s) = Some ko /\
        forall k', k' ∈ map fst (cache s) -> k' <> ko ->
                   older (history typed calls []) ko k') /\
     (forall args kwds k v,
        wrapper_key typed args kwds = Ok k ->
        is_Ok (key_hash k) = true ->
        dict_find k (contents s) = None ->
        f args kwds = Ok v ->
        Z.of_nat (length (contents s)) = bound ->
        let s' := exec (wrapper (Some bound) typed f args kwds) s in
        exists ko vo kept,
          hd_error (recency s) = Some ko /\
          contents s ≡ₚ (ko, vo) :: kept /\
          contents s' = kept ++ [(k, v)] /\
          dict_find ko (contents s') = None /\
          (forall k', k' ∈ map fst kept -> older (history typed calls []) ko k'))) /\
  (forall cA cB kA kB news nks,
     2 <= bound ->
     keyed_calls typed f [cA; cB] [kA; kB] ->
     keyed_calls typed f news nks ->
     keys_wf (kB :: kA :: nks) ->
     let s := snd (run (Some bound) typed f ([cA; cB; cA] ++ news) initial_state) in
     let again (c : list value * kwargs) :=
       invocations (trace_of (wrapper (Some bound) typed f (fst c) (snd c)) s) in
     (recency s = lastn (Z.to_nat bound) (kB :: kA :: nks) /\
      (Z.of_nat (length nks) = bound - 2 -> recency s = kB :: kA :: nks) /\
      (Z.of_nat (length nks) = bound - 1 -> recency s = kA :: nks) /\
      (Z.of_nat (length nks) = bound -> recency s = nks)) /\
     map fst (contents s) ≡ₚ recency s /\
     (Z.of_nat (length nks) <= bound - 2 ->
      is_Some (dict_find kB (contents s)) /\ is_Some (dict_find kA (contents s)) /\
      again cB = [] /\ again cA = []) /\
     (Z.of_nat (length nks) = bound - 1 ->
      dict_find kB (contents s) = None /\ is_Some (dict_find kA (contents s)) /\
      again cB = [cB] /\ again cA = []) /\
     (Z.of_nat (length nks) = bound ->
      dict_find kB (contents s) = None /\ dict_find kA (contents s) = None /\
      again cB = [cB] /\ again cA = [cA])).
Proof.
  intros Hb. split.
  - intros calls s.
    destruct (reached_bounded bound typed f calls Hb) as ([order H] & _ & Ha).
    fold s in H, Ha. split; [|split; [|split]].
    + eexists. split; [reflexivity|]. simpl. apply (inv_size _ _ _ H).
    + exact (contents_recency _ _ _ H).
    + intros args kwds ko Hin Hout.
      rewrite (wrapper_pos_or_neg (Some bound) typed f bound eq_refl) in Hout by lia.
      destruct (bounded_call bound typed f args kwds s order Hb H) as [[order' H'] E].
      cbv zeta in E.
      destruct (recency_inv _ _ _ H) as [_ Hp].
      destruct (recency_inv _ _ _ H') as [_ Hp'].
      rewrite Hp' in Hout. rewrite E in Hout.
      assert (Hin' : ko ∈ recency s) by (rewrite <- Hp; exact Hin).
      destruct (evicted_is_head _ _ _ _ _ _ _ Hin' Hout) as [rest Er].
      rewrite Er. split; [reflexivity|].
      intros k' Hk' Hne. rewrite Hp, Er in Hk'.
      apply elem_of_cons in Hk' as [?|Hk']; [contradiction|].
      rewrite Er in Ha. destruct Ha as [Hs _].
      apply StronglySorted_cons in Hs as [Hall _].
      rewrite Forall_forall in Hall. apply Hall, Hk'.
    + intros args kwds k v Ek Hk Ef Hf Hfull.
      exact (eviction_step bound typed f args kwds s order _ k v Hb H Ha Ek Hk Ef Hf Hfull).
  - intros cA cB kA kB news nks Hb2 HAB Hnews Hwf s again.
    split.
    { assert (E : recency s = lastn (Z.to_nat bound) (kB :: kA :: nks)).
      { apply aba_session; assumption. }
      split; [exact E|]. rewrite E. unfold lastn. cbn [length].
      split; [|split]; intros Hl.
      + replace (S (S (length nks)) - Z.to_nat bound)%nat with O by lia. reflexivity.
      + replace (S (S (length nks)) - Z.to_nat bound)%nat with 1%nat by lia. reflexivity.
      + replace (S (S (length nks)) - Z.to_nat bound)%nat with 2%nat by lia. reflexivity. }
    exact (aba_dictionary bound typed f cA cB kA kB news nks Hb2 HAB Hnews Hwf).
Qed.

Lemma C2_witness :
  let f : list value -> kwargs -> outcome value := fun args _ => Ok (VTuple args) in
  let call (n : Z) : list value * kwargs := ([VInt n], []) in
  let key (n : Z) : key := KVal (VTuple [VInt n]) in
  let w (n : Z) := wrapper (Some 2) false f [VInt n] [] in
  (* at capacity after A, B, A: the call with the new key 3 puts B out *)
  (let s := snd (run (Some 2) false f [call 1; call 2; call 1] initial_state) in
   exists ko vo kept,
     hd_error (recency s) = Some ko /\
     contents s ≡ₚ (ko, vo) :: kept /\
     contents (exec (w 3) s) = kept ++ [(key 3, VTuple [VInt 3])] /\
     dict_find ko (contents (exec (w 3) s)) = None /\
     (forall k', k' ∈ map fst kept ->
        older (history false [call 1; call 2; call 1] []) ko k')) /\
  (* and then B is computed again while A is a hit *)
  (let s := snd (run (Some 2) false f ([call 1; call 2; call 1] ++ [call 3])
                   initial_state) in
   dict_find (key 2) (contents s) = None /\
   is_Some (dict_find (key 1) (contents s)) /\
   invocations (trace_of (w 2) s) = [call 2] /\
   invocations (trace_of (w 1) s) = []).
Proof.
  intros f call key w.
  destruct (C2_bounded_size_and_lru_eviction 2 false f ltac:(lia)) as [H1 H2].
  split.
  - destruct (H1 [call 1; call 2; call 1]) as (_ & _ & _ & H).
    apply (H [VInt 3] [] (key 3) (VTuple [VInt 3])); reflexivity.
  - destruct (H2 (call 1) (call 2) (key 1) (key 2) [call 3] [key 3])
      as (_ & _ & _ & H & _).
    + lia.
    + repeat constructor.
    + repeat constructor.
    + apply keys_wfb_sound. reflexivity.
    + apply H. reflexivity.
Defined.
